(** * Trainer: a shallow embedding of [self_driving/ml_training/Trainer.py]

    The Trainer is orchestration code over a numerical framework: it opens
    sessions, resets iterators, initialises or restores parameters, runs
    tensors, and saves checkpoints.  This development models

    - framework scalars (the values [sess.run] returns for a loss or an
      accuracy) as float32 values: NaN, the two infinities, and finite
      numbers, held as the rationals they are.  Sums, quotients and the
      conversion of integers round to the nearest float32, ties to even,
      with overflow to an infinity and gradual underflow; the sign of zero
      is not modelled;
    - the checkpoint directory as a finite map from file names to files,
      among them the four files [tf.train.Saver] writes for a prefix;
    - every entry point of the class as a computation in a state, error and
      trace monad: the state holds the directory, the source of fresh
      parameters and the session of the enclosing [with] block, errors are
      the exceptions the code can raise, and the trace lists the framework
      calls in the order the code makes them. *)

From Stdlib Require Import QArith ZArith List String Lia Lqa Bool Sorted.
From Stdlib Require Import Qround Qabs Qpower Qreduction.
From stdpp Require Import gmap strings list fin_maps.

Local Open Scope Z_scope.

(** ** Scalars *)

Inductive scalar : Type :=
| SNaN
| SInf (neg : bool)
| SNum (q : Q).

(** [float("inf")] *)
Definition inf : scalar := SInf false.

Definition Qlt_bool (a b : Q) : bool := negb (Qle_bool b a).

(** *** Rounding

    The finite values of a binary format with [prec] bits of precision and
    exponents below [emax] ([prec = 24], [emax = 128] for [np.float32] and
    [tf.float32]; 53 and 1024 for a Python float) are the multiples
    [m * 2 ^ k] with [|m| < 2 ^ prec] and [k >= 3 - emax - prec].  A real
    result is rounded to the nearest of them, a tie to the one with the even
    [m], and to an infinity from [2 ^ emax] on. *)

(** The exponent [e] with [2 ^ e <= q < 2 ^ (e + 1)], for a positive [q]. *)
Definition Qlog2 (q : Q) : Z :=
  let e := Z.log2 (Qnum q) - Z.log2 (Zpos (Qden q)) in
  if Qle_bool (2 ^ e) q then e else e - 1.

Definition round_half_even (q : Q) : Z :=
  let f := Qfloor q in
  match (q - inject_Z f ?= 1 # 2)%Q with
  | Lt => f
  | Gt => f + 1
  | Eq => if Z.even f then f else f + 1
  end.

(** The exponent of the unit in the last place at [q]: that of the binade
    of [q], or of the subnormal numbers below the least binade. *)
Definition ulp_exp (prec emax : Z) (q : Q) : Z :=
  Z.max (Qlog2 (Qabs q)) (2 - emax) - prec + 1.

Definition round_float (prec emax : Z) (q : Q) : scalar :=
  if Qeq_bool q 0 then SNum 0 else
  let k := ulp_exp prec emax q in
  let r := (inject_Z (round_half_even (q / 2 ^ k)) * 2 ^ k)%Q in
  if Qle_bool (2 ^ emax) (Qabs r) then SInf (Qlt_bool q 0) else SNum (Qred r).

Definition round32 : Q -> scalar := round_float 24 128.
Definition round64 : Q -> scalar := round_float 53 1024.



(** [x < y] on floats: false as soon as one side is NaN. *)
Definition slt (x y : scalar) : bool :=
  match x, y with
  | SNaN, _ | _, SNaN => false
  | SInf true, SInf true => false
  | SInf true, _ => true
  | _, SInf true => false
  | SInf false, _ => false
  | SNum _, SInf false => true
  | SNum a, SNum b => Qlt_bool a b
  end.

(** [x <= y] on floats. *)
Definition sle (x y : scalar) : bool :=
  match x, y with
  | SNaN, _ | _, SNaN => false
  | SInf true, _ => true
  | _, SInf false => true
  | _, SInf true => false
  | SInf false, _ => false
  | SNum a, SNum b => Qle_bool a b
  end.

Definition is_nan (x : scalar) : bool :=
  match x with SNaN => true | _ => false end.

(** [x + y] on float32 values. *)
Definition sadd (x y : scalar) : scalar :=
  match x, y with
  | SNaN, _ | _, SNaN => SNaN
  | SInf a, SInf b => if eqb a b then SInf a else SNaN
  | SInf a, SNum _ => SInf a
  | SNum _, SInf b => SInf b
  | SNum a, SNum b => round32 (a + b)
  end.

Definition Qneg_bool (a : Q) : bool := Qlt_bool a 0.

(** [x / y] on float32 values (a zero divisor is the positive zero). *)
Definition sdiv (x y : scalar) : scalar :=
  match x, y with
  | SNaN, _ | _, SNaN => SNaN
  | SInf _, SInf _ => SNaN
  | SInf a, SNum b => SInf (xorb a (Qneg_bool b))
  | SNum _, SInf _ => SNum 0
  | SNum a, SNum b =>
      if Qeq_bool b 0
      then (if Qeq_bool a 0 then SNaN else SInf (Qneg_bool a))
      else round32 (a / b)
  end.

(** A Python integer as a float32: what NumPy makes of the integer operand
    of an operation with a float32 scalar. *)
Definition of_int (z : Z) : scalar := round32 (inject_Z z).

(** [tf.reduce_mean] of a vector: the mean of an empty vector is NaN. *)
Definition reduce_sum (l : list scalar) : scalar := fold_left sadd l (SNum 0).

Definition reduce_mean (l : list scalar) : scalar :=
  sdiv (reduce_sum l) (of_int (Z.of_nat (length l))).

(** [astype(np.int32)]: wrap-around into the signed 32-bit range. *)
Definition astype_int32 (z : Z) : Z := (z + 2 ^ 31) mod 2 ^ 32 - 2 ^ 31.

(** ** [argmax]

    The scan of NumPy's [argmax] over one row: keep the first maximum; a NaN
    is maximal and stops the scan.  [None] is the error raised on an empty
    row. *)
Fixpoint argmax_scan (mp : scalar) (max_ind i : nat) (l : list scalar) : nat :=
  match l with
  | [] => max_ind
  | x :: l' =>
      if sle x mp then argmax_scan mp max_ind (S i) l'
      else if is_nan x then i
           else argmax_scan x i (S i) l'
  end.

Definition argmax (row : list scalar) : option nat :=
  match row with
  | [] => None
  | x :: l => Some (if is_nan x then 0%nat else argmax_scan x 0 1 l)
  end.

(** ** Exceptions, events, and the monad *)

(** Errors of the framework ([tf.errors]). *)
Inductive tf_error : Type :=
| OutOfRange            (* an iterator has no next batch *)
| FailedPrecondition    (* an uninitialised iterator or variable is read *)
| InvalidArgument       (* a reshape or a feed does not fit *)
| RestoreFailed.        (* the restore op cannot read the files under the prefix
                           ([NotFoundError], [DataLossError]) *)

(** Exceptions a call of the Trainer can end with. *)
Inductive error : Type :=
| AssertionError
| ZeroDivisionError
| ValueError
| TfError (e : tf_error).

Inductive iterator_id : Type := Train | Valid.

(** The scalar fetches [sess.run] is called with. *)
Inductive fetch : Type :=
| FTrainLoss          (* [self.tf_train_loss] *)
| FUpdateTrainLoss    (* [[self.update_weights, self.tf_train_loss]] *)
| FValidLoss          (* [self.tf_valid_loss] *)
| FAccuracy.          (* the [accuracy_tensor] argument of [get_accuracy] *)

(** The calls the Trainer makes, in order.  [EvBest] is a ghost event: it
    records an assignment to the local variable [best_valid_loss]. *)
Inductive event : Type :=
| EvSession                          (* [with tf.Session(graph=...)] entered *)
| EvClose                            (* ... and left *)
| EvInitIter (it : iterator_id)      (* [sess.run(iterator.initializer)] *)
| EvGlobalInit                       (* [sess.run(tf.global_variables_initializer())] *)
| EvListdir                          (* [os.listdir(self.save_dir)] *)
| EvRestore (path : string)          (* [self.saver.restore] *)
| EvSave (path : string)             (* [self.saver.save] wrote a snapshot *)
| EvNext (it : iterator_id) (i : nat)  (* an iterator produced its batch [i] *)
| EvRun (f : fetch) (v : scalar)     (* [sess.run] returned the scalar [v] *)
| EvPredict                          (* [sess.run(self.tf_prediction, feed_dict)] *)
| EvPrint (epoch step : Z) (train_loss valid_loss : scalar)
| EvBest (b : scalar).

Definition next_event (x : iterator_id * nat) : event := EvNext x.1 x.2.

Inductive result (E A : Type) : Type :=
| Ok (a : A)
| Err (e : E).
Arguments Ok {E A} a.
Arguments Err {E A} e.

(** State [S], exceptions [E], and the events of type [W] emitted. *)
Definition ST (E W S A : Type) : Type := S -> result E A * S * list W.

Definition ret {E W S A} (a : A) : ST E W S A := fun s => (Ok a, s, []).

Definition raise {E W S A} (e : E) : ST E W S A := fun s => (Err e, s, []).

Definition emit {E W S} (ev : W) : ST E W S unit := fun s => (Ok tt, s, [ev]).

Definition bind {E W S A B} (m : ST E W S A) (k : A -> ST E W S B) : ST E W S B :=
  fun s =>
    match m s with
    | (Ok a, s1, t1) =>
        match k a s1 with
        | (r, s2, t2) => (r, s2, t1 ++ t2)
        end
    | (Err e, s1, t1) => (Err e, s1, t1)
    end.

Declare Scope st_scope.
Delimit Scope st_scope with st.
Notation "x <- m ;; k" := (bind m (fun x => k))
  (at level 100, m at next level, right associativity) : st_scope.
Notation "m ;; k" := (bind m (fun _ => k))
  (at level 100, right associativity) : st_scope.
Local Open Scope st_scope.

(** [for i in l: acc = body(i, acc)], stopping at the first exception. *)
Fixpoint for_acc {E W S I A} (l : list I) (body : I -> A -> ST E W S A) (acc : A)
  : ST E W S A :=
  match l with
  | [] => ret acc
  | i :: l' => acc' <- body i acc ;; for_acc l' body acc'
  end.

(** [range(n)] for a Python integer [n]: empty when [n <= 0]. *)
Definition range (n : Z) : list Z := map Z.of_nat (seq 0 (Z.to_nat n)).

(** ** Data *)

(** One element of an input pipeline: a batch of images and their labels. *)
Record batch : Type := { images : list (list scalar); labels : list Z }.

(** Element types of the arrays a caller can pass to the prediction path. *)
Inductive dtype : Type := Float16 | Float32 | Float64 | Int32 | Int64 | UInt8.

Definition dtype_eqb (a b : dtype) : bool :=
  match a, b with
  | Float16, Float16 | Float32, Float32 | Float64, Float64
  | Int32, Int32 | Int64, Int64 | UInt8, UInt8 => true
  | _, _ => false
  end.

(** A two-dimensional [np.array]. *)
Record ndarray : Type := { arr_dtype : dtype; arr_rows : list (list scalar) }.

(** The fields of [config] the Trainer reads.  Tensor dimensions are
    naturals; the counts used with [range] and [%] are Python integers. *)
Record config : Type := {
  batch_size : nat;
  epochs : Z;
  num_steps : Z;
  save_step : Z;
  height : nat;
  width : nat;
  channels : nat
}.

(** [tf.reshape] of a matrix to [(rows, cols)]. *)
Fixpoint chunks {A} (rows cols : nat) (l : list A) : list (list A) :=
  match rows with
  | O => []
  | S r => take cols l :: chunks r cols (drop cols l)
  end.

(** The numbers the accumulator [acc] of [get_accuracy] ranges over: the
    integer it starts as, a float after the first [+=]. *)
Inductive pynum : Type :=
| PyInt (z : Z)
| PyFloat (x : scalar).

(** [acc += v] for a float32 [v]: the sum of the integer and a NumPy
    float32 scalar is a float32. *)
Definition py_iadd (acc : pynum) (v : scalar) : pynum :=
  match acc with
  | PyInt z => PyFloat (sadd (of_int z) v)
  | PyFloat x => PyFloat (sadd x v)
  end.

(** [acc / n] for an integer [n]: between integers a zero divisor raises,
    and the quotient is a Python float; a NumPy float divided by zero is an
    infinity or NaN. *)
Definition py_truediv {W S} (acc : pynum) (n : Z) : ST error W S scalar :=
  match acc with
  | PyInt z =>
      if n =? 0 then raise ZeroDivisionError
      else ret (round64 (inject_Z z / inject_Z n))
  | PyFloat x => ret (sdiv x (of_int n))
  end.

(** [a % b] between integers. *)
Definition py_mod {W S} (a b : Z) : ST error W S Z :=
  if b =? 0 then raise ZeroDivisionError else ret (a mod b).

(** The scan of [tf.argmax] over one row: a strictly greater element
    replaces the maximum, so a NaN is never selected. *)
Fixpoint tf_argmax_scan (mp : scalar) (max_ind i : nat) (l : list scalar) : nat :=
  match l with
  | [] => max_ind
  | x :: l' =>
      if slt mp x then tf_argmax_scan x i (S i) l'
      else tf_argmax_scan mp max_ind (S i) l'
  end.

Definition tf_argmax (row : list scalar) : option nat :=
  match row with
  | [] => None
  | _ => Some (tf_argmax_scan (SInf true) 0 0 row)
  end.

Fixpoint map_opt {A B} (f : A -> option B) (l : list A) : option (list B) :=
  match l with
  | [] => Some []
  | x :: l' =>
      match f x, map_opt f l' with
      | Some y, Some ys => Some (y :: ys)
      | _, _ => None
      end
  end.

Definition indicator (b : bool) : scalar := if b then SNum 1 else SNum 0.

Fixpoint zip_eq (a b : list Z) : list bool :=
  match a, b with
  | x :: a', y :: b' => (x =? y) :: zip_eq a' b'
  | _, _ => []
  end.

(** ** Reading a trace *)

(** The validation losses, the assignments to [best_valid_loss], the
    accuracies and the training batches a trace shows, in order. *)
Definition losses (t : list event) : list scalar :=
  flat_map (fun e => match e with EvRun FValidLoss v => [v] | _ => [] end) t.

Definition assigned (t : list event) : list scalar :=
  flat_map (fun e => match e with EvBest b => [b] | _ => [] end) t.

Definition accuracies (t : list event) : list scalar :=
  flat_map (fun e => match e with EvRun FAccuracy v => [v] | _ => [] end) t.

Definition train_batches (t : list event) : list nat :=
  flat_map (fun e => match e with EvNext Train i => [i] | _ => [] end) t.

Definition is_save (e : event) : bool :=
  match e with EvSave _ => true | _ => false end.

Definition is_checkpoint_event (e : event) : bool :=
  match e with
  | EvRun FValidLoss _ | EvSave _ | EvBest _ => true
  | _ => false
  end.

(** [tracked path b t b']: along [t] the tracker goes from [b] to [b'];
    every validation loss strictly below the tracker is followed at once by
    a save under [path] and the assignment of that loss to the tracker, a
    loss that is not below leaves both alone, and there is no other save or
    assignment. *)
Inductive tracked (path : string) : scalar -> list event -> scalar -> Prop :=
| tracked_nil b : tracked path b [] b
| tracked_other b e t b' :
    is_checkpoint_event e = false -> tracked path b t b' ->
    tracked path b (e :: t) b'
| tracked_keep b v t b' :
    slt v b = false -> tracked path b t b' ->
    tracked path b (EvRun FValidLoss v :: t) b'
| tracked_improve b v t b' :
    slt v b = true -> tracked path v t b' ->
    tracked path b (EvRun FValidLoss v :: EvSave path :: EvBest v :: t) b'.



(** [is_first_max row j]: [j] is the index NumPy's [argmax] designates in
    [row].  No element before [j] is a NaN, and the element at [j] is either
    a NaN (the first one) or a maximum of the row that every element before
    it is strictly below. *)
Definition is_first_max (row : list scalar) (j : nat) : Prop :=
  exists x, row !! j = Some x /\
    (forall k y, (k < j)%nat -> row !! k = Some y -> is_nan y = false) /\
    (is_nan x = true \/
     ((forall k y, row !! k = Some y -> sle y x = true) /\
      (forall k y, (k < j)%nat -> row !! k = Some y -> slt y x = true))).

(** ** A small instance

    Two classes, batches of one image of one pixel, one weight.  The logit
    of the first class is the weight plus the pixel, the loss of an image is
    that logit, and an optimiser step subtracts one from the weight. *)
Definition toy_cfg : config :=
  {| batch_size := 1; epochs := 2; num_steps := 3; save_step := 2;
     height := 1; width := 1; channels := 1 |}.

Definition toy_records (i : nat) : option batch :=
  Some {| images := [[SNum (inject_Z (Z.of_nat i))]]; labels := [0] |}.

Definition toy_logits (p : scalar) (x : list (list scalar)) : list (list scalar) :=
  map (fun r => [sadd p (reduce_sum r); SNum 0]) x.

Definition toy_softmax (r : list scalar) : list scalar := r.

Definition toy_cross_entropy (l : list Z) (x : list (list scalar)) : list scalar :=
  map (fun r => hd SNaN r) x.

Definition toy_fresh (k : nat) : scalar := SNum 5.

Definition toy_minimize (p : scalar) (x : list (list scalar)) (l : list Z) : scalar :=
  sadd p (SNum (-1)).

(** An optimiser step that diverges: the weight becomes NaN. *)
Definition toy_diverge (p : scalar) (x : list (list scalar)) (l : list Z) : scalar :=
  SNaN.

(** ** The Trainer *)

Section Trainer.

(** The collaborators the Trainer is built from. *)
Variable Params : Type.
(** the parameters the [k]-th run of the global initialiser produces *)
Variable fresh_params : nat -> Params.
(** [model.get_logits] *)
Variable get_logits : Params -> list (list scalar) -> list (list scalar).
(** [tf.nn.softmax] of one row *)
Variable softmax : list scalar -> list scalar.
(** [tf.nn.sparse_softmax_cross_entropy_with_logits] *)
Variable cross_entropy : list Z -> list (list scalar) -> list scalar.
(** one step of [optimizer.minimize(tf_train_loss)] on a batch *)
Variable minimize : Params -> list (list scalar) -> list Z -> Params.
(** the batches [get_iterator] yields over the two record files, in
    order; [None] past the end of a dataset that does not repeat *)
Variable train_records valid_records : nat -> option batch.
Variable cfg : config.

Definition iterations : Z := num_steps cfg.
Definition show_step : Z := save_step cfg.
Definition flat_size : nat := (height cfg * width cfg * channels cfg)%nat.

(** [os.path.join(self.save_dir, 'best_validation')], as a name inside
    [save_dir]: the directory is the one the store models. *)
Definition save_path : string := "best_validation".

(** The files [tf.train.Saver] keeps for a prefix: the tensor data, their
    index and the graph; and the state file of the directory, which names
    the latest prefix. *)
Definition data_name (path : string) : string := path +:+ ".data-00000-of-00001".
Definition index_name (path : string) : string := path +:+ ".index".
Definition meta_name (path : string) : string := path +:+ ".meta".
Definition state_name : string := "checkpoint".

Definition checkpoint_names (path : string) : list string :=
  [data_name path; index_name path; meta_name path; state_name].

(** *** Sessions and the store *)

Record session : Type := {
  variables : option Params;
  train_pos : option nat;
  valid_pos : option nat
}.

Definition fresh_session : session :=
  {| variables := None; train_pos := None; valid_pos := None |}.

(** A file of the checkpoint directory: one of the files the saver
    writes (the data file holds the parameters), or anything else. *)
Inductive file : Type :=
| CheckpointFile (p : Params)
| IndexFile
| MetaFile
| StateFile
| OtherFile.

Record world : Type := {
  store : gmap string file;
  rng : nat;
  sess : session
}.

Definition set_sess (w : world) (s : session) : world :=
  {| store := store w; rng := rng w; sess := s |}.

Definition set_store (w : world) (d : gmap string file) : world :=
  {| store := d; rng := rng w; sess := sess w |}.

Definition set_variables (s : session) (p : Params) : session :=
  {| variables := Some p; train_pos := train_pos s; valid_pos := valid_pos s |}.

Definition records (it : iterator_id) : nat -> option batch :=
  match it with Train => train_records | Valid => valid_records end.

Definition pos (it : iterator_id) (s : session) : option nat :=
  match it with Train => train_pos s | Valid => valid_pos s end.

Definition set_pos (it : iterator_id) (i : nat) (s : session) : session :=
  match it with
  | Train => {| variables := variables s; train_pos := Some i; valid_pos := valid_pos s |}
  | Valid => {| variables := variables s; train_pos := train_pos s; valid_pos := Some i |}
  end.

(** Computations of the graph inside one session, which can only move
    the iterators and the variables and report the batches they consume,
    and computations of the Trainer. *)
Definition TM (A : Type) : Type := ST tf_error (iterator_id * nat) session A.
Definition M (A : Type) : Type := ST error event world A.

(** *** The graph ([build_graph]) *)

(** [iterator.get_next()] *)
Definition get_next (it : iterator_id) : TM batch :=
  fun s =>
    match pos it s with
    | None => (Err FailedPrecondition, s, [])
    | Some i =>
        match records it i with
        | None => (Err OutOfRange, s, [])
        | Some b => (Ok b, set_pos it (S i) s, [(it, i)])
        end
    end.

Definition read_variables : TM Params :=
  fun s =>
    match variables s with
    | None => (Err FailedPrecondition, s, [])
    | Some p => (Ok p, s, [])
    end.

Definition assign_variables (p : Params) : TM unit :=
  fun s => (Ok tt, set_variables s p, []).

Definition reshape_images (x : list (list scalar)) : TM (list (list scalar)) :=
  let flat := concat x in
  if (length flat =? batch_size cfg * flat_size)%nat
  then ret (chunks (batch_size cfg) flat_size flat)
  else raise InvalidArgument.

Definition reshape_labels (y : list Z) : TM (list Z) :=
  if (length y =? batch_size cfg)%nat then ret y else raise InvalidArgument.

(** The next batch of an iterator, reshaped to the fixed batch size. *)
Definition next_batch (it : iterator_id) : TM (list (list scalar) * list Z) :=
  b <- get_next it ;;
  imgs <- reshape_images (images b) ;;
  labs <- reshape_labels (labels b) ;;
  ret (imgs, labs).

Definition loss (p : Params) (imgs : list (list scalar)) (labs : list Z) : scalar :=
  reduce_mean (cross_entropy labs (get_logits p imgs)).

(** [self.tf_train_loss] *)
Definition tf_train_loss : TM scalar :=
  b <- next_batch Train ;;
  p <- read_variables ;;
  ret (loss p (fst b) (snd b)).

(** [[self.update_weights, self.tf_train_loss]]: one batch feeds both, and
    the loss fetched is the one the step differentiates, that of the
    variables before the step. *)
Definition update_weights_train_loss : TM scalar :=
  b <- next_batch Train ;;
  p <- read_variables ;;
  assign_variables (minimize p (fst b) (snd b)) ;;
  ret (loss p (fst b) (snd b)).

(** [self.tf_valid_loss] *)
Definition tf_valid_loss : TM scalar :=
  b <- next_batch Valid ;;
  p <- read_variables ;;
  ret (loss p (fst b) (snd b)).

(** [self.valid_accuracy] *)
Definition valid_accuracy : TM scalar :=
  b <- next_batch Valid ;;
  p <- read_variables ;;
  match map_opt tf_argmax (map softmax (get_logits p (fst b))) with
  | None => raise InvalidArgument
  | Some idx =>
      let valid_prediction := map (fun i => astype_int32 (Z.of_nat i)) idx in
      ret (reduce_mean (map indicator (zip_eq valid_prediction (snd b))))
  end.

(** [self.tf_prediction] on the rows fed to [self.input_image] *)
Definition tf_prediction (rows : list (list scalar)) : TM (list (list scalar)) :=
  p <- read_variables ;;
  ret (map softmax (get_logits p rows)).

(** *** Framework calls *)

(** A graph computation run in the current session. *)
Definition lift {A} (t : TM A) : M A :=
  fun w =>
    match t (sess w) with
    | (Ok a, s, ev) => (Ok a, set_sess w s, map next_event ev)
    | (Err e, s, ev) => (Err (TfError e), set_sess w s, map next_event ev)
    end.

(** [sess.run] of a scalar fetch *)
Definition sess_run (f : fetch) (t : TM scalar) : M scalar :=
  v <- lift t ;;
  emit (EvRun f v) ;;
  ret v.

(** [sess.run(iterator.initializer)] *)
Definition sess_run_initializer (it : iterator_id) : M unit :=
  fun w => (Ok tt, set_sess w (set_pos it 0 (sess w)), [EvInitIter it]).

(** [sess.run(tf.global_variables_initializer())] *)
Definition global_variables_initializer : M unit :=
  fun w =>
    (Ok tt,
     {| store := store w; rng := S (rng w);
        sess := set_variables (sess w) (fresh_params (rng w)) |},
     [EvGlobalInit]).

(** [os.listdir(self.save_dir)] *)
Definition listdir : M (list string) :=
  fun w => (Ok (map fst (map_to_list (store w))), w, [EvListdir]).

(** The directory after the saver has written the parameters [p] under
    the prefix [path]. *)
Definition write_checkpoint (path : string) (p : Params) (d : gmap string file)
  : gmap string file :=
  <[state_name := StateFile]>
    (<[meta_name path := MetaFile]>
       (<[index_name path := IndexFile]>
          (<[data_name path := CheckpointFile p]> d))).

Arguments write_checkpoint : simpl never.

(** The check [saver.restore] makes before it runs the restore op: an
    index file of the prefix, or a file named as the prefix itself (the
    older format). *)
Definition checkpoint_exists (path : string) (d : gmap string file) : bool :=
  match d !! index_name path, d !! path with
  | None, None => false
  | _, _ => true
  end.

(** What the restore op reads: the index and the data of the prefix. *)
Definition read_checkpoint (path : string) (d : gmap string file) : option Params :=
  match d !! index_name path, d !! data_name path with
  | Some IndexFile, Some (CheckpointFile p) => Some p
  | _, _ => None
  end.

(** [self.saver.restore(sess, save_path)]: a [ValueError] when the check
    fails, an error of the framework when the files cannot be read. *)
Definition saver_restore (path : string) : M unit :=
  fun w =>
    if checkpoint_exists path (store w) then
      match read_checkpoint path (store w) with
      | Some p => (Ok tt, set_sess w (set_variables (sess w) p), [EvRestore path])
      | None => (Err (TfError RestoreFailed), w, [EvRestore path])
      end
    else (Err ValueError, w, [EvRestore path]).

(** [self.saver.save(sess, save_path)] *)
Definition saver_save (path : string) : M unit :=
  fun w =>
    match variables (sess w) with
    | Some p =>
        (Ok tt, set_store w (write_checkpoint path p (store w)), [EvSave path])
    | None => (Err (TfError FailedPrecondition), w, [])
    end.

(** [with tf.Session(graph=self.graph) as sess: body] *)
Definition with_session {A} (body : M A) : M A :=
  fun w =>
    match body (set_sess w fresh_session) with
    | (r, w', t) => (r, w', EvSession :: t ++ [EvClose])
    end.

(** The choice both evaluation paths make after opening a session. *)
Definition restore_or_initialize : M unit :=
  names <- listdir ;;
  match names with
  | [] => global_variables_initializer
  | _ => saver_restore save_path
  end.

(** *** [get_accuracy] and [get_valid_accuracy] *)

Definition get_accuracy (iterator_initializer : iterator_id)
    (accuracy_tensor : TM scalar) (iterations : Z) : M scalar :=
  acc <- with_session (
    sess_run_initializer iterator_initializer ;;
    restore_or_initialize ;;
    for_acc (range iterations)
      (fun _ acc => v <- sess_run FAccuracy accuracy_tensor ;; ret (py_iadd acc v))
      (PyInt 0)) ;;
  py_truediv acc iterations.

(** [None] is a call that leaves [iterations] to its default. *)
Definition get_valid_accuracy (iterations : option Z) : M scalar :=
  get_accuracy Valid valid_accuracy
    (match iterations with Some n => n | None => 50 end).

(** *** [fit] *)

(** The body of the inner loop; the accumulator holds the locals
    [show_loss] and [best_valid_loss]. *)
Definition fit_step (verbose : bool) (epoch step : Z) (locals : scalar * scalar)
  : M (scalar * scalar) :=
  let best_valid_loss := snd locals in
  loss <- sess_run FUpdateTrainLoss update_weights_train_loss ;;
  let show_loss := loss in
  r <- py_mod step show_step ;;
  if r =? 0 then
    (if verbose
     then emit (EvPrint (epoch + 1) (step + 1) show_loss best_valid_loss)
     else ret tt) ;;
    valid_loss <- sess_run FValidLoss tf_valid_loss ;;
    if slt valid_loss best_valid_loss then
      saver_save save_path ;;
      emit (EvBest valid_loss) ;;
      ret (show_loss, valid_loss)
    else ret (show_loss, best_valid_loss)
  else ret (show_loss, best_valid_loss).

Definition fit_loops (verbose : bool) (locals : scalar * scalar)
  : M (scalar * scalar) :=
  for_acc (range (epochs cfg))
    (fun epoch locals =>
       for_acc (range iterations) (fit_step verbose epoch) locals)
    locals.

Definition fit (verbose : bool) : M unit :=
  let best_valid_loss := inf in
  emit (EvBest best_valid_loss) ;;
  with_session (
    sess_run_initializer Train ;;
    sess_run_initializer Valid ;;
    global_variables_initializer ;;
    show_loss <- sess_run FTrainLoss tf_train_loss ;;
    fit_loops verbose (show_loss, best_valid_loss) ;;
    ret tt).

(** *** [predict_prob] and [predict] *)

(** The feed of [self.input_image], of shape [(None, flat_size)]. *)
Definition feed_fits (rows : list (list scalar)) : bool :=
  forallb (fun r => (length r =? flat_size)%nat) rows.

Definition sess_run_prediction (rows : list (list scalar)) : M (list (list scalar)) :=
  if feed_fits rows
  then r <- lift (tf_prediction rows) ;; emit EvPredict ;; ret r
  else raise ValueError.

Definition predict_prob (img : ndarray) : M ndarray :=
  if dtype_eqb (arr_dtype img) Float32 then
    with_session (
      restore_or_initialize ;;
      result <- sess_run_prediction (arr_rows img) ;;
      ret {| arr_dtype := Float32; arr_rows := result |})
  else raise AssertionError.

(** [np.argmax(result, axis=1)] *)
Definition argmax_axis1 (a : ndarray) : M (list Z) :=
  match map_opt argmax (arr_rows a) with
  | Some idx => ret (map Z.of_nat idx)
  | None => raise ValueError
  end.

Definition predict (img : ndarray) : M (list Z) :=
  result <- predict_prob img ;;
  result <- argmax_axis1 result ;;
  ret (map astype_int32 result).

(** ** Predicates on computations *)

(** [post m s Q]: the outcome of [m] from state [s] satisfies [Q]. *)
Definition post {E W S A} (m : ST E W S A) (s : S)
    (Q : result E A -> S -> list W -> Prop) : Prop :=
  Q (m s).1.1 (m s).1.2 (m s).2.

(** Computations that leave the store as it is. *)
Definition keeps_store {A} (m : M A) : Prop :=
  forall w, post m w (fun _ w' _ => store w' = store w).

(** The events by which a session gets its parameters: the listing of
    the directory, the global initialiser, a restore. *)
Definition is_setup (e : event) : bool :=
  match e with EvListdir | EvGlobalInit | EvRestore _ => true | _ => false end.

Definition no_setup (t : list event) : Prop := Forall (fun e => is_setup e = false) t.

(** What [restore_or_initialize] does, by cases on the directory. *)
Definition setup_outcome (w : world) (r : result error unit) (w' : world)
    (t : list event) : Prop :=
  (store w = ∅ /\ r = Ok tt /\ t = [EvListdir; EvGlobalInit] /\
     w' = {| store := store w; rng := S (rng w);
             sess := set_variables (sess w) (fresh_params (rng w)) |}) \/
  (store w <> ∅ /\ t = [EvListdir; EvRestore save_path] /\
     ((exists p, read_checkpoint save_path (store w) = Some p /\ r = Ok tt /\
                 w' = set_sess w (set_variables (sess w) p)) \/
      (read_checkpoint save_path (store w) = None /\ w' = w /\
       r = Err (if checkpoint_exists save_path (store w)
                then TfError RestoreFailed else ValueError)))).

(** Computations that neither list the directory, nor initialise, nor
    restore. *)
Definition quiet {A} (m : M A) : Prop :=
  forall w, post m w (fun _ _ t => no_setup t).

(** The trace of a call whose session starts, after the events [pre],
    with the choice between initialising and restoring: the directory
    being empty or not decides, nothing else does, and no other
    initialisation or restore follows. *)
Definition decides {A} (w : world) (pre : list event) (r : result error A)
    (t : list event) : Prop :=
  exists X t', t = EvSession :: pre ++ EvListdir :: X :: t' /\ no_setup t' /\
    (store w = ∅ -> X = EvGlobalInit) /\
    (store w <> ∅ -> X = EvRestore save_path) /\
    (store w <> ∅ -> read_checkpoint save_path (store w) = None ->
       r = Err (if checkpoint_exists save_path (store w)
                then TfError RestoreFailed else ValueError)).

(** The parameters the session of a call over [w] is set up with: fresh
    ones over an empty directory, and over any other directory those the
    checkpoint files hold. *)
Definition setup_params (w : world) (p : Params) : Prop :=
  (store w = ∅ /\ p = fresh_params (rng w)) \/
  (store w <> ∅ /\ read_checkpoint save_path (store w) = Some p).

(** [first_run tensor s r t]: the first accuracy of a call with outcome [r]
    and trace [t] is the one [tensor] computes in the session [s]; if the
    tensor fails there, the call fails with its error before any accuracy. *)
Definition first_run (tensor : TM scalar) (s : session) (r : result error scalar)
    (t : list event) : Prop :=
  match (tensor s).1.1 with
  | Ok v => exists rest, accuracies t = v :: rest
  | Err e => r = Err (TfError e) /\ accuracies t = []
  end.

(** Computations whose only exceptions are those of the framework: its
    errors, and the [ValueError] of a restore. *)
Definition tf_only {A} (m : M A) : Prop :=
  forall w, post m w (fun r _ _ =>
    forall e, r = Err e -> e = ValueError \/ exists e', e = TfError e').


(** The events [t] of a loop of [fit] entered with the tracker at [b]
    are [tracked], up to the tracker the loop returns. *)
Definition tracks (b : scalar) (r : result error (scalar * scalar))
    (t : list event) : Prop :=
  exists b', tracked save_path b t b' /\
    match r with Ok locals' => snd locals' = b' | Err _ => True end.

(** The store holds, under the checkpoint path, a snapshot to restore. *)
Definition has_snapshot (w : world) : Prop :=
  exists p, read_checkpoint save_path (store w) = Some p.

(** Some event of [t] is a save. *)
Definition saves (t : list event) : Prop := Exists (fun e => is_save e = true) t.

(** Computations that never remove the snapshot, and after whose save
    events the snapshot is in the store. *)
Definition records_saves {A} (m : M A) : Prop :=
  forall w, post m w (fun _ w' t =>
    (has_snapshot w -> has_snapshot w') /\ (saves t -> has_snapshot w')).

(** The checkpoint property as the specification words it: a call of
    [fit] that returns after at least one report step leaves a directory
    that is not empty. *)
Definition checkpoint_after_report_step : Prop :=
  forall (verbose : bool) (w : world) w' t,
    fit verbose w = (Ok tt, w', t) -> losses t <> [] -> store w' <> ∅.

(** Two states that differ in the store alone. *)
Definition same_run (w1 w2 : world) : Prop :=
  rng w1 = rng w2 /\ sess w1 = sess w2.

(** Computations that do not look at the store: from two such states they
    have the same outcome and the same events, and end in two such
    states. *)
Definition store_blind {A} (m : M A) : Prop :=
  forall w1 w2, same_run w1 w2 ->
    (m w1).1.1 = (m w2).1.1 /\ (m w1).2 = (m w2).2 /\ same_run (m w1).1.2 (m w2).1.2.

(** The same, from two states whose sessions may differ too. *)
Definition session_blind {A} (m : M A) : Prop :=
  forall w1 w2, rng w1 = rng w2 ->
    (m w1).1.1 = (m w2).1.1 /\ (m w1).2 = (m w2).2 /\ same_run (m w1).1.2 (m w2).1.2.

(** The runs of the optimiser a trace shows. *)
Definition updates (t : list event) : list scalar :=
  flat_map (fun e => match e with EvRun FUpdateTrainLoss v => [v] | _ => [] end) t.

(** The images of a batch, reshaped to the fixed batch size. *)
Definition batch_images (rec : batch) : list (list scalar) :=
  chunks (batch_size cfg) flat_size (concat (images rec)).

(** [advances k u m]: when [m] returns, it has taken the [k] next batches
    of the train iterator and run the optimiser [u] times. *)
Definition advances {A} (k u : nat) (m : M A) : Prop :=
  forall w i, train_pos (sess w) = Some i ->
    post m w (fun r w' t =>
      match r with
      | Ok _ => train_pos (sess w') = Some (i + k)%nat /\
                train_batches t = seq i k /\ length (updates t) = u
      | Err _ => True
      end).

(** The validation batches a trace shows, in order. *)
Definition valid_batches (t : list event) : list nat :=
  flat_map (fun e => match e with EvNext Valid i => [i] | _ => [] end) t.

(** A batch that the reshapes of the graph accept. *)
Definition full_batch (b : batch) : Prop :=
  length (concat (images b)) = (batch_size cfg * flat_size)%nat /\
  length (labels b) = batch_size cfg.

(** [takes_valid sel m]: when [m] returns, the runs that [sel] selects in
    its trace are as many as the batches it has taken from the validation
    iterator, which are the next ones, all of them full. *)
Definition takes_valid {A} (sel : list event -> list scalar) (m : M A) : Prop :=
  forall w j, valid_pos (sess w) = Some j ->
    post m w (fun r w' t =>
      match r with
      | Ok _ => valid_pos (sess w') = Some (j + length (sel t))%nat /\
                valid_batches t = seq j (length (sel t)) /\
                (forall i, (j <= i < j + length (sel t))%nat ->
                   exists b, valid_records i = Some b /\ full_batch b)
      | Err _ => True
      end).

(** The resets of the validation iterator. *)
Definition is_valid_init (e : event) : bool :=
  match e with EvInitIter Valid => true | _ => false end.

(** [loss_on_batch i v]: [v] is the loss of some parameters on the batch
    [i] of the validation set. *)
Definition loss_on_batch (i : nat) (v : scalar) : Prop :=
  exists rec p, valid_records i = Some rec /\
                v = loss p (batch_images rec) (labels rec).

(** Computations that do not reset the validation iterator and, when they
    return, have computed one validation loss on each validation batch
    they took, in order. *)
Definition pairs_valid {A} (m : M A) : Prop :=
  forall w, post m w (fun r _ t =>
    Forall (fun e => is_valid_init e = false) t /\
    match r with
    | Ok _ => Forall2 loss_on_batch (valid_batches t) (losses t)
    | Err _ => True
    end).


(** A trace without its progress lines. *)
Definition erase_prints (t : list event) : list event :=
  flat_map (fun e => match e with EvPrint _ _ _ _ => [] | _ => [e] end) t.

(** [print_sim m1 m2]: [m2] does what [m1] does, without printing. *)
Definition print_sim {A} (m1 m2 : M A) : Prop :=
  forall w, (m1 w).1 = (m2 w).1 /\ erase_prints (m1 w).2 = (m2 w).2.

(** The training losses a trace shows: those of the run before the loops
    and of the updates. *)
Definition train_losses (t : list event) : list scalar :=
  flat_map (fun e => match e with
                     | EvRun FTrainLoss l | EvRun FUpdateTrainLoss l => [l]
                     | _ => []
                     end) t.

(** The locals [show_loss] and [best_valid_loss] of [fit] after the events
    [t], from their values before. *)
Fixpoint locals_after (show best : scalar) (t : list event) : scalar * scalar :=
  match t with
  | [] => (show, best)
  | e :: t' =>
      match e with
      | EvRun FTrainLoss l | EvRun FUpdateTrainLoss l => locals_after l best t'
      | EvBest b => locals_after show b t'
      | _ => locals_after show best t'
      end
  end.

(** Every progress line of [t] shows the two locals as they are when it is
    printed. *)
Fixpoint prints_show (show best : scalar) (t : list event) : Prop :=
  match t with
  | [] => True
  | e :: t' =>
      match e with
      | EvRun FTrainLoss l | EvRun FUpdateTrainLoss l => prints_show l best t'
      | EvBest b => prints_show show b t'
      | EvPrint _ _ l b => l = show /\ b = best /\ prints_show show best t'
      | _ => prints_show show best t'
      end
  end.

(** The events of a loop of [fit] print the locals, and the loop returns
    them. *)
Definition shows (locals : scalar * scalar) (r : result error (scalar * scalar))
    (t : list event) : Prop :=
  prints_show (fst locals) (snd locals) t /\
  match r with
  | Ok locals' => locals' = locals_after (fst locals) (snd locals) t
  | Err _ => True
  end.

(** Whether [step] is a report step, counted. *)
Definition is_report_step (step : Z) : nat :=
  if step mod show_step =? 0 then 1%nat else 0%nat.

(** The number of report steps in one epoch. *)
Definition report_steps : nat := sum_list (map is_report_step (range iterations)).

(** Computations that, when they return, have computed [n] validation
    losses. *)
Definition computes_losses {A} (n : nat) (m : M A) : Prop :=
  forall w, post m w (fun r _ t =>
    match r with Ok _ => length (losses t) = n | Err _ => True end).

(** [best_saved b w]: the tracker [b] is accounted for by the store of [w]:
    it is still +infinity, or the store holds under the checkpoint path
    parameters whose loss on some batch of the validation set is [b]. *)
Definition best_saved (b : scalar) (w : world) : Prop :=
  b = inf \/
  exists p rec j,
    read_checkpoint save_path (store w) = Some p /\
    valid_records j = Some rec /\
    b = loss p (batch_images rec) (labels rec).

(** [written d0 b w]: the store of [w] is the directory [d0] as the saves
    behind the tracker [b] left it: untouched while the tracker is
    +infinity, and otherwise, the tracker being below +infinity, [d0] with
    the checkpoint files of parameters whose loss on some batch of the
    validation set is [b]. *)
Definition written (d0 : gmap string file) (b : scalar) (w : world) : Prop :=
  (b = inf /\ store w = d0) \/
  (slt b inf = true /\
   exists p rec j,
     store w = write_checkpoint save_path p d0 /\
     valid_records j = Some rec /\
     b = loss p (batch_images rec) (labels rec)).

(** What a call with a zero report interval ends with. *)
Definition zero_interval_outcome {A} (w : world) (r : result error A) (w' : world)
    (t : list event) : Prop :=
  store w' = store w /\ losses t = [] /\
  ((r = Err ZeroDivisionError /\ length (updates t) = 1%nat) \/
   (exists e, r = Err (TfError e) /\ updates t = [])).

(** * Properties *)

(** ** The order on scalars *)

Lemma Qlt_bool_iff (a b : Q) : Qlt_bool a b = true <-> (a < b)%Q.
Proof.
unfold Qlt_bool. rewrite negb_true_iff. split.
- intros H. apply Qnot_le_lt. intros Hle.
  apply Qle_bool_iff in Hle. congruence.
- intros H. destruct (Qle_bool b a) eqn:E; [|reflexivity].
  apply Qle_bool_iff in E. exfalso. exact (Qlt_not_le _ _ H E).
Qed.

Lemma Qlt_bool_false (a b : Q) : Qlt_bool a b = false <-> (b <= a)%Q.
Proof.
unfold Qlt_bool. rewrite negb_false_iff. apply Qle_bool_iff.
Qed.

Lemma slt_irrefl (x : scalar) : slt x x = false.
Proof.
destruct x as [|[]|q]; simpl; try reflexivity.
apply Qlt_bool_false. apply Qle_refl.
Qed.

Lemma slt_below_inf (v b : scalar) : slt v b = true -> slt v inf = true.
Proof. destruct v as [| [] |q], b as [| [] |q']; simpl; congruence. Qed.

Lemma slt_trans (x y z : scalar) :
slt x y = true -> slt y z = true -> slt x z = true.
Proof.
destruct x as [|[]|a], y as [|[]|b], z as [|[]|c]; simpl;
  try congruence; try reflexivity.
rewrite !Qlt_bool_iff. apply Qlt_trans.
Qed.

Lemma slt_sle (x y : scalar) : slt x y = true -> sle x y = true.
Proof.
destruct x as [|[]|a], y as [|[]|b]; simpl; try congruence.
rewrite Qlt_bool_iff, Qle_bool_iff. apply Qlt_le_weak.
Qed.

(** A value that is not below [b] is not below anything smaller than [b]. *)
Lemma slt_false_below (v b b' : scalar) :
slt b' b = true -> slt v b = false -> slt v b' = false.
Proof.
destruct v as [|[]|a], b as [|[]|c], b' as [|[]|d]; simpl;
  try congruence; try reflexivity.
rewrite Qlt_bool_iff, !Qlt_bool_false. intros H1 H2.
apply Qlt_le_weak. eapply Qlt_le_trans; eassumption.
Qed.

(** ** Reasoning about computations *)

Lemma post_run {E W S A} (m : ST E W S A) s Q r s' t :
post m s Q -> m s = (r, s', t) -> Q r s' t.
Proof. unfold post. intros H Heq. rewrite Heq in H. exact H. Qed.

Lemma post_conseq {E W S A} (m : ST E W S A) s (Q Q' : result E A -> S -> list W -> Prop) :
post m s Q -> (forall r s' t, Q r s' t -> Q' r s' t) -> post m s Q'.
Proof. unfold post. auto. Qed.

Lemma post_any {E W S A} (m : ST E W S A) s (Q : result E A -> S -> list W -> Prop) :
  (forall r s' t, Q r s' t) -> post m s Q.
Proof. intros H. apply H. Qed.

Lemma post_ret {E W S A} (a : A) (s : S) (Q : result E A -> S -> list W -> Prop) :
Q (Ok a) s [] -> post (ret a) s Q.
Proof. exact (fun H => H). Qed.

Lemma post_raise {E W S A} (e : E) (s : S) (Q : result E A -> S -> list W -> Prop) :
Q (Err e) s [] -> post (raise e) s Q.
Proof. exact (fun H => H). Qed.

Lemma post_emit {E W S} (ev : W) (s : S) (Q : result E unit -> S -> list W -> Prop) :
Q (Ok tt) s [ev] -> post (emit ev) s Q.
Proof. exact (fun H => H). Qed.

Lemma post_bind {E W S A B} (m : ST E W S A) (k : A -> ST E W S B) s
  (Q : result E B -> S -> list W -> Prop) :
post m s (fun r s1 t1 =>
  match r with
  | Ok a => post (k a) s1 (fun r' s2 t2 => Q r' s2 (t1 ++ t2))
  | Err e => Q (Err e) s1 t1
  end) ->
post (bind m k) s Q.
Proof.
unfold post, bind. destruct (m s) as [[[a|e] s1] t1]; simpl; [|auto].
destruct (k a s1) as [[r s2] t2]; simpl. auto.
Qed.

(** ** Rules for the framework calls *)

Lemma post_lift {A} (t : TM A) (w : world) (Q : result error A -> world -> list event -> Prop) :
  post t (sess w) (fun r s ev =>
    match r with
    | Ok a => Q (Ok a) (set_sess w s) (map next_event ev)
    | Err e => Q (Err (TfError e)) (set_sess w s) (map next_event ev)
    end) ->
  post (lift t) w Q.
Proof.
  unfold post, lift. destruct (t (sess w)) as [[[a|e] s] ev]; simpl; auto.
Qed.

Lemma post_sess_run (f : fetch) (t : TM scalar) (w : world)
    (Q : result error scalar -> world -> list event -> Prop) :
  post t (sess w) (fun r s ev =>
    match r with
    | Ok v => Q (Ok v) (set_sess w s) (map next_event ev ++ [EvRun f v])
    | Err e => Q (Err (TfError e)) (set_sess w s) (map next_event ev)
    end) ->
  post (sess_run f t) w Q.
Proof.
  intros H. unfold sess_run. apply post_bind. apply post_lift.
  eapply post_conseq; [exact H|]. intros [v|e] s ev Hq; simpl in *; [|exact Hq].
  apply post_bind. apply post_emit. apply post_ret.
  rewrite app_nil_r. exact Hq.
Qed.

Lemma post_with_session {A} (body : M A) (w : world)
    (Q : result error A -> world -> list event -> Prop) :
  post body (set_sess w fresh_session)
    (fun r w' t => Q r w' (EvSession :: t ++ [EvClose])) ->
  post (with_session body) w Q.
Proof.
  unfold post, with_session.
  destruct (body (set_sess w fresh_session)) as [[r w'] t]; simpl; auto.
Qed.

(** ** The files of a checkpoint *)

Lemma read_checkpoint_exists path (d : gmap string file) p :
  read_checkpoint path d = Some p -> checkpoint_exists path d = true.
Proof.
  unfold read_checkpoint, checkpoint_exists.
  destruct (d !! index_name path) as [f|]; [|discriminate].
  intros _. reflexivity.
Qed.

Lemma read_checkpoint_empty path : read_checkpoint path (∅ : gmap string file) = None.
Proof. unfold read_checkpoint. rewrite lookup_empty. reflexivity. Qed.

Lemma saver_restore_eq path (w : world) :
  saver_restore path w =
  match read_checkpoint path (store w) with
  | Some p => (Ok tt, set_sess w (set_variables (sess w) p), [EvRestore path])
  | None => (Err (if checkpoint_exists path (store w)
                  then TfError RestoreFailed else ValueError), w, [EvRestore path])
  end.
Proof.
  unfold saver_restore.
  destruct (read_checkpoint path (store w)) as [p|] eqn:Hr.
  - rewrite (read_checkpoint_exists _ _ _ Hr). reflexivity.
  - destruct (checkpoint_exists path (store w)); reflexivity.
Qed.

Lemma checkpoint_names_distinct : NoDup (checkpoint_names save_path).
Proof.
  apply (bool_decide_unpack _). vm_compute. reflexivity.
Qed.

Lemma read_write_checkpoint p (d : gmap string file) :
  read_checkpoint save_path (write_checkpoint save_path p d) = Some p.
Proof.
  unfold read_checkpoint, write_checkpoint.
  rewrite (lookup_insert_ne _ state_name (index_name save_path)) by (vm_compute; discriminate).
  rewrite (lookup_insert_ne _ (meta_name save_path) (index_name save_path))
    by (vm_compute; discriminate).
  rewrite lookup_insert_eq.
  rewrite (lookup_insert_ne _ state_name (data_name save_path)) by (vm_compute; discriminate).
  rewrite (lookup_insert_ne _ (meta_name save_path) (data_name save_path))
    by (vm_compute; discriminate).
  rewrite (lookup_insert_ne _ (index_name save_path) (data_name save_path))
    by (vm_compute; discriminate).
  rewrite lookup_insert_eq. reflexivity.
Qed.

Lemma write_checkpoint_other p (d : gmap string file) k :
  k ∉ checkpoint_names save_path -> write_checkpoint save_path p d !! k = d !! k.
Proof.
  unfold checkpoint_names. rewrite !not_elem_of_cons. intros (H1 & H2 & H3 & H4 & _).
  unfold write_checkpoint. rewrite !lookup_insert_ne by congruence. reflexivity.
Qed.

Lemma write_checkpoint_nonempty p (d : gmap string file) :
  write_checkpoint save_path p d <> ∅.
Proof. unfold write_checkpoint. apply insert_non_empty. Qed.

Lemma write_checkpoint_twice p q (d : gmap string file) :
  write_checkpoint save_path p (write_checkpoint save_path q d) = write_checkpoint save_path p d.
Proof.
  apply map_eq. intros k.
  destruct (decide (k ∈ checkpoint_names save_path)) as [Hin|Hout].
  - unfold checkpoint_names in Hin. unfold write_checkpoint.
    rewrite !elem_of_cons, elem_of_nil in Hin.
    destruct (decide (k = state_name)) as [->|N1];
      [rewrite !lookup_insert_eq; reflexivity|].
    rewrite !(lookup_insert_ne _ state_name k) by congruence.
    destruct (decide (k = meta_name save_path)) as [->|N2];
      [rewrite !lookup_insert_eq; reflexivity|].
    rewrite !(lookup_insert_ne _ (meta_name save_path) k) by congruence.
    destruct (decide (k = index_name save_path)) as [->|N3];
      [rewrite !lookup_insert_eq; reflexivity|].
    rewrite !(lookup_insert_ne _ (index_name save_path) k) by congruence.
    destruct (decide (k = data_name save_path)) as [->|N4];
      [rewrite !lookup_insert_eq; reflexivity|].
    exfalso. tauto.
  - rewrite !write_checkpoint_other by exact Hout. reflexivity.
Qed.

(** ** The store is only written by [saver.save] *)

Lemma keeps_store_bind {A B} (m : M A) (k : A -> M B) :
  keeps_store m -> (forall a, keeps_store (k a)) -> keeps_store (bind m k).
Proof.
  intros Hm Hk w. apply post_bind.
  eapply post_conseq; [apply Hm|]. intros [a|e] w1 t1 H1; simpl; [|exact H1].
  eapply post_conseq; [apply Hk|]. simpl. intros _ w2 _ H2. congruence.
Qed.

Lemma keeps_store_for_acc {I A} (l : list I) (body : I -> A -> M A) (a : A) :
  (forall i a, keeps_store (body i a)) -> keeps_store (for_acc l body a).
Proof.
  intros Hbody. revert a. induction l as [|i l IH]; intros a; simpl.
  - intros w. apply post_ret. reflexivity.
  - apply keeps_store_bind; [apply Hbody | exact IH].
Qed.

(** A graph computation cannot reach the store. *)
Lemma keeps_store_sess_run (f : fetch) (t : TM scalar) : keeps_store (sess_run f t).
Proof.
  intros w. apply post_sess_run. unfold post.
  destruct (t (sess w)) as [[[a|e] s] ev]; reflexivity.
Qed.

Lemma keeps_store_restore_or_initialize : keeps_store restore_or_initialize.
Proof.
  intros w. unfold restore_or_initialize. apply post_bind. unfold post at 1. simpl.
  destruct (map fst (map_to_list (store w))) as [|n names].
  - reflexivity.
  - unfold post. rewrite saver_restore_eq.
    destruct (read_checkpoint save_path (store w)) as [p|]; reflexivity.
Qed.

Lemma keeps_store_with_session {A} (body : M A) :
  keeps_store body -> keeps_store (with_session body).
Proof.
  intros H w. apply post_with_session.
  eapply post_conseq; [apply H|]. simpl. auto.
Qed.

Lemma keeps_store_py_truediv (acc : pynum) (n : Z) :
  keeps_store (py_truediv (W := event) (S := world) acc n).
Proof.
  intros w. unfold py_truediv. destruct acc; [destruct (n =? 0)|]; reflexivity.
Qed.

Lemma get_accuracy_keeps_store it (t : TM scalar) n : keeps_store (get_accuracy it t n).
Proof.
  unfold get_accuracy. apply keeps_store_bind.
  - apply keeps_store_with_session. apply keeps_store_bind; [intros w; reflexivity|].
    intros _. apply keeps_store_bind; [apply keeps_store_restore_or_initialize|].
    intros _. apply keeps_store_for_acc. intros _ acc.
    apply keeps_store_bind; [apply keeps_store_sess_run|]. intros v w. reflexivity.
  - intros acc. apply keeps_store_py_truediv.
Qed.

(** C8. [get_accuracy], and with it [get_valid_accuracy], never writes to
    the checkpoint store: whatever the iterator, the accuracy tensor and
    the iteration count, and whether the call returns or raises, the
    directory holds after the call what it held before. *)
Theorem get_accuracy_no_store_write :
  (forall it (accuracy_tensor : TM scalar) (n : Z) (w : world) r w' t,
      get_accuracy it accuracy_tensor n w = (r, w', t) -> store w' = store w) /\
  (forall (iters : option Z) (w : world) r w' t,
      get_valid_accuracy iters w = (r, w', t) -> store w' = store w).
Proof.
  split.
  - intros it tensor n w r w' t Heq.
    exact (post_run _ _ _ _ _ _ (get_accuracy_keeps_store it tensor n w) Heq).
  - intros iters w r w' t Heq. unfold get_valid_accuracy in Heq.
    exact (post_run _ _ _ _ _ _ (get_accuracy_keeps_store _ _ _ w) Heq).
Qed.

(** ** Restore or initialise *)

Lemma listdir_nil (d : gmap string file) : map fst (map_to_list d) = [] <-> d = ∅.
Proof.
  rewrite <- map_to_list_empty_iff. destruct (map_to_list d); simpl; split; congruence.
Qed.

Lemma restore_or_initialize_spec (w : world) :
  post restore_or_initialize w (setup_outcome w).
Proof.
  unfold restore_or_initialize. apply post_bind. unfold post at 1. simpl.
  destruct (map fst (map_to_list (store w))) as [|n names] eqn:Hl.
  - apply listdir_nil in Hl. left. repeat split; assumption.
  - assert (Hne : store w <> ∅).
    { intros He. apply listdir_nil in He. congruence. }
    right. unfold post. rewrite saver_restore_eq.
    destruct (read_checkpoint save_path (store w)) as [p|] eqn:Hp; simpl.
    + split; [exact Hne|]. split; [reflexivity|]. left. exists p.
      repeat split.
    + split; [exact Hne|]. split; [reflexivity|]. right.
      repeat split.
Qed.

Lemma quiet_bind {A B} (m : M A) (k : A -> M B) :
  quiet m -> (forall a, quiet (k a)) -> quiet (bind m k).
Proof.
  intros Hm Hk w. apply post_bind.
  eapply post_conseq; [apply Hm|]. intros [a|e] w1 t1 H1; simpl; [|exact H1].
  eapply post_conseq; [apply Hk|]. simpl. intros _ w2 t2 H2.
  apply Forall_app; auto.
Qed.

Lemma quiet_for_acc {I A} (l : list I) (body : I -> A -> M A) (a : A) :
  (forall i a, quiet (body i a)) -> quiet (for_acc l body a).
Proof.
  intros Hbody. revert a. induction l as [|i l IH]; intros a; simpl.
  - intros w. apply post_ret. constructor.
  - apply quiet_bind; [apply Hbody | exact IH].
Qed.

Lemma no_setup_next (ev : list (iterator_id * nat)) : no_setup (map next_event ev).
Proof. apply Forall_forall. intros e He. apply list_elem_of_fmap in He.
  destruct He as (x & -> & _). reflexivity. Qed.

Lemma quiet_lift {A} (t : TM A) : quiet (lift t).
Proof.
  intros w. apply post_lift. unfold post.
  destruct (t (sess w)) as [[[a|e] s] ev]; simpl; apply no_setup_next.
Qed.

Lemma quiet_sess_run (f : fetch) (t : TM scalar) : quiet (sess_run f t).
Proof.
  intros w. apply post_sess_run. unfold post.
  destruct (t (sess w)) as [[[a|e] s] ev]; simpl.
  - apply Forall_app. split; [apply no_setup_next | repeat constructor].
  - apply no_setup_next.
Qed.

Lemma quiet_py_truediv (acc : pynum) (n : Z) :
  quiet (py_truediv (W := event) (S := world) acc n).
Proof.
  intros w. unfold py_truediv. destruct acc; [destruct (n =? 0)|]; constructor.
Qed.

Lemma quiet_sess_run_prediction rows : quiet (sess_run_prediction rows).
Proof.
  unfold sess_run_prediction. destruct (feed_fits rows).
  - apply quiet_bind; [apply quiet_lift|]. intros r.
    apply quiet_bind; intros w; repeat constructor.
  - intros w. constructor.
Qed.

Lemma setup_then_quiet {A} (k : M A) (w : world) :
  quiet k ->
  post (bind restore_or_initialize (fun _ => k)) w (fun r _ t =>
    exists X t', t = EvListdir :: X :: t' /\ no_setup t' /\
      (store w = ∅ -> X = EvGlobalInit) /\
      (store w <> ∅ -> X = EvRestore save_path) /\
      (store w <> ∅ -> read_checkpoint save_path (store w) = None ->
         r = Err (if checkpoint_exists save_path (store w)
                  then TfError RestoreFailed else ValueError))).
Proof.
  intros Hk. apply post_bind.
  eapply post_conseq; [apply restore_or_initialize_spec|].
  intros r w1 t1 [(He & Hr & Ht & Hw)|(Hne & Ht & [(p & Hp & Hr & Hw)|(Hp & Hr & Hw)])];
    subst r t1 w1.
  - eapply post_conseq; [apply Hk|]. simpl. intros r2 w2 t2 H2.
    exists EvGlobalInit, t2. repeat split; auto; intros; congruence.
  - eapply post_conseq; [apply Hk|]. simpl. intros r2 w2 t2 H2.
    exists (EvRestore save_path), t2. repeat split; auto; try congruence.
  - exists (EvRestore save_path), []. repeat split; auto; try congruence.
    constructor.
Qed.

Lemma get_accuracy_decides it (tensor : TM scalar) n (w : world) :
  post (get_accuracy it tensor n) w (fun r _ t => decides w [EvInitIter it] r t).
Proof.
  unfold get_accuracy. apply post_bind. apply post_with_session.
  apply post_bind. unfold post at 1. simpl.
  eapply post_conseq.
  { apply (setup_then_quiet
             (for_acc (range n)
                (fun _ acc => v <- sess_run FAccuracy tensor ;; ret (py_iadd acc v))
                (PyInt 0))).
    apply quiet_for_acc. intros _ acc. apply quiet_bind; [apply quiet_sess_run|].
    intros v w0. constructor. }
  simpl. intros r w1 t (X & t' & -> & Hq & H1 & H2 & H3).
  destruct r as [acc|e].
  - eapply post_conseq; [apply quiet_py_truediv|]. simpl. intros r2 _ t2 Hq2.
    exists X, (t' ++ [EvClose] ++ t2). split; [|split; [|split; [|split]]]; auto.
    + simpl. rewrite <- !app_assoc. reflexivity.
    + apply Forall_app. split; [exact Hq|]. constructor; [reflexivity | exact Hq2].
    + intros Hne Hno. discriminate (H3 Hne Hno).
  - exists X, (t' ++ [EvClose]). split; [|split; [|split; [|split]]]; auto.
    + apply Forall_app. split; [exact Hq | repeat constructor].
    + intros Hne Hno. pose proof (H3 Hne Hno) as He.
      injection He as ->. reflexivity.
Qed.

Lemma predict_prob_decides (img : ndarray) (w : world) :
  arr_dtype img = Float32 ->
  post (predict_prob img) w (fun r _ t => decides w [] r t).
Proof.
  intros Hd. unfold predict_prob. rewrite Hd. simpl. apply post_with_session.
  eapply post_conseq.
  { apply (setup_then_quiet
             (result <- sess_run_prediction (arr_rows img) ;;
              ret {| arr_dtype := Float32; arr_rows := result |})).
    apply quiet_bind; [apply quiet_sess_run_prediction|].
    intros v w0. constructor. }
  simpl. intros r w1 t (X & t' & -> & Hq & H1 & H2 & H3).
  exists X, (t' ++ [EvClose]). split; [|split; [|split; [|split]]]; auto.
  apply Forall_app. split; [exact Hq | repeat constructor].
Qed.

(** ** The precondition of [predict_prob] *)

Lemma dtype_eqb_eq (a b : dtype) : dtype_eqb a b = true <-> a = b.
Proof. destruct a, b; simpl; split; congruence. Qed.

(** Past its assertion, [predict_prob] enters a session, and no later step
    raises an assertion failure. *)
Lemma predict_prob_float32 (img : ndarray) (w : world) :
  arr_dtype img = Float32 ->
  exists r w' t', predict_prob img w = (r, w', EvSession :: t') /\
                  r <> Err AssertionError.
Proof.
  intros Hd. unfold predict_prob. rewrite Hd. simpl.
  unfold with_session, restore_or_initialize, bind, listdir.
  destruct (map fst (map_to_list (store (set_sess w fresh_session)))) as [|n names].
  - unfold global_variables_initializer, sess_run_prediction.
    destruct (feed_fits (arr_rows img)); simpl.
    + do 3 eexists. split; [reflexivity | discriminate].
    + do 3 eexists. split; [reflexivity | discriminate].
  - rewrite saver_restore_eq. simpl.
    destruct (read_checkpoint save_path (store w)) as [p|]; simpl.
    + unfold sess_run_prediction. destruct (feed_fits (arr_rows img)); simpl.
      * do 3 eexists. split; [reflexivity | discriminate].
      * do 3 eexists. split; [reflexivity | discriminate].
    + destruct (checkpoint_exists save_path (store w));
        do 3 eexists; (split; [reflexivity | discriminate]).
Qed.

(** C4. [predict_prob] raises at once, by its assertion, when the element
    type of the input array is not 32-bit float: no session is opened, the
    directory is not listed, no call is made and the state is left as it
    was.  When the element type is 32-bit float the assertion passes: the
    call goes on to open a session, and whatever it ends with is not an
    assertion failure. *)
Theorem predict_prob_dtype_assertion :
  forall (img : ndarray) (w : world),
    (arr_dtype img <> Float32 ->
       predict_prob img w = (Err AssertionError, w, [])) /\
    (arr_dtype img = Float32 ->
       exists r w' t', predict_prob img w = (r, w', EvSession :: t') /\
                       r <> Err AssertionError).
Proof.
  intros img w. split.
  - intros Hd. unfold predict_prob.
    destruct (dtype_eqb (arr_dtype img) Float32) eqn:E; [|reflexivity].
    apply dtype_eqb_eq in E. contradiction.
  - apply predict_prob_float32.
Qed.

(** ** [argmax] and [predict] *)

Lemma Qle_bool_false (a b : Q) : Qle_bool a b = false -> (b < a)%Q.
Proof.
  intros H. apply Qlt_bool_iff. unfold Qlt_bool. rewrite H. reflexivity.
Qed.

Lemma sle_not_nan_l (x y : scalar) : sle x y = true -> is_nan x = false.
Proof. destruct x as [|[]|a]; simpl; congruence. Qed.

Lemma sle_refl (x : scalar) : is_nan x = false -> sle x x = true.
Proof.
  destruct x as [|[]|a]; simpl; try congruence.
  intros _. apply Qle_bool_iff. apply Qle_refl.
Qed.

(** Below the old maximum, hence strictly below an element that is not. *)
Lemma slt_new_max (y mp x : scalar) :
  sle y mp = true -> sle x mp = false -> is_nan x = false -> slt y x = true.
Proof.
  destruct y as [|[]|a], mp as [|[]|b], x as [|[]|c]; simpl;
    try congruence; try reflexivity.
  intros H1 H2 _. apply Qle_bool_iff in H1. apply Qle_bool_false in H2.
  apply Qlt_bool_iff. eapply Qle_lt_trans; eassumption.
Qed.

Lemma argmax_scan_spec (l pre : list scalar) (mp : scalar) (max_ind : nat) :
  pre !! max_ind = Some mp ->
  (forall k y, pre !! k = Some y -> sle y mp = true) ->
  (forall k y, (k < max_ind)%nat -> pre !! k = Some y -> slt y mp = true) ->
  is_first_max (pre ++ l) (argmax_scan mp max_ind (length pre) l).
Proof.
  revert pre mp max_ind. induction l as [|x l IH]; intros pre mp max_ind Hm Hle Hlt.
  - simpl. rewrite app_nil_r. exists mp. split; [exact Hm|]. split.
    + intros k y _ Hk. eapply sle_not_nan_l. eapply Hle; eassumption.
    + right. split; assumption.
  - simpl. destruct (sle x mp) eqn:Hx.
    + replace (pre ++ x :: l) with ((pre ++ [x]) ++ l) by (rewrite <- app_assoc; reflexivity).
      replace (S (length pre)) with (length (pre ++ [x])) by (rewrite length_app; simpl; lia).
      apply IH.
      * apply lookup_app_l_Some. exact Hm.
      * intros k y Hk. apply lookup_app_Some in Hk.
        destruct Hk as [Hk|[_ Hk]]; [eapply Hle; eassumption|].
        destruct (k - length pre)%nat; simpl in Hk; [|discriminate].
        congruence.
      * intros k y Hlt' Hk. apply lookup_app_Some in Hk.
        destruct Hk as [Hk|[Hge _]]; [eapply Hlt; eassumption|].
        apply lookup_lt_Some in Hm. lia.
    + destruct (is_nan x) eqn:Hn.
      * exists x. split.
        { rewrite lookup_app_r by lia. rewrite Nat.sub_diag. reflexivity. }
        split; [|left; exact Hn].
        intros k y Hk Hy. rewrite lookup_app_l in Hy by exact Hk.
        eapply sle_not_nan_l. eapply Hle; eassumption.
      * replace (pre ++ x :: l) with ((pre ++ [x]) ++ l) by (rewrite <- app_assoc; reflexivity).
        replace (S (length pre)) with (length (pre ++ [x])) by (rewrite length_app; simpl; lia).
        apply IH.
        { rewrite lookup_app_r by lia. rewrite Nat.sub_diag. reflexivity. }
        { intros k y Hk. apply lookup_app_Some in Hk.
          destruct Hk as [Hk|[_ Hk]].
          - apply slt_sle. eapply slt_new_max; [eapply Hle; eassumption | exact Hx | exact Hn].
          - destruct (k - length pre)%nat; simpl in Hk; [|discriminate].
            injection Hk as <-. apply sle_refl. exact Hn. }
        { intros k y Hk Hy. rewrite lookup_app_l in Hy by exact Hk.
          eapply slt_new_max; [eapply Hle; eassumption | exact Hx | exact Hn]. }
Qed.

(** The index [argmax] returns is the one NumPy designates. *)
Lemma argmax_spec (row : list scalar) (j : nat) :
  argmax row = Some j -> is_first_max row j.
Proof.
  destruct row as [|x l]; simpl; [discriminate|].
  intros H. injection H as <-. destruct (is_nan x) eqn:Hn.
  - exists x. split; [reflexivity|]. split; [intros; lia | left; exact Hn].
  - apply (argmax_scan_spec l [x] x 0%nat).
    + reflexivity.
    + intros [|k] y Hk; simpl in Hk; [|discriminate].
      injection Hk as <-. apply sle_refl. exact Hn.
    + intros; lia.
Qed.

Lemma argmax_lt (row : list scalar) (j : nat) :
  argmax row = Some j -> (j < length row)%nat.
Proof.
  intros H. apply argmax_spec in H. destruct H as (x & Hx & _).
  eapply lookup_lt_Some. exact Hx.
Qed.

Lemma map_opt_lookup {A B} (f : A -> option B) (l : list A) (ys : list B) :
  map_opt f l = Some ys ->
  length ys = length l /\
  forall i x, l !! i = Some x -> exists y, f x = Some y /\ ys !! i = Some y.
Proof.
  revert ys. induction l as [|a l IH]; intros ys H; simpl in H.
  - injection H as <-. split; [reflexivity|]. intros i x Hx. discriminate.
  - destruct (f a) as [y|] eqn:Hf; [|discriminate].
    destruct (map_opt f l) as [ys'|]; [|discriminate].
    injection H as <-. destruct (IH ys' eq_refl) as [Hlen Hall].
    split; [simpl; congruence|].
    intros [|i] x Hx; simpl in *.
    + injection Hx as <-. eauto.
    + apply Hall. exact Hx.
Qed.

Lemma map_opt_total {A B} (f : A -> option B) (l : list A) :
  Forall (fun x => f x <> None) l -> exists ys, map_opt f l = Some ys.
Proof.
  induction 1 as [|a l Ha _ IH]; simpl.
  - eauto.
  - destruct (f a) as [y|]; [|congruence]. destruct IH as [ys ->]. eauto.
Qed.

Lemma astype_int32_small (z : Z) : 0 <= z < 2 ^ 31 -> astype_int32 z = z.
Proof.
  intros H. unfold astype_int32. rewrite Z.mod_small; lia.
Qed.

Lemma map_opt_argmax_none (rows : list (list scalar)) :
  Exists (fun row => row = []) rows -> map_opt argmax rows = None.
Proof.
  induction 1 as [row rows ->|row rows _ IH]; simpl; [reflexivity|].
  rewrite IH. destruct (argmax row); reflexivity.
Qed.

(** C3. [predict] is the row-wise [argmax] of [predict_prob], cast to
    32-bit integers.  On every input, [predict] makes the very call
    [predict_prob] makes (same state, same events) and raises what it
    raises.  When [predict_prob] returns the probabilities [probs],
    [predict] returns one class id per row: the id of row [i] is the index
    [argmax] designates in row [i] of [probs] (the first maximum), cast to
    a 32-bit integer, a cast that changes nothing for rows of fewer than
    2^31 entries.  A row without entries has no [argmax]: [predict]
    raises. *)
Theorem predict_argmax_of_predict_prob :
  forall (img : ndarray) (w : world),
    (forall e w' t, predict_prob img w = (Err e, w', t) ->
       predict img w = (Err e, w', t)) /\
    (forall probs w' t, predict_prob img w = (Ok probs, w', t) ->
       (Forall (fun row => row <> []) (arr_rows probs) ->
        exists preds,
          predict img w = (Ok preds, w', t) /\
          length preds = length (arr_rows probs) /\
          forall i row, arr_rows probs !! i = Some row ->
            exists j, argmax row = Some j /\ is_first_max row j /\
              preds !! i = Some (astype_int32 (Z.of_nat j)) /\
              (Z.of_nat (length row) <= 2 ^ 31 -> preds !! i = Some (Z.of_nat j))) /\
       (Exists (fun row => row = []) (arr_rows probs) ->
        predict img w = (Err ValueError, w', t))).
Proof.
  intros img w. split.
  - intros e w' t Heq. unfold predict, bind. rewrite Heq. reflexivity.
  - intros probs w' t Heq. split.
    + intros Hrows.
      destruct (map_opt_total argmax (arr_rows probs)) as [idx Hidx].
      { eapply Forall_impl; [exact Hrows|]. intros [|x l] Hne; simpl; congruence. }
      exists (map astype_int32 (map Z.of_nat idx)).
      destruct (map_opt_lookup _ _ _ Hidx) as [Hlen Hall].
      split; [|split].
      * unfold predict, bind, argmax_axis1. rewrite Heq, Hidx. simpl.
        rewrite app_nil_r. reflexivity.
      * rewrite !length_map. exact Hlen.
      * intros i row Hrow. destruct (Hall i row Hrow) as (j & Hj & Hi).
        exists j. split; [exact Hj|]. split; [apply argmax_spec; exact Hj|].
        assert (Hp : map astype_int32 (map Z.of_nat idx) !! i
                     = Some (astype_int32 (Z.of_nat j))).
        { rewrite !list_lookup_fmap. rewrite Hi. reflexivity. }
        split; [exact Hp|]. intros Hsmall. rewrite Hp. f_equal.
        apply astype_int32_small. apply argmax_lt in Hj. lia.
    + intros Hex. unfold predict, bind, argmax_axis1.
      rewrite Heq, (map_opt_argmax_none _ Hex). simpl.
      rewrite app_nil_r. reflexivity.
Qed.

(** ** The division of [get_accuracy] *)

Lemma tf_only_bind {A B} (m : M A) (k : A -> M B) :
  tf_only m -> (forall a, tf_only (k a)) -> tf_only (bind m k).
Proof.
  intros Hm Hk w. apply post_bind.
  eapply post_conseq; [apply Hm|]. intros [a|e] w1 t1 H1; simpl.
  - eapply post_conseq; [apply Hk|]. simpl. auto.
  - intros e0 He. injection He as <-. apply H1. reflexivity.
Qed.

Lemma tf_only_for_acc {I A} (l : list I) (body : I -> A -> M A) (a : A) :
  (forall i a, tf_only (body i a)) -> tf_only (for_acc l body a).
Proof.
  intros Hbody. revert a. induction l as [|i l IH]; intros a; simpl.
  - intros w. apply post_ret. discriminate.
  - apply tf_only_bind; [apply Hbody | exact IH].
Qed.

Lemma tf_only_sess_run (f : fetch) (t : TM scalar) : tf_only (sess_run f t).
Proof.
  intros w. apply post_sess_run. unfold post.
  destruct (t (sess w)) as [[[a|e] s] ev]; simpl; intros e0 He; [discriminate|].
  injection He as <-. eauto.
Qed.

Lemma tf_only_restore_or_initialize : tf_only restore_or_initialize.
Proof.
  intros w. eapply post_conseq; [apply restore_or_initialize_spec|].
  intros r w' t [(_ & -> & _)|(_ & _ & [(p & _ & -> & _)|(_ & _ & ->)])] e He;
    try discriminate.
  injection He as <-. destruct (checkpoint_exists save_path (store w)); eauto.
Qed.

Lemma tf_only_with_session {A} (body : M A) : tf_only body -> tf_only (with_session body).
Proof.
  intros H w. apply post_with_session.
  eapply post_conseq; [apply H|]. simpl. auto.
Qed.

Lemma get_accuracy_session_tf_only it (tensor : TM scalar) (n : Z) :
  tf_only (with_session (
    sess_run_initializer it ;;
    restore_or_initialize ;;
    for_acc (range n)
      (fun _ acc => v <- sess_run FAccuracy tensor ;; ret (py_iadd acc v))
      (PyInt 0))).
Proof.
  apply tf_only_with_session. apply tf_only_bind; [intros w; discriminate|].
  intros _. apply tf_only_bind; [apply tf_only_restore_or_initialize|].
  intros _. apply tf_only_for_acc. intros _ acc.
  apply tf_only_bind; [apply tf_only_sess_run|]. intros v w. discriminate.
Qed.

Lemma get_accuracy_positive it (tensor : TM scalar) (n : Z) (w : world) :
  1 <= n ->
  post (get_accuracy it tensor n) w (fun r _ _ => r <> Err ZeroDivisionError).
Proof.
  intros Hn. unfold get_accuracy. apply post_bind.
  eapply post_conseq; [apply get_accuracy_session_tf_only|].
  intros [acc|e] w1 t1 H; simpl.
  - unfold py_truediv. destruct acc as [z|x].
    + destruct (n =? 0) eqn:E; [lia|]. discriminate.
    + discriminate.
  - intros He. destruct (H e eq_refl) as [->|[e' ->]]; discriminate.
Qed.

Lemma get_accuracy_zero it (tensor : TM scalar) (w : world) :
  post (get_accuracy it tensor 0) w (fun r _ _ =>
    (exists e, r = Err e) /\
    ((store w = ∅ \/ exists p, read_checkpoint save_path (store w) = Some p) ->
     r = Err ZeroDivisionError)).
Proof.
  unfold get_accuracy. apply post_bind. apply post_with_session.
  apply post_bind. unfold post at 1. simpl.
  apply post_bind. eapply post_conseq; [apply restore_or_initialize_spec|].
  simpl.
  intros r w1 t1 [(He & -> & _)|(Hne & _ & [(p & Hp & -> & _)|(Hp & _ & ->)])].
  - unfold post. simpl. split; eauto.
  - unfold post. simpl. split; eauto.
  - split; [eauto|]. intros [He|[p Hp']]; [contradiction|].
    simpl in Hp. congruence.
Qed.

(** C5. [get_accuracy] with the iteration count 0 never returns: it ends
    with an exception, and whenever the session is set up (the directory
    is empty, or holds a snapshot to restore) that exception is the
    division by zero of [acc / iterations], which nothing guards.  For
    every count [n >= 1] the division is defined: the call never ends with
    a division by zero.  [get_valid_accuracy] called without a count uses
    50. *)
Theorem get_accuracy_zero_division :
  (forall it (accuracy_tensor : TM scalar) (w : world) r w' t,
      get_accuracy it accuracy_tensor 0 w = (r, w', t) ->
      (exists e, r = Err e) /\
      ((store w = ∅ \/ exists p, read_checkpoint save_path (store w) = Some p) ->
       r = Err ZeroDivisionError)) /\
  (forall it (accuracy_tensor : TM scalar) (n : Z) (w : world) r w' t,
      1 <= n ->
      get_accuracy it accuracy_tensor n w = (r, w', t) ->
      r <> Err ZeroDivisionError) /\
  get_valid_accuracy None = get_accuracy Valid valid_accuracy 50 /\
  (forall n, get_valid_accuracy (Some n) = get_accuracy Valid valid_accuracy n).
Proof.
  split; [|split; [|split]].
  - intros it tensor w r w' t Heq.
    exact (post_run _ _ _ _ _ _ (get_accuracy_zero it tensor w) Heq).
  - intros it tensor n w r w' t Hn Heq.
    exact (post_run _ _ _ _ _ _ (get_accuracy_positive it tensor n w Hn) Heq).
  - reflexivity.
  - reflexivity.
Qed.

(** ** Float32 rounding *)

(** *** Rounding to an integer *)




(** *** Powers of two *)






(** *** The binary logarithm *)



(** *** Rounding to the format *)





Lemma round_float_zero (prec emax : Z) (q : Q) :
  (q == 0)%Q -> round_float prec emax q = SNum 0.
Proof.
  intros H. unfold round_float. apply Qeq_bool_iff in H. rewrite H. reflexivity.
Qed.









(** *** The rounding error *)



(** *** Sums and means of values in the unit interval *)






(** ** The mean [get_accuracy] returns *)

Lemma accuracies_app (t1 t2 : list event) :
  accuracies (t1 ++ t2) = accuracies t1 ++ accuracies t2.
Proof. unfold accuracies. apply flat_map_app. Qed.

Lemma accuracies_next (ev : list (iterator_id * nat)) :
  accuracies (map next_event ev) = [].
Proof. induction ev as [|x ev IH]; simpl; [reflexivity | exact IH]. Qed.

(** The loop of [get_accuracy] adds up what its runs of the tensor return,
    one run per iteration. *)
Lemma accuracy_loop {J} (tensor : TM scalar) (l : list J) (acc : pynum) (w : world) :
  post (for_acc l
          (fun _ acc => v <- sess_run FAccuracy tensor ;; ret (py_iadd acc v)) acc) w
    (fun r _ t =>
       match r with
       | Ok acc' => acc' = fold_left py_iadd (accuracies t) acc /\
                    length (accuracies t) = length l
       | Err _ => True
       end).
Proof.
  revert acc w. induction l as [|i l IH]; intros acc w; simpl.
  - apply post_ret. split; reflexivity.
  - apply post_bind. apply post_bind. apply post_sess_run. unfold post at 1.
    destruct (tensor (sess w)) as [[[v|e] s] ev]; simpl; [|exact I].
    apply post_ret. eapply post_conseq; [apply IH|].
    intros [acc'|e] w' t H; simpl; [|exact I].
    destruct H as [-> Hlen].
    rewrite app_nil_r, !accuracies_app, accuracies_next. simpl.
    split; [reflexivity | congruence].
Qed.












(** ** The tracker of [fit] *)

Lemma tracked_app path b t1 b1 t2 b2 :
  tracked path b t1 b1 -> tracked path b1 t2 b2 -> tracked path b (t1 ++ t2) b2.
Proof.
  induction 1; intros H2; simpl.
  - exact H2.
  - apply tracked_other; auto.
  - apply tracked_keep; auto.
  - apply tracked_improve; auto.
Qed.

Lemma tracked_next path b (ev : list (iterator_id * nat)) t b' :
  tracked path b t b' -> tracked path b (map next_event ev ++ t) b'.
Proof.
  intros H. induction ev as [|x ev IH]; simpl; [exact H|].
  apply tracked_other; [reflexivity | exact IH].
Qed.

Lemma tracked_sorted path b t b' :
  tracked path b t b' ->
  StronglySorted (fun x y => slt y x = true) (b :: assigned t).
Proof.
  induction 1 as [b|b e t b' He _ IH|b v t b' Hv _ IH|b v t b' Hv _ IH].
  - repeat constructor.
  - destruct e; try discriminate He; exact IH.
  - exact IH.
  - simpl. constructor; [exact IH|].
    constructor; [exact Hv|].
    apply StronglySorted_inv in IH. destruct IH as [_ IH].
    eapply Forall_impl; [exact IH|]. simpl. intros x Hx.
    eapply slt_trans; eassumption.
Qed.

Lemma losses_other (e : event) (t : list event) :
  is_checkpoint_event e = false -> losses (e :: t) = losses t.
Proof.
  destruct e; try discriminate; try reflexivity.
  destruct f; try discriminate; reflexivity.
Qed.

(** The tracker ends at or below where it started, and no loss seen on
    the way is strictly below it. *)
Lemma tracked_lower_bound path b t b' :
  tracked path b t b' ->
  (b' = b \/ slt b' b = true) /\
  forall v, In v (losses t) -> slt v b' = false.
Proof.
  induction 1 as [b|b e t b' He _ IH|b v t b' Hv _ IH|b v t b' Hv _ IH].
  - split; [left; reflexivity | intros v []].
  - rewrite losses_other by exact He. exact IH.
  - destruct IH as [Hb Hl]. split; [exact Hb|].
    intros v' [<-|Hin]; [|apply Hl; exact Hin].
    destruct Hb as [->|Hb]; [exact Hv|].
    eapply slt_false_below; eassumption.
  - destruct IH as [Hb Hl].
    assert (Hvb : slt v b' = false).
    { destruct Hb as [->|Hb]; [apply slt_irrefl|].
      eapply slt_false_below; [exact Hb | apply slt_irrefl]. }
    split.
    + right. destruct Hb as [->|Hb]; [exact Hv|]. eapply slt_trans; eassumption.
    + intros v' [<-|Hin]; [exact Hvb | apply Hl; exact Hin].
Qed.

(** The tracker is the value it started with or one of the losses seen. *)
Lemma tracked_attained path b t b' :
  tracked path b t b' -> b' = b \/ In b' (losses t).
Proof.
  induction 1 as [b|b e t b' He _ IH|b v t b' Hv _ IH|b v t b' Hv _ IH].
  - left; reflexivity.
  - rewrite losses_other by exact He. exact IH.
  - destruct IH as [->|Hin]; [left; reflexivity | right; right; exact Hin].
  - right. destruct IH as [->|Hin]; [left; reflexivity | right; exact Hin].
Qed.

Lemma next_batch_variables (it : iterator_id) (s : session) :
  post (next_batch it) s (fun _ s' _ => variables s' = variables s).
Proof.
  unfold next_batch, post, bind, get_next, reshape_images, reshape_labels.
  destruct (pos it s) as [i|]; simpl; [|reflexivity].
  destruct (records it i) as [b|]; simpl; [|reflexivity].
  destruct (length (concat (images b)) =? batch_size cfg * flat_size)%nat; simpl;
    [|destruct it; reflexivity].
  destruct (length (labels b) =? batch_size cfg)%nat; simpl; destruct it; reflexivity.
Qed.

(** A run of the update leaves the variables assigned. *)
Lemma update_assigns (s : session) :
  post update_weights_train_loss s (fun r s' _ =>
    match r with Ok _ => variables s' <> None | Err _ => True end).
Proof.
  unfold update_weights_train_loss. apply post_bind.
  eapply post_conseq; [apply next_batch_variables|].
  intros [b|e] s1 t1 _; simpl; [|exact I].
  unfold post, bind, read_variables, assign_variables.
  destruct (variables s1) as [p|]; simpl; [discriminate | exact I].
Qed.

(** A run of a loss leaves the variables as they are. *)
Lemma loss_keeps_variables (it : iterator_id) (s : session) :
  post (b <- next_batch it ;; p <- read_variables ;; ret (loss p (fst b) (snd b))) s
    (fun _ s' _ => variables s' = variables s).
Proof.
  apply post_bind.
  eapply post_conseq; [apply next_batch_variables|].
  intros [b|e] s1 t1 H; simpl; [|exact H].
  unfold post, bind, read_variables.
  destruct (variables s1) as [p|] eqn:E; simpl; congruence.
Qed.

(** One step of the inner loop: the tracker moves as [tracked] says. *)
Lemma fit_step_tracked verbose epoch step (locals : scalar * scalar) (w : world) :
  post (fit_step verbose epoch step locals) w (fun r _ t =>
    exists b', tracked save_path (snd locals) t b' /\
      match r with Ok locals' => snd locals' = b' | Err _ => True end).
Proof.
  destruct locals as [sl b]. unfold fit_step. simpl snd.
  apply post_bind. apply post_sess_run.
  eapply post_conseq; [apply update_assigns|].
  intros [l|e] s1 ev1 Hvars; simpl.
  2:{ exists b. split; [|exact I]. rewrite <- (app_nil_r (map next_event ev1)).
      apply tracked_next. constructor. }
  assert (Hpre : forall t b', tracked save_path b t b' ->
            tracked save_path b ((map next_event ev1 ++ [EvRun FUpdateTrainLoss l]) ++ t) b').
  { intros t b' H. rewrite <- app_assoc. apply tracked_next. simpl.
    apply tracked_other; [reflexivity | exact H]. }
  apply post_bind. unfold py_mod. destruct (show_step =? 0).
  { apply post_raise. exists b. split; [|exact I].
    apply Hpre. constructor. }
  apply post_ret. destruct (step mod show_step =? 0).
  2:{ apply post_ret. exists b. split; [|reflexivity]. apply Hpre. constructor. }
  apply post_bind.
  assert (Hprint : forall t b', tracked save_path b t b' ->
            forall p : list event,
              (p = [] \/ p = [EvPrint (epoch + 1) (step + 1) l b]) ->
              tracked save_path b
                ((map next_event ev1 ++ [EvRun FUpdateTrainLoss l]) ++ [] ++ p ++ t) b').
  { intros t b' H p [->| ->]; apply Hpre; simpl; [exact H|].
    apply tracked_other; [reflexivity | exact H]. }
  assert (Hgoal : forall p : list event,
            (p = [] \/ p = [EvPrint (epoch + 1) (step + 1) l b]) ->
            post (valid_loss <- sess_run FValidLoss tf_valid_loss ;;
                  (if slt valid_loss b
                   then saver_save save_path ;; emit (EvBest valid_loss) ;; ret (l, valid_loss)
                   else ret (l, b)))
              (set_sess w s1)
              (fun r _ t2 =>
                 exists b', tracked save_path b
                   ((map next_event ev1 ++ [EvRun FUpdateTrainLoss l]) ++ [] ++ p ++ t2) b' /\
                   match r with Ok locals' => snd locals' = b' | Err _ => True end)).
  { intros p Hp. apply post_bind. apply post_sess_run.
    eapply post_conseq; [apply (loss_keeps_variables Valid)|].
    intros [v|e] s2 ev2 Hs2; simpl.
    2:{ exists b. split; [|exact I]. apply Hprint; [|exact Hp].
        rewrite <- (app_nil_r (map next_event ev2)). apply tracked_next. constructor. }
    destruct (slt v b) eqn:Hv.
    - unfold post, bind, saver_save, emit, ret. simpl.
      destruct (variables s2) as [p2|] eqn:Hp2.
      2:{ exfalso. apply Hvars. simpl in Hs2. congruence. }
      simpl.
      exists v. split; [|reflexivity]. apply Hprint; [|exact Hp].
      rewrite <- app_assoc. apply tracked_next. simpl.
      apply tracked_improve; [exact Hv | constructor].
    - apply post_ret. exists b. split; [|reflexivity]. apply Hprint; [|exact Hp].
      rewrite <- !app_assoc. apply tracked_next. simpl.
      apply tracked_keep; [exact Hv | constructor]. }
  destruct verbose.
  - apply post_emit. eapply post_conseq; [apply (Hgoal [EvPrint (epoch + 1) (step + 1) l b]); auto|].
    simpl. intros r w' t H. exact H.
  - apply post_ret. eapply post_conseq; [apply (Hgoal []); auto|].
    simpl. intros r w' t H. exact H.
Qed.

Lemma tracked_loop {J} (body : J -> scalar * scalar -> M (scalar * scalar)) (l : list J) :
  (forall i a w, post (body i a) w (fun r _ t => tracks (snd a) r t)) ->
  forall a w, post (for_acc l body a) w (fun r _ t => tracks (snd a) r t).
Proof.
  intros Hbody. induction l as [|i l IH]; intros a w; simpl.
  - apply post_ret. exists (snd a). split; [constructor | reflexivity].
  - apply post_bind. eapply post_conseq; [apply Hbody|].
    intros [a1|e] w1 t1 (b1 & H1 & Hr1); simpl.
    + subst b1. eapply post_conseq; [apply IH|].
      simpl. intros r w2 t2 (b2 & H2 & Hr2).
      exists b2. split; [eapply tracked_app; eassumption | exact Hr2].
    + exists b1. split; [exact H1 | exact I].
Qed.

Lemma fit_loops_tracked verbose (locals : scalar * scalar) (w : world) :
  post (fit_loops verbose locals) w (fun r _ t => tracks (snd locals) r t).
Proof.
  unfold fit_loops. apply tracked_loop. intros epoch a w0.
  apply tracked_loop. intros step a0 w1. apply fit_step_tracked.
Qed.

Lemma fit_tracked verbose (w : world) :
  post (fit verbose) w (fun _ _ t =>
    exists t' b', t = EvBest inf :: t' /\ tracked save_path inf t' b').
Proof.
  unfold fit. apply post_bind. apply post_emit. apply post_with_session.
  apply post_bind. unfold post at 1. simpl.
  apply post_bind. unfold post at 1. simpl.
  apply post_bind. unfold post at 1. simpl.
  apply post_bind. apply post_sess_run. unfold post at 1.
  match goal with |- context [tf_train_loss ?s] =>
    destruct (tf_train_loss s) as [[[l|e] s1] ev] end; simpl.
  - apply post_bind. eapply post_conseq; [apply fit_loops_tracked|].
    intros r w1 t1 (b' & Htr & _). simpl in Htr.
    assert (Hshape : forall t2 : list event, t2 = [] ->
              exists t' b'0,
                EvBest inf :: EvSession :: EvInitIter Train :: EvInitIter Valid
                  :: EvGlobalInit
                  :: ((map next_event ev ++ [EvRun FTrainLoss l]) ++ t1 ++ t2) ++ [EvClose]
                = EvBest inf :: t' /\ tracked save_path inf t' b'0).
    { intros t2 ->. eexists _, b'. split; [reflexivity|].
      do 4 (apply tracked_other; [reflexivity|]).
      rewrite app_nil_r, <- !app_assoc. apply tracked_next. simpl.
      apply tracked_other; [reflexivity|].
      eapply tracked_app; [exact Htr|].
      apply tracked_other; [reflexivity | constructor]. }
    destruct r as [locals'|e]; simpl.
    + apply post_ret. apply Hshape. reflexivity.
    + rewrite <- (app_nil_r t1). apply Hshape. reflexivity.
  - eexists _, inf. split; [reflexivity|].
    do 4 (apply tracked_other; [reflexivity|]).
    rewrite <- ?app_assoc. apply tracked_next. simpl.
    apply tracked_other; [reflexivity | constructor].
Qed.

(** ** Snapshots in the store *)

Lemma records_saves_bind {A B} (m : M A) (k : A -> M B) :
  records_saves m -> (forall a, records_saves (k a)) -> records_saves (bind m k).
Proof.
  intros Hm Hk w. apply post_bind.
  eapply post_conseq; [apply Hm|]. intros [a|e] w1 t1 [H1 H1']; simpl; [|auto].
  eapply post_conseq; [apply Hk|]. simpl. intros _ w2 t2 [H2 H2']. split.
  - auto.
  - intros Hs. apply Exists_app in Hs. destruct Hs as [Hs|Hs]; auto.
Qed.

Lemma records_saves_for_acc {J A} (l : list J) (body : J -> A -> M A) (a : A) :
  (forall i a, records_saves (body i a)) -> records_saves (for_acc l body a).
Proof.
  intros Hbody. revert a. induction l as [|i l IH]; intros a; simpl.
  - intros w. apply post_ret. split; [auto|]. intros H. inversion H.
  - apply records_saves_bind; [apply Hbody | exact IH].
Qed.

Lemma not_saves_next (ev : list (iterator_id * nat)) : ~ saves (map next_event ev).
Proof.
  intros H. apply Exists_exists in H. destruct H as (e & He & Hs).
  apply list_elem_of_fmap in He. destruct He as (x & -> & _). discriminate.
Qed.

(** Events that are not saves, on a state whose store did not change. *)
Lemma records_saves_frame {A} (m : M A) :
  (forall w, post m w (fun _ w' t => store w' = store w /\ ~ saves t)) ->
  records_saves m.
Proof.
  intros H w. eapply post_conseq; [apply H|]. simpl.
  intros _ w' t [Hs Hn]. unfold has_snapshot. rewrite Hs. split; [auto | contradiction].
Qed.

Lemma records_saves_sess_run (f : fetch) (t : TM scalar) : records_saves (sess_run f t).
Proof.
  apply records_saves_frame. intros w. apply post_sess_run. unfold post.
  destruct (t (sess w)) as [[[v|e] s] ev]; simpl; (split; [reflexivity|]).
  - intros H. apply Exists_app in H. destruct H as [H|H].
    + exact (not_saves_next _ H).
    + inversion H as [? ? Hs|? ? Hs]; [discriminate | inversion Hs].
  - apply not_saves_next.
Qed.

Lemma records_saves_one {A} (r : result error A) (e : event) (f : world -> world) :
  is_save e = false -> (forall w, store (f w) = store w) ->
  records_saves (fun w => (r, f w, [e])).
Proof.
  intros He Hf. apply records_saves_frame. intros w. unfold post. simpl.
  split; [apply Hf|]. intros H.
  inversion H as [? ? Hs|? ? Hs]; [congruence | inversion Hs].
Qed.

Lemma records_saves_none {A} (r : result error A) :
  records_saves (fun w => (r, w, [])).
Proof.
  apply records_saves_frame. intros w. unfold post. simpl.
  split; [reflexivity|]. intros H. inversion H.
Qed.

Lemma records_saves_saver_save : records_saves (saver_save save_path).
Proof.
  intros w. unfold post, saver_save.
  destruct (variables (sess w)) as [p|]; simpl.
  - assert (Hs : has_snapshot (set_store w (write_checkpoint save_path p (store w)))).
    { exists p. simpl. apply read_write_checkpoint. }
    split; intros _; exact Hs.
  - split; [auto|]. intros H. inversion H.
Qed.

Lemma records_saves_with_session {A} (body : M A) :
  records_saves body -> records_saves (with_session body).
Proof.
  intros H w. apply post_with_session.
  eapply post_conseq; [apply H|]. simpl. intros _ w' t [H1 H2]. split; [exact H1|].
  intros Hs. inversion Hs as [? ? Hs'|? ? Hs']; [discriminate|].
  apply Exists_app in Hs'. destruct Hs' as [Hs'|Hs']; [auto|].
  inversion Hs' as [? ? Hs''|? ? Hs'']; [discriminate | inversion Hs''].
Qed.

Lemma records_saves_fit_step verbose epoch step locals :
  records_saves (fit_step verbose epoch step locals).
Proof.
  unfold fit_step. apply records_saves_bind; [apply records_saves_sess_run|].
  intros l. apply records_saves_bind.
  { unfold py_mod. destruct (show_step =? 0); apply records_saves_none. }
  intros r. destruct (r =? 0); [|apply records_saves_none].
  apply records_saves_bind.
  { destruct verbose; [|apply records_saves_none].
    apply (records_saves_one (Ok tt) _ (fun w => w)); reflexivity. }
  intros _. apply records_saves_bind; [apply records_saves_sess_run|].
  intros v. destruct (slt v (snd locals)); [|apply records_saves_none].
  apply records_saves_bind; [apply records_saves_saver_save|].
  intros _. apply records_saves_bind; [|intros _; apply records_saves_none].
  apply (records_saves_one (Ok tt) _ (fun w => w)); reflexivity.
Qed.

Lemma records_saves_fit verbose : records_saves (fit verbose).
Proof.
  unfold fit. apply records_saves_bind.
  { apply (records_saves_one (Ok tt) _ (fun w => w)); reflexivity. }
  intros _. apply records_saves_with_session.
  apply records_saves_bind.
  { apply (records_saves_one (Ok tt) _ (fun w => set_sess w (set_pos Train 0 (sess w))));
      reflexivity. }
  intros _. apply records_saves_bind.
  { apply (records_saves_one (Ok tt) _ (fun w => set_sess w (set_pos Valid 0 (sess w))));
      reflexivity. }
  intros _. apply records_saves_bind.
  { apply (records_saves_one (Ok tt) _
             (fun w => {| store := store w; rng := S (rng w);
                          sess := set_variables (sess w) (fresh_params (rng w)) |}));
      reflexivity. }
  intros _. apply records_saves_bind; [apply records_saves_sess_run|].
  intros l. apply records_saves_bind; [|intros _; apply records_saves_none].
  unfold fit_loops. apply records_saves_for_acc. intros epoch a.
  apply records_saves_for_acc. intros step a'. apply records_saves_fit_step.
Qed.

(** A tracker that went down was saved. *)
Lemma tracked_saves path b t b' :
  tracked path b t b' -> slt b' b = true -> saves t.
Proof.
  induction 1 as [b|b e t b' He _ IH|b v t b' Hv _ IH|b v t b' Hv _ IH]; intros Hlt.
  - rewrite slt_irrefl in Hlt. discriminate.
  - apply Exists_cons_tl. exact (IH Hlt).
  - apply Exists_cons_tl. exact (IH Hlt).
  - apply Exists_cons_tl. apply Exists_cons_hd. reflexivity.
Qed.

(** C9, amended.  Whenever a call of [fit] has computed, at some report
    step, a validation loss strictly below +infinity (a number or
    -infinity: not NaN, not +infinity), the checkpoint directory holds a
    snapshot under the checkpoint path, and so is not empty, when the call
    ends, whether it returns or raises. *)
Theorem fit_checkpoint_after_finite_loss :
  forall (verbose : bool) (w : world) r w' t,
    fit verbose w = (r, w', t) ->
    (exists v, In v (losses t) /\ slt v inf = true) ->
    has_snapshot w' /\ store w' <> ∅.
Proof.
  intros verbose w r w' t Heq (v & Hin & Hv).
  assert (Hs : has_snapshot w').
  { destruct (post_run _ _ _ _ _ _ (fit_tracked verbose w) Heq) as (t' & b' & -> & Htr).
    destruct (post_run _ _ _ _ _ _ (records_saves_fit verbose w) Heq) as [_ Hsaves].
    apply Hsaves. apply Exists_cons_tl.
    destruct (tracked_lower_bound _ _ _ _ Htr) as [Hb Hl].
    specialize (Hl v Hin).
    destruct Hb as [->|Hb]; [congruence|].
    eapply tracked_saves; eassumption. }
  split; [exact Hs|]. destruct Hs as [p Hp]. intros He.
  rewrite He, read_checkpoint_empty in Hp. discriminate.
Qed.

(** ** [fit] starts from scratch *)

Lemma quiet_one {A} (r : result error A) (e : event) (f : world -> world) :
  is_setup e = false -> quiet (fun w => (r, f w, [e])).
Proof. intros He w. unfold post. simpl. repeat constructor. exact He. Qed.

Lemma quiet_none {A} (r : result error A) (f : world -> world) :
  quiet (fun w => (r, f w, [])).
Proof. intros w. constructor. Qed.

Lemma quiet_saver_save path : quiet (saver_save path).
Proof.
  intros w. unfold post, saver_save.
  destruct (variables (sess w)); simpl; repeat constructor.
Qed.

Lemma quiet_fit_step verbose epoch step locals : quiet (fit_step verbose epoch step locals).
Proof.
  unfold fit_step. apply quiet_bind; [apply quiet_sess_run|].
  intros l. apply quiet_bind.
  { unfold py_mod. destruct (show_step =? 0); apply (quiet_none _ (fun w => w)). }
  intros r. destruct (r =? 0); [|apply (quiet_none _ (fun w => w))].
  apply quiet_bind.
  { destruct verbose; [|apply (quiet_none _ (fun w => w))].
    apply (quiet_one (Ok tt) _ (fun w => w)); reflexivity. }
  intros _. apply quiet_bind; [apply quiet_sess_run|].
  intros v. destruct (slt v (snd locals)); [|apply (quiet_none _ (fun w => w))].
  apply quiet_bind; [apply quiet_saver_save|].
  intros _. apply quiet_bind; [|intros _; apply (quiet_none _ (fun w => w))].
  apply (quiet_one (Ok tt) _ (fun w => w)); reflexivity.
Qed.

Lemma quiet_fit_loops verbose locals : quiet (fit_loops verbose locals).
Proof.
  unfold fit_loops. apply quiet_for_acc. intros epoch a.
  apply quiet_for_acc. intros step a'. apply quiet_fit_step.
Qed.

(** How every call of [fit] begins, and what it never does after. *)
Lemma fit_prefix verbose (w : world) :
  post (fit verbose) w (fun _ _ t =>
    exists t', t = EvBest inf :: EvSession :: EvInitIter Train :: EvInitIter Valid
                     :: EvGlobalInit :: t' /\ no_setup t').
Proof.
  unfold fit. apply post_bind. apply post_emit. apply post_with_session.
  apply post_bind. unfold post at 1. simpl.
  apply post_bind. unfold post at 1. simpl.
  apply post_bind. unfold post at 1. simpl.
  eapply post_conseq.
  { apply (quiet_bind (sess_run FTrainLoss tf_train_loss)
             (fun show_loss => fit_loops verbose (show_loss, inf) ;; ret tt)).
    - apply quiet_sess_run.
    - intros l. apply quiet_bind; [apply quiet_fit_loops|].
      intros _. apply (quiet_none _ (fun w => w)). }
  simpl. intros r w' t Hq. exists (t ++ [EvClose]). split; [reflexivity|].
  apply Forall_app. split; [exact Hq | repeat constructor].
Qed.

Lemma store_blind_bind {A B} (m : M A) (k : A -> M B) :
  store_blind m -> (forall a, store_blind (k a)) -> store_blind (bind m k).
Proof.
  intros Hm Hk w1 w2 Hw. destruct (Hm w1 w2 Hw) as (Hr & Ht & Hs).
  unfold bind. destruct (m w1) as [[r1 s1] t1], (m w2) as [[r2 s2] t2].
  simpl in Hr, Ht, Hs. subst r2 t2. destruct r1 as [a|e]; simpl.
  - destruct (Hk a s1 s2 Hs) as (Hr' & Ht' & Hs').
    destruct (k a s1) as [[r1' s1'] t1'], (k a s2) as [[r2' s2'] t2'].
    simpl in *. subst. auto.
  - auto.
Qed.

Lemma store_blind_for_acc {J A} (l : list J) (body : J -> A -> M A) (a : A) :
  (forall i a, store_blind (body i a)) -> store_blind (for_acc l body a).
Proof.
  intros Hbody. revert a. induction l as [|i l IH]; intros a; simpl.
  - intros w1 w2 Hw. simpl. auto.
  - apply store_blind_bind; [apply Hbody | exact IH].
Qed.

Lemma store_blind_pure {A} (r : result error A) (t : list event) :
  store_blind (fun w => (r, w, t)).
Proof. intros w1 w2 Hw. simpl. auto. Qed.

Lemma store_blind_sess_run (f : fetch) (t : TM scalar) : store_blind (sess_run f t).
Proof.
  intros w1 w2 [Hr Hs]. unfold sess_run, bind, lift, emit, ret. rewrite Hs.
  destruct (t (sess w2)) as [[[v|e] s] ev]; simpl; repeat split; auto.
Qed.

Lemma store_blind_initializer it : store_blind (sess_run_initializer it).
Proof.
  intros w1 w2 [Hr Hs]. unfold sess_run_initializer. simpl. rewrite Hs.
  repeat split; auto.
Qed.

Lemma store_blind_global_init : store_blind global_variables_initializer.
Proof.
  intros w1 w2 [Hr Hs]. unfold global_variables_initializer. simpl. rewrite Hs, Hr.
  repeat split; auto.
Qed.

Lemma store_blind_saver_save path : store_blind (saver_save path).
Proof.
  intros w1 w2 [Hr Hs]. unfold saver_save. rewrite Hs.
  destruct (variables (sess w2)); simpl; repeat split; auto.
Qed.

Lemma store_blind_fit_step verbose epoch step locals :
  store_blind (fit_step verbose epoch step locals).
Proof.
  unfold fit_step. apply store_blind_bind; [apply store_blind_sess_run|].
  intros l. apply store_blind_bind.
  { unfold py_mod. destruct (show_step =? 0); apply store_blind_pure. }
  intros r. destruct (r =? 0); [|apply store_blind_pure].
  apply store_blind_bind.
  { destruct verbose; apply store_blind_pure. }
  intros _. apply store_blind_bind; [apply store_blind_sess_run|].
  intros v. destruct (slt v (snd locals)); [|apply store_blind_pure].
  apply store_blind_bind; [apply store_blind_saver_save|].
  intros _. apply store_blind_bind; [apply store_blind_pure|].
  intros _. apply store_blind_pure.
Qed.

Lemma session_blind_with_session {A} (body : M A) :
  store_blind body -> session_blind (with_session body).
Proof.
  intros Hbody w1 w2 Hr.
  assert (Hw : same_run (set_sess w1 fresh_session) (set_sess w2 fresh_session)).
  { split; [exact Hr | reflexivity]. }
  destruct (Hbody _ _ Hw) as (H1 & H2 & H3). unfold with_session.
  destruct (body (set_sess w1 fresh_session)) as [[r1 s1] t1],
           (body (set_sess w2 fresh_session)) as [[r2 s2] t2].
  simpl in *. subst. auto.
Qed.

Lemma session_blind_emit_then {A} (e : event) (m : M A) :
  session_blind m -> session_blind (emit e ;; m).
Proof.
  intros Hm w1 w2 Hr. destruct (Hm w1 w2 Hr) as (H1 & H2 & H3).
  unfold bind, emit.
  destruct (m w1) as [[r1 s1] t1], (m w2) as [[r2 s2] t2].
  simpl in *. subst. auto.
Qed.

Lemma fit_session_blind verbose : session_blind (fit verbose).
Proof.
  unfold fit. apply session_blind_emit_then. apply session_blind_with_session.
  apply store_blind_bind; [apply store_blind_initializer|].
  intros _. apply store_blind_bind; [apply store_blind_initializer|].
  intros _. apply store_blind_bind; [apply store_blind_global_init|].
  intros _. apply store_blind_bind; [apply store_blind_sess_run|].
  intros l. apply store_blind_bind; [|intros _; apply store_blind_pure].
  unfold fit_loops. apply store_blind_for_acc. intros epoch a.
  apply store_blind_for_acc. intros step a'. apply store_blind_fit_step.
Qed.

(** The state in which [fit] makes its first run: the store as it was,
    fresh parameters, both iterators at their first batch. *)
Lemma fit_from_fresh verbose (w : world) r w' t :
  fit verbose w = (r, w', t) ->
  exists t1,
    (show_loss <- sess_run FTrainLoss tf_train_loss ;;
     fit_loops verbose (show_loss, inf) ;;
     ret tt)
      {| store := store w; rng := S (rng w);
         sess := {| variables := Some (fresh_params (rng w));
                    train_pos := Some 0%nat; valid_pos := Some 0%nat |} |}
    = (r, w', t1) /\
    t = EvBest inf :: EvSession :: EvInitIter Train :: EvInitIter Valid
          :: EvGlobalInit :: t1 ++ [EvClose].
Proof.
  unfold fit. unfold bind at 1, emit, with_session.
  unfold bind at 1, sess_run_initializer. unfold bind at 1. unfold bind at 1.
  unfold global_variables_initializer. simpl.
  match goal with |- context [bind ?m ?k ?w0] =>
    destruct (bind m k w0) as [[r0 w0'] t0] eqn:Hrun end.
  simpl. intros H. injection H as <- <- <-. exists t0.
  split; [exact Hrun | reflexivity].
Qed.

(** C2. Every call of [fit] begins the same way: the tracker is set to
    +infinity, a session is opened, the train iterator and then the
    validation iterator are reset, and all parameters are initialised
    fresh; nothing that follows lists the directory, initialises again or
    restores.  After these steps the session holds the parameters the
    initialiser has just produced and both iterators stand at their first
    batch, and the store is as the call found it: the rest of the call, the
    first run of the training loss and the loops, runs from that state.
    What is in the checkpoint store has no influence: from two states that
    differ in the store (and in the session an earlier call left behind)
    the call has the same outcome, makes the same calls with the same
    results, and ends with the same parameters. *)
Theorem fit_starts_from_scratch :
  forall (verbose : bool) (w : world) r w' t,
    fit verbose w = (r, w', t) ->
    (exists t', t = EvBest inf :: EvSession :: EvInitIter Train :: EvInitIter Valid
                      :: EvGlobalInit :: t' /\ no_setup t') /\
    (exists t1,
       (show_loss <- sess_run FTrainLoss tf_train_loss ;;
        fit_loops verbose (show_loss, inf) ;;
        ret tt)
         {| store := store w; rng := S (rng w);
            sess := {| variables := Some (fresh_params (rng w));
                       train_pos := Some 0%nat; valid_pos := Some 0%nat |} |}
       = (r, w', t1) /\
       t = EvBest inf :: EvSession :: EvInitIter Train :: EvInitIter Valid
             :: EvGlobalInit :: t1 ++ [EvClose]) /\
    (forall (d : gmap string file) (s : session),
        exists w2', fit verbose {| store := d; rng := rng w; sess := s |} = (r, w2', t) /\
                    same_run w' w2').
Proof.
  intros verbose w r w' t Heq. split; [|split].
  - exact (post_run _ _ _ _ _ _ (fit_prefix verbose w) Heq).
  - exact (fit_from_fresh verbose w r w' t Heq).
  - intros d s.
    destruct (fit_session_blind verbose w {| store := d; rng := rng w; sess := s |} eq_refl)
      as (H1 & H2 & H3).
    rewrite Heq in H1, H2, H3. simpl in H1, H2, H3.
    destruct (fit verbose {| store := d; rng := rng w; sess := s |}) as [[r2 w2'] t2].
    simpl in *. subst. exists w2'. split; [reflexivity | exact H3].
Qed.

(** ** The training batches [fit] consumes *)

Lemma bind_ok {E W S A B} (m : ST E W S A) (k : A -> ST E W S B) s b s' t :
  bind m k s = (Ok b, s', t) ->
  exists a s1 t1 t2, m s = (Ok a, s1, t1) /\ k a s1 = (Ok b, s', t2) /\ t = t1 ++ t2.
Proof.
  unfold bind. destruct (m s) as [[[a|e] s1] t1]; [|discriminate].
  destruct (k a s1) as [[r s2] t2] eqn:Hk. intros H. injection H as -> -> <-.
  exists a, s1, t1, t2. auto.
Qed.

(** A run of the training loss: one batch of the train iterator, the
    variables as they were. *)
Lemma run_train_loss_spec (w : world) (i : nat) :
  train_pos (sess w) = Some i ->
  post (sess_run FTrainLoss tf_train_loss) w (fun r w' t =>
    match r with
    | Ok l => exists rec p,
        train_records i = Some rec /\ variables (sess w) = Some p /\
        l = loss p (batch_images rec) (labels rec) /\
        t = [EvNext Train i; EvRun FTrainLoss l] /\
        variables (sess w') = Some p /\ train_pos (sess w') = Some (S i)
    | Err _ => True
    end).
Proof.
  intros Hi. apply post_sess_run.
  unfold post, tf_train_loss, next_batch, bind, get_next, reshape_images,
    reshape_labels, read_variables, ret, raise. simpl. rewrite Hi.
  destruct (train_records i) as [rec|]; simpl; [|exact I].
  destruct (length (concat (images rec)) =? batch_size cfg * flat_size)%nat; simpl; [|exact I].
  destruct (length (labels rec) =? batch_size cfg)%nat; simpl; [|exact I].
  destruct (variables (sess w)) as [p|] eqn:Hp; simpl; [|exact I].
  exists rec, p. repeat split; auto.
Qed.

(** A run of the update: one batch of the train iterator, one step of the
    optimiser from the variables as they were. *)
Lemma run_update_spec (w : world) (i : nat) :
  train_pos (sess w) = Some i ->
  post (sess_run FUpdateTrainLoss update_weights_train_loss) w (fun r w' t =>
    match r with
    | Ok l => exists rec p,
        train_records i = Some rec /\ variables (sess w) = Some p /\
        l = loss p (batch_images rec) (labels rec) /\
        t = [EvNext Train i; EvRun FUpdateTrainLoss l] /\
        variables (sess w') = Some (minimize p (batch_images rec) (labels rec)) /\
        train_pos (sess w') = Some (S i)
    | Err _ => True
    end).
Proof.
  intros Hi. apply post_sess_run.
  unfold post, update_weights_train_loss, next_batch, bind, get_next, reshape_images,
    reshape_labels, read_variables, assign_variables, ret, raise. simpl. rewrite Hi.
  destruct (train_records i) as [rec|]; simpl; [|exact I].
  destruct (length (concat (images rec)) =? batch_size cfg * flat_size)%nat; simpl; [|exact I].
  destruct (length (labels rec) =? batch_size cfg)%nat; simpl; [|exact I].
  destruct (variables (sess w)) as [p|] eqn:Hp; simpl; [|exact I].
  exists rec, p. repeat split; auto.
Qed.

(** A run of the validation loss leaves the train iterator alone. *)
Lemma run_valid_loss_spec (w : world) :
  post (sess_run FValidLoss tf_valid_loss) w (fun _ w' t =>
    train_pos (sess w') = train_pos (sess w) /\ train_batches t = [] /\ updates t = []).
Proof.
  apply post_sess_run.
  unfold post, tf_valid_loss, next_batch, bind, get_next, reshape_images,
    reshape_labels, read_variables, ret, raise. simpl.
  destruct (valid_pos (sess w)) as [j|]; simpl; [|auto].
  destruct (valid_records j) as [rec|]; simpl; [|auto].
  destruct (length (concat (images rec)) =? batch_size cfg * flat_size)%nat; simpl; [|auto].
  destruct (length (labels rec) =? batch_size cfg)%nat; simpl; [|auto].
  destruct (variables (sess w)) as [p|]; simpl; auto.
Qed.

Lemma train_batches_app (t1 t2 : list event) :
  train_batches (t1 ++ t2) = train_batches t1 ++ train_batches t2.
Proof. unfold train_batches. apply flat_map_app. Qed.

Lemma updates_app (t1 t2 : list event) : updates (t1 ++ t2) = updates t1 ++ updates t2.
Proof. unfold updates. apply flat_map_app. Qed.

Lemma advances_bind {A B} k1 u1 k2 u2 (m : M A) (f : A -> M B) :
  advances k1 u1 m -> (forall a, advances k2 u2 (f a)) ->
  advances (k1 + k2) (u1 + u2) (bind m f).
Proof.
  intros Hm Hf w i Hi. apply post_bind.
  eapply post_conseq; [apply (Hm w i Hi)|].
  intros [a|e] w1 t1 H1; simpl; [|exact I]. destruct H1 as (Hp1 & Hb1 & Hu1).
  eapply post_conseq; [apply (Hf a w1 _ Hp1)|].
  intros [b|e] w2 t2 H2; simpl; [|exact I]. destruct H2 as (Hp2 & Hb2 & Hu2).
  split; [rewrite Hp2; f_equal; lia|]. split.
  - rewrite train_batches_app, Hb1, Hb2. symmetry. apply seq_app.
  - rewrite updates_app, length_app. lia.
Qed.

Lemma advances_still {A} (a : A) (t : list event) (f : world -> world) :
  (forall w, train_pos (sess (f w)) = train_pos (sess w)) ->
  train_batches t = [] -> updates t = [] ->
  advances 0 0 (fun w => (Ok a, f w, t)).
Proof.
  intros Hf Hb Hu w i Hi. unfold post. simpl.
  rewrite Hf, Hi, Hb, Hu, Nat.add_0_r. auto.
Qed.

Lemma advances_raise {A} k u (e : error) (t : list event) (f : world -> world) :
  advances (A := A) k u (fun w => (Err e, f w, t)).
Proof. intros w i Hi. exact I. Qed.

Lemma advances_for_acc {J A} k u (l : list J) (body : J -> A -> M A) (a : A) :
  (forall i a, advances k u (body i a)) ->
  advances (length l * k) (length l * u) (for_acc l body a).
Proof.
  intros Hbody. revert a. induction l as [|j l IH]; intros a; simpl.
  - apply (advances_still a [] (fun w => w)); reflexivity.
  - apply advances_bind; [apply Hbody | exact IH].
Qed.

Lemma advances_train_loss : advances 1 0 (sess_run FTrainLoss tf_train_loss).
Proof.
  intros w i Hi. eapply post_conseq; [apply (run_train_loss_spec w i Hi)|].
  intros [l|e] w' t H; [|exact I].
  destruct H as (rec & p & _ & _ & _ & -> & _ & Hp).
  split; [rewrite Hp; f_equal; lia|]. split; reflexivity.
Qed.

Lemma advances_update : advances 1 1 (sess_run FUpdateTrainLoss update_weights_train_loss).
Proof.
  intros w i Hi. eapply post_conseq; [apply (run_update_spec w i Hi)|].
  intros [l|e] w' t H; [|exact I].
  destruct H as (rec & p & _ & _ & _ & -> & _ & Hp).
  split; [rewrite Hp; f_equal; lia|]. split; reflexivity.
Qed.

Lemma advances_valid_loss : advances 0 0 (sess_run FValidLoss tf_valid_loss).
Proof.
  intros w i Hi. eapply post_conseq; [apply run_valid_loss_spec|].
  intros [l|e] w' t (Hp & Hb & Hu); [|exact I].
  rewrite Hp, Hi, Hb, Hu, Nat.add_0_r. auto.
Qed.

Lemma advances_saver_save path : advances 0 0 (saver_save path).
Proof.
  intros w i Hi. unfold post, saver_save.
  destruct (variables (sess w)); simpl; [|exact I].
  rewrite Hi, Nat.add_0_r. auto.
Qed.

Lemma advances_fit_step verbose epoch step locals :
  advances 1 1 (fit_step verbose epoch step locals).
Proof.
  unfold fit_step. apply (advances_bind 1 1 0 0); [apply advances_update|].
  intros l. apply (advances_bind 0 0 0 0).
  { unfold py_mod. destruct (show_step =? 0).
    - apply (advances_raise _ _ _ _ (fun w => w)).
    - apply (advances_still _ [] (fun w => w)); reflexivity. }
  intros r. destruct (r =? 0).
  2:{ apply (advances_still _ [] (fun w => w)); reflexivity. }
  apply (advances_bind 0 0 0 0).
  { destruct verbose.
    - apply (advances_still tt [_] (fun w => w)); reflexivity.
    - apply (advances_still tt [] (fun w => w)); reflexivity. }
  intros _. apply (advances_bind 0 0 0 0); [apply advances_valid_loss|].
  intros v. destruct (slt v (snd locals)).
  2:{ apply (advances_still _ [] (fun w => w)); reflexivity. }
  apply (advances_bind 0 0 0 0); [apply advances_saver_save|].
  intros _. apply (advances_bind 0 0 0 0).
  - apply (advances_still tt [_] (fun w => w)); reflexivity.
  - intros _. apply (advances_still _ [] (fun w => w)); reflexivity.
Qed.

Lemma length_range (n : Z) : length (range n) = Z.to_nat n.
Proof. unfold range. rewrite length_map, length_seq. reflexivity. Qed.

Lemma advances_fit_loops verbose locals :
  advances (Z.to_nat (epochs cfg) * Z.to_nat iterations)
           (Z.to_nat (epochs cfg) * Z.to_nat iterations)
           (fit_loops verbose locals).
Proof.
  unfold fit_loops.
  rewrite <- (length_range (epochs cfg)).
  apply advances_for_acc. intros epoch a.
  replace (Z.to_nat iterations) with (length (range iterations) * 1)%nat
    by (rewrite length_range; lia).
  apply advances_for_acc. intros step a'. apply advances_fit_step.
Qed.

(** When both loops run at least once, the first thing they do is a run
    of the update, on the next batch of the train iterator. *)
Lemma fit_loops_first verbose locals (w : world) a w' t i p :
  1 <= epochs cfg -> 1 <= iterations ->
  train_pos (sess w) = Some i -> variables (sess w) = Some p ->
  fit_loops verbose locals w = (Ok a, w', t) ->
  exists rec t2,
    train_records i = Some rec /\
    t = EvNext Train i
          :: EvRun FUpdateTrainLoss (loss p (batch_images rec) (labels rec)) :: t2.
Proof.
  intros He Hs Hi Hp Heq. unfold fit_loops, range in Heq.
  destruct (Z.to_nat (epochs cfg)) as [|e'] eqn:Ee; [lia|].
  destruct (Z.to_nat iterations) as [|s'] eqn:Es; [lia|].
  simpl in Heq.
  apply bind_ok in Heq. destruct Heq as (a1 & w1 & t1 & t2 & Hinner & _ & ->).
  apply bind_ok in Hinner. destruct Hinner as (a2 & w2 & t3 & t4 & Hstep & _ & ->).
  unfold fit_step in Hstep.
  apply bind_ok in Hstep. destruct Hstep as (l & w3 & t5 & t6 & Hrun & _ & ->).
  pose proof (post_run _ _ _ _ _ _ (run_update_spec w i Hi) Hrun) as Hspec.
  simpl in Hspec. destruct Hspec as (rec & p' & Hrec & Hp' & -> & -> & _).
  assert (p' = p) by congruence. subst p'.
  exists rec. eexists. split; [exact Hrec|].
  rewrite <- !app_assoc. simpl. reflexivity.
Qed.

(** C10. A call of [fit] that returns has, before entering the epoch
    loop, run the training loss once without an update: that run takes
    batch 0 of the train iterator and shows the loss of the fresh
    parameters.  So when the loops run at all, the first update takes
    batch 1, the second batch, still from the fresh parameters.  Over the
    call the train iterator yields the batches 0, 1, ..., E*S, that is
    E*S + 1 of them for E epochs of S steps, for E*S updates. *)
Theorem fit_consumes_one_extra_batch :
  forall (verbose : bool) (w : world) w' t,
    fit verbose w = (Ok tt, w', t) ->
    (exists rec0 t1,
        train_records 0%nat = Some rec0 /\
        t = EvBest inf :: EvSession :: EvInitIter Train :: EvInitIter Valid
              :: EvGlobalInit :: EvNext Train 0
              :: EvRun FTrainLoss
                   (loss (fresh_params (rng w)) (batch_images rec0) (labels rec0))
              :: t1 /\
        (1 <= epochs cfg -> 1 <= iterations ->
         exists rec1 t2,
           train_records 1%nat = Some rec1 /\
           t1 = EvNext Train 1
                  :: EvRun FUpdateTrainLoss
                       (loss (fresh_params (rng w)) (batch_images rec1) (labels rec1))
                  :: t2)) /\
    train_batches t = seq 0 (Z.to_nat (epochs cfg) * Z.to_nat iterations + 1) /\
    length (updates t) = (Z.to_nat (epochs cfg) * Z.to_nat iterations)%nat /\
    (0 <= epochs cfg -> 0 <= iterations ->
     Z.of_nat (length (train_batches t)) = epochs cfg * iterations + 1 /\
     Z.of_nat (length (updates t)) = epochs cfg * iterations).
Proof.
  intros verbose w w' t Heq. unfold fit in Heq.
  apply bind_ok in Heq. destruct Heq as ([] & w1 & t1 & t2 & He & Hws & ->).
  unfold emit in He. injection He as <- <-.
  unfold with_session in Hws.
  match type of Hws with context [?body (set_sess w fresh_session)] =>
    destruct (body (set_sess w fresh_session)) as [[r wb] tb] eqn:Hb end.
  injection Hws as -> -> <-.
  apply bind_ok in Hb. destruct Hb as ([] & wa & ta & ta' & Ha & Hb & ->).
  unfold sess_run_initializer in Ha. injection Ha as <- <-.
  apply bind_ok in Hb. destruct Hb as ([] & wb' & tb & tb' & Ha & Hb & ->).
  unfold sess_run_initializer in Ha. injection Ha as <- <-.
  apply bind_ok in Hb. destruct Hb as ([] & wc & tc & tc' & Ha & Hb & ->).
  unfold global_variables_initializer in Ha. injection Ha as <- <-.
  apply bind_ok in Hb. destruct Hb as (l0 & w4 & t4 & t5 & Hrun & Hb & ->).
  apply bind_ok in Hb. destruct Hb as (a & w5 & t6 & t7 & Hloops & Hret & ->).
  unfold ret in Hret. injection Hret as <- <-.
  match type of Hrun with sess_run _ _ ?w3 = _ =>
    pose proof (post_run _ _ _ _ _ _ (run_train_loss_spec w3 0%nat eq_refl) Hrun) as Hspec
  end.
  simpl in Hspec. destruct Hspec as (rec0 & p & Hrec0 & Hp & -> & -> & Hvars & Hpos).
  injection Hp as <-.
  pose proof (post_run _ _ _ _ _ _ (advances_fit_loops verbose _ w4 1%nat Hpos) Hloops)
    as Hadv.
  simpl in Hadv. destruct Hadv as (_ & Hbatches & Hupd).
  assert (Hb : train_batches
                 ([EvBest inf] ++ EvSession
                    :: ([EvInitIter Train] ++ [EvInitIter Valid] ++ [EvGlobalInit]
                        ++ [EvNext Train 0;
                            EvRun FTrainLoss
                              (loss (fresh_params (rng w)) (batch_images rec0) (labels rec0))]
                        ++ t6 ++ []) ++ [EvClose])
               = seq 0 (Z.to_nat (epochs cfg) * Z.to_nat iterations + 1)).
  { simpl. rewrite app_nil_r, train_batches_app, Hbatches. simpl.
    rewrite app_nil_r, Nat.add_comm. reflexivity. }
  assert (Hu : length (updates
                 ([EvBest inf] ++ EvSession
                    :: ([EvInitIter Train] ++ [EvInitIter Valid] ++ [EvGlobalInit]
                        ++ [EvNext Train 0;
                            EvRun FTrainLoss
                              (loss (fresh_params (rng w)) (batch_images rec0) (labels rec0))]
                        ++ t6 ++ []) ++ [EvClose]))
               = (Z.to_nat (epochs cfg) * Z.to_nat iterations)%nat).
  { simpl. rewrite app_nil_r, updates_app, length_app, Hupd. simpl. lia. }
  split; [|split; [exact Hb | split; [exact Hu|]]].
  - exists rec0. eexists. split; [exact Hrec0|]. split; [simpl; reflexivity|].
    intros He Hs.
    destruct (fit_loops_first verbose _ w4 a w5 t6 1%nat _ He Hs Hpos Hvars Hloops)
      as (rec1 & t2 & Hrec1 & ->).
    exists rec1. eexists. split; [exact Hrec1|]. simpl. reflexivity.
  - intros He Hs. rewrite Hb, Hu, length_seq. split; nia.
Qed.

(** ** The prediction path: values, frame, and bounds *)

Lemma predict_prob_fresh (img : ndarray) (w : world) :
  arr_dtype img = Float32 -> feed_fits (arr_rows img) = true -> store w = ∅ ->
  predict_prob img w
  = (Ok {| arr_dtype := Float32;
           arr_rows := map softmax (get_logits (fresh_params (rng w)) (arr_rows img)) |},
     {| store := store w; rng := S (rng w);
        sess := set_variables fresh_session (fresh_params (rng w)) |},
     [EvSession; EvListdir; EvGlobalInit; EvPredict; EvClose]).
Proof.
  intros Hd Hf He. unfold predict_prob. rewrite Hd. simpl.
  assert (Hl : map fst (map_to_list (store w)) = []).
  { rewrite He, map_to_list_empty. reflexivity. }
  unfold with_session, restore_or_initialize, bind, listdir. simpl.
  rewrite Hl. simpl.
  unfold sess_run_prediction. rewrite Hf. reflexivity.
Qed.

Lemma predict_prob_restored (img : ndarray) (w : world) (p : Params) :
  arr_dtype img = Float32 -> feed_fits (arr_rows img) = true ->
  read_checkpoint save_path (store w) = Some p ->
  predict_prob img w
  = (Ok {| arr_dtype := Float32;
           arr_rows := map softmax (get_logits p (arr_rows img)) |},
     set_sess w (set_variables fresh_session p),
     [EvSession; EvListdir; EvRestore save_path; EvPredict; EvClose]).
Proof.
  intros Hd Hf Hp. unfold predict_prob. rewrite Hd. simpl.
  unfold with_session, restore_or_initialize, bind, listdir. simpl.
  destruct (map fst (map_to_list (store w))) as [|n names] eqn:Hl.
  { apply listdir_nil in Hl. rewrite Hl, read_checkpoint_empty in Hp. discriminate. }
  rewrite saver_restore_eq. simpl. rewrite Hp. simpl.
  unfold sess_run_prediction. rewrite Hf. reflexivity.
Qed.

(** X1. What [predict_prob] answers.  For a 32-bit float array whose rows
    fit the placeholder: over an empty directory it initialises fresh
    parameters and returns, row by row, the softmax of the model's logits
    under them; over a directory that holds a snapshot it restores the
    snapshot and returns the softmax of the logits under the restored
    parameters, leaving the source of fresh parameters untouched.  In both
    cases the session an earlier call left behind plays no part. *)
Theorem predict_prob_answers :
  forall (img : ndarray) (w : world),
    arr_dtype img = Float32 -> feed_fits (arr_rows img) = true ->
    (store w = ∅ ->
     predict_prob img w
     = (Ok {| arr_dtype := Float32;
              arr_rows := map softmax (get_logits (fresh_params (rng w)) (arr_rows img)) |},
        {| store := store w; rng := S (rng w);
           sess := set_variables fresh_session (fresh_params (rng w)) |},
        [EvSession; EvListdir; EvGlobalInit; EvPredict; EvClose])) /\
    (forall p, read_checkpoint save_path (store w) = Some p ->
     predict_prob img w
     = (Ok {| arr_dtype := Float32;
              arr_rows := map softmax (get_logits p (arr_rows img)) |},
        set_sess w (set_variables fresh_session p),
        [EvSession; EvListdir; EvRestore save_path; EvPredict; EvClose])).
Proof.
  intros img w Hd Hf. split.
  - apply predict_prob_fresh; assumption.
  - intros p. apply predict_prob_restored; assumption.
Qed.

(** X2. A feed that does not fit the placeholder.  When some row of a
    32-bit float array has a length other than height * width * channels,
    [predict_prob] raises [ValueError], but only after it has opened a
    session and set the parameters up (initialised them over an empty
    directory, restored them over a snapshot); the store is left as it
    was. *)
Theorem predict_prob_bad_feed :
  forall (img : ndarray) (w : world) r w' t,
    arr_dtype img = Float32 -> feed_fits (arr_rows img) = false ->
    (store w = ∅ \/ exists p, read_checkpoint save_path (store w) = Some p) ->
    predict_prob img w = (r, w', t) ->
    r = Err ValueError /\ store w' = store w /\
    exists X, t = [EvSession; EvListdir; X; EvClose].
Proof.
  intros img w r w' t Hd Hf Hs. unfold predict_prob. rewrite Hd. simpl.
  unfold with_session, restore_or_initialize, bind, listdir. simpl.
  destruct Hs as [He|[p Hp]].
  - assert (Hl : map fst (map_to_list (store w)) = []).
    { rewrite He, map_to_list_empty. reflexivity. }
    rewrite Hl. simpl.
    unfold sess_run_prediction. rewrite Hf. simpl.
    intros H. injection H as <- <- <-. simpl. eauto.
  - destruct (map fst (map_to_list (store w))) as [|n names] eqn:Hl.
    { apply listdir_nil in Hl. rewrite Hl, read_checkpoint_empty in Hp. discriminate. }
    rewrite saver_restore_eq. simpl. rewrite Hp. simpl.
    unfold sess_run_prediction. rewrite Hf. simpl.
    intros H. injection H as <- <- <-. simpl. eauto.
Qed.

Lemma keeps_store_pure {A} (r : result error A) (t : list event) :
  keeps_store (fun w => (r, w, t)).
Proof. intros w. reflexivity. Qed.

Lemma keeps_store_lift {A} (tm : TM A) : keeps_store (lift tm).
Proof.
  intros w. apply post_lift. unfold post.
  destruct (tm (sess w)) as [[[a|e] s] ev]; reflexivity.
Qed.

Lemma predict_prob_keeps_store (img : ndarray) : keeps_store (predict_prob img).
Proof.
  unfold predict_prob. destruct (dtype_eqb (arr_dtype img) Float32).
  - apply keeps_store_with_session.
    apply keeps_store_bind; [apply keeps_store_restore_or_initialize|].
    intros _. apply keeps_store_bind; [|intros r; apply keeps_store_pure].
    unfold sess_run_prediction. destruct (feed_fits (arr_rows img)).
    + apply keeps_store_bind; [apply keeps_store_lift|].
      intros r. apply keeps_store_bind; intros; apply keeps_store_pure.
    + apply keeps_store_pure.
  - apply keeps_store_pure.
Qed.

Lemma predict_keeps_store (img : ndarray) : keeps_store (predict img).
Proof.
  unfold predict. apply keeps_store_bind; [apply predict_prob_keeps_store|].
  intros a. apply keeps_store_bind.
  - unfold argmax_axis1. destruct (map_opt argmax (arr_rows a)); apply keeps_store_pure.
  - intros idx. apply keeps_store_pure.
Qed.

(** X3. The prediction path only reads the checkpoint store: whatever the
    input, and whether the call returns or raises, the directory holds
    after [predict_prob] and after [predict] what it held before. *)
Theorem predict_no_store_write :
  (forall (img : ndarray) (w : world) r w' t,
      predict_prob img w = (r, w', t) -> store w' = store w) /\
  (forall (img : ndarray) (w : world) r w' t,
      predict img w = (r, w', t) -> store w' = store w).
Proof.
  split; intros img w r w' t Heq.
  - exact (post_run _ _ _ _ _ _ (predict_prob_keeps_store img w) Heq).
  - exact (post_run _ _ _ _ _ _ (predict_keeps_store img w) Heq).
Qed.

(** The probabilities [predict_prob] returns are the softmax rows of the
    logits of the input, under some parameters. *)
Lemma predict_prob_ok_rows (img : ndarray) (w : world) probs w' t :
  predict_prob img w = (Ok probs, w', t) ->
  exists p, arr_rows probs = map softmax (get_logits p (arr_rows img)).
Proof.
  unfold predict_prob. destruct (dtype_eqb (arr_dtype img) Float32); [|discriminate].
  unfold with_session.
  match goal with |- context [?body (set_sess w fresh_session)] =>
    destruct (body (set_sess w fresh_session)) as [[r wb] tb] eqn:Hb end.
  intros H. injection H as -> -> <-.
  apply bind_ok in Hb. destruct Hb as ([] & w1 & t1 & t2 & _ & Hb & _).
  apply bind_ok in Hb. destruct Hb as (rows & w2 & t3 & t4 & Hrun & Hret & _).
  unfold ret in Hret. injection Hret as <- _ _.
  unfold sess_run_prediction in Hrun.
  destruct (feed_fits (arr_rows img)); [|discriminate].
  apply bind_ok in Hrun. destruct Hrun as (rows' & w3 & t5 & t6 & Hlift & Hrest & _).
  apply bind_ok in Hrest. destruct Hrest as ([] & w4 & t7 & t8 & _ & Hret & _).
  unfold ret in Hret. injection Hret as <- _ _.
  unfold lift, tf_prediction, bind, read_variables in Hlift.
  destruct (variables (sess w1)) as [p|]; simpl in Hlift; [|discriminate].
  injection Hlift as <- _ _. exists p. reflexivity.
Qed.

(** X4. What [predict] returns is a vector of valid class ids.  A call
    that returns gives as many ids as [predict_prob] gives rows, each id a
    position of its row of probabilities (for rows of at most 2^31
    entries): 0 <= id < number of classes.  With a model that scores every
    image, that is one id per input image. *)
Theorem predict_class_ids_in_range :
  forall (img : ndarray) (w : world) preds w' t,
    predict img w = (Ok preds, w', t) ->
    exists probs,
      predict_prob img w = (Ok probs, w', t) /\
      length preds = length (arr_rows probs) /\
      (forall i c row, preds !! i = Some c -> arr_rows probs !! i = Some row ->
         Z.of_nat (length row) <= 2 ^ 31 -> 0 <= c < Z.of_nat (length row)) /\
      ((forall p x, length (get_logits p x) = length x) ->
       length preds = length (arr_rows img)).
Proof.
  intros img w preds w' t Heq. unfold predict in Heq.
  apply bind_ok in Heq. destruct Heq as (probs & w1 & t1 & t2 & Hprob & Hrest & ->).
  apply bind_ok in Hrest. destruct Hrest as (idx & w2 & t3 & t4 & Harg & Hret & ->).
  unfold ret in Hret. injection Hret as <- <- <-.
  unfold argmax_axis1 in Harg.
  destruct (map_opt argmax (arr_rows probs)) as [js|] eqn:Hjs; [|discriminate].
  unfold ret in Harg. injection Harg as <- <- <-.
  destruct (map_opt_lookup _ _ _ Hjs) as [Hlen Hall].
  exists probs. rewrite !app_nil_r. split; [exact Hprob|].
  split; [rewrite !length_map; exact Hlen|]. split.
  - intros i c row Hc Hrow Hsmall.
    destruct (Hall i row Hrow) as (j & Hj & Hi).
    rewrite !list_lookup_fmap, Hi in Hc. simpl in Hc. injection Hc as <-.
    apply argmax_lt in Hj. rewrite astype_int32_small; lia.
  - intros Hlog. rewrite !length_map, Hlen.
    destruct (predict_prob_ok_rows _ _ _ _ _ Hprob) as (p & ->).
    rewrite length_map. apply Hlog.
Qed.

(** ** Edge cases of [get_accuracy] *)

Lemma range_nonpos (n : Z) : n <= 0 -> range n = [].
Proof. intros H. unfold range. replace (Z.to_nat n) with 0%nat by lia. reflexivity. Qed.

Lemma range_pos (n : Z) : 1 <= n -> exists l, range n = 0 :: l.
Proof.
  intros H. unfold range. destruct (Z.to_nat n) as [|k] eqn:E; [lia|].
  simpl. eauto.
Qed.

(** Over an empty directory or a snapshot the set-up succeeds, and only
    assigns the variables. *)
Lemma restore_or_initialize_ok (w : world) :
  (store w = ∅ \/ exists p, read_checkpoint save_path (store w) = Some p) ->
  post restore_or_initialize w (fun r w' t =>
    r = Ok tt /\ store w' = store w /\ accuracies t = [] /\
    exists p, sess w' = set_variables (sess w) p).
Proof.
  intros Hs. eapply post_conseq; [apply restore_or_initialize_spec|].
  intros r w1 t1 [(He & -> & -> & ->)|(Hne & -> & [(p & Hp & -> & ->)|(Hno & _)])].
  - simpl. repeat split; eauto.
  - simpl. repeat split; eauto.
  - exfalso. destruct Hs as [He|[p Hp]]; [contradiction | congruence].
Qed.

(** X5. A negative iteration count is not an error: [get_accuracy] then
    runs the accuracy tensor not even once and, when the session is set up
    (empty directory, or a snapshot to restore), returns zero. *)
Theorem get_accuracy_negative_count :
  forall it (accuracy_tensor : TM scalar) (n : Z) (w : world) r w' t,
    n < 0 ->
    get_accuracy it accuracy_tensor n w = (r, w', t) ->
    accuracies t = [] /\
    ((store w = ∅ \/ exists p, read_checkpoint save_path (store w) = Some p) ->
     exists q, r = Ok (SNum q) /\ (q == 0)%Q).
Proof.
  intros it tensor n w r w' t Hn Heq.
  assert (Hpost : post (get_accuracy it tensor n) w (fun r _ t =>
            accuracies t = [] /\
            ((store w = ∅ \/ exists p, read_checkpoint save_path (store w) = Some p) ->
             exists q, r = Ok (SNum q) /\ (q == 0)%Q))).
  { unfold get_accuracy. rewrite range_nonpos by lia. simpl for_acc.
    apply post_bind. apply post_with_session.
    apply post_bind. unfold post at 1. simpl.
    apply post_bind. eapply post_conseq; [apply restore_or_initialize_spec|]. simpl.
    intros r1 w1 t1 Hsetup.
    assert (Ht1 : accuracies t1 = []).
    { destruct Hsetup as [(_ & _ & -> & _)|(_ & -> & _)]; reflexivity. }
    destruct r1 as [[]|e].
    - unfold post. simpl. destruct (n =? 0) eqn:E; [lia|]. simpl.
      rewrite !app_nil_r, !accuracies_app, Ht1. split; [reflexivity|].
      intros _. exists 0%Q. split; [|reflexivity].
      unfold round64. rewrite round_float_zero; [reflexivity|].
      unfold Qdiv. apply Qmult_0_l.
    - rewrite !accuracies_app, Ht1. split; [reflexivity|].
      intros Hs. exfalso.
      destruct Hsetup as [(_ & Hr & _)|(Hne & _ & [(p & _ & Hr & _)|(Hno & _)])];
        try discriminate.
      simpl in Hne, Hno.
      destruct Hs as [He|[p Hp]]; [contradiction | congruence]. }
  exact (post_run _ _ _ _ _ _ Hpost Heq).
Qed.

(** When the first run of the tensor fails, the call fails with it. *)
Lemma get_accuracy_first_error it (tensor : TM scalar) (n : Z) (w : world) (e : tf_error) :
  1 <= n ->
  (store w = ∅ \/ exists p, read_checkpoint save_path (store w) = Some p) ->
  (forall p, (tensor (set_variables (set_pos it 0 fresh_session) p)).1.1 = Err e) ->
  post (get_accuracy it tensor n) w (fun r w' t =>
    r = Err (TfError e) /\ accuracies t = [] /\ store w' = store w).
Proof.
  intros Hn Hs Hfail. unfold get_accuracy.
  destruct (range_pos n Hn) as [l ->]. simpl for_acc.
  apply post_bind. apply post_with_session.
  apply post_bind. unfold post at 1. simpl.
  apply post_bind. eapply post_conseq.
  { apply restore_or_initialize_ok. exact Hs. }
  intros r1 w1 t1 (-> & Hst & Ht1 & p & Hp). simpl in Hst, Hp. simpl.
  apply post_bind. apply post_bind. apply post_sess_run. unfold post at 1.
  rewrite Hp. specialize (Hfail p).
  destruct (tensor (set_variables (set_pos it 0 fresh_session) p)) as [[[v|e'] s] ev].
  { discriminate. }
  simpl in Hfail. injection Hfail as ->. simpl.
  rewrite !accuracies_app, Ht1, accuracies_next. simpl.
  repeat split. exact Hst.
Qed.

Lemma restore_or_initialize_params (w : world) (p : Params) :
  setup_params w p ->
  post restore_or_initialize w (fun r w' t =>
    r = Ok tt /\ store w' = store w /\ accuracies t = [] /\
    sess w' = set_variables (sess w) p).
Proof.
  intros Hs. eapply post_conseq; [apply restore_or_initialize_spec|].
  intros r w1 t1 [(He & -> & -> & ->)|(Hne & -> & [(p' & Hp & -> & ->)|(Hno & _)])].
  - destruct Hs as [[_ ->]|[Hne _]]; [|contradiction]. simpl. repeat split.
  - destruct Hs as [[He _]|[_ Hp']]; [contradiction|].
    assert (p' = p) by congruence. subst p'. simpl. repeat split.
  - exfalso. destruct Hs as [[He _]|[_ Hp]]; [contradiction | congruence].
Qed.

(** The first run of the tensor is made in the session just set up. *)
Lemma get_accuracy_first_run it (tensor : TM scalar) (n : Z) (w : world) (p : Params) :
  1 <= n -> setup_params w p ->
  post (get_accuracy it tensor n) w (fun r _ t =>
    first_run tensor (set_variables (set_pos it 0 fresh_session) p) r t).
Proof.
  intros Hn Hs. unfold get_accuracy.
  destruct (range_pos n Hn) as [l ->]. simpl for_acc.
  apply post_bind. apply post_with_session.
  apply post_bind. unfold post at 1. simpl.
  apply post_bind. eapply post_conseq.
  { apply (restore_or_initialize_params _ p).
    destruct Hs as [[He Hp]|[Hne Hp]]; [left | right]; simpl; auto. }
  intros r1 w1 t1 (-> & Hst & Ht1 & Hp). simpl in Hst, Hp. simpl.
  apply post_bind. apply post_bind. apply post_sess_run. unfold post at 1.
  rewrite Hp. unfold first_run.
  destruct (tensor (set_variables (set_pos it 0 fresh_session) p)) as [[[v|e'] s] ev].
  - simpl. apply post_ret. apply post_any. intros [acc|e2] w2 t2; simpl.
    + apply post_any. intros r3 w3 t3.
      rewrite !accuracies_app, Ht1, accuracies_next. simpl. eauto.
    + rewrite !accuracies_app, Ht1, accuracies_next. simpl. eauto.
  - simpl. rewrite !accuracies_app, Ht1, accuracies_next. simpl. split; reflexivity.
Qed.

(** C7. In [get_accuracy] and in [predict_prob] the choice between
    restoring the parameters and initialising them fresh depends on the
    listing of the checkpoint directory alone: right after the listing an
    empty directory leads to the global initialiser, a directory that is
    not empty (whatever it holds) to a restore from the fixed path
    prefix, and no other initialisation or restore happens in the call.
    The choice sets the parameters the call computes with: over an empty
    directory those the initialiser produces, over another directory those
    the checkpoint files hold, so that the first accuracy of
    [get_accuracy] is the value of the tensor under them, with the
    iterator at its first batch, and the answer of [predict_prob] is the
    softmax of the logits under them.  Over a directory that is not empty
    and holds no checkpoint under the prefix the restore raises
    [ValueError]; when the files are there and cannot be read, it raises
    an error of the framework. *)
Theorem restore_iff_directory_nonempty :
  (forall it (accuracy_tensor : TM scalar) (n : Z) (w : world) r w' t,
      get_accuracy it accuracy_tensor n w = (r, w', t) ->
      decides w [EvInitIter it] r t /\
      (forall p, 1 <= n -> setup_params w p ->
         first_run accuracy_tensor (set_variables (set_pos it 0 fresh_session) p) r t)) /\
  (forall (img : ndarray) (w : world) r w' t,
      arr_dtype img = Float32 ->
      predict_prob img w = (r, w', t) ->
      decides w [] r t /\
      (forall p, feed_fits (arr_rows img) = true -> setup_params w p ->
         r = Ok {| arr_dtype := Float32;
                   arr_rows := map softmax (get_logits p (arr_rows img)) |})).
Proof.
  split.
  - intros it tensor n w r w' t Heq. split.
    + exact (post_run _ _ _ _ _ _ (get_accuracy_decides it tensor n w) Heq).
    + intros p Hn Hs.
      exact (post_run _ _ _ _ _ _ (get_accuracy_first_run it tensor n w p Hn Hs) Heq).
  - intros img w r w' t Hd Heq. split.
    + exact (post_run _ _ _ _ _ _ (predict_prob_decides img w Hd) Heq).
    + intros p Hf [[He ->]|[_ Hp]].
      * rewrite (predict_prob_fresh img w Hd Hf He) in Heq. congruence.
      * rewrite (predict_prob_restored img w p Hd Hf Hp) in Heq. congruence.
Qed.

(** X6. The iterator and the tensor must match.  [get_accuracy] resets
    only the iterator it is given: called with the initialiser of the train
    iterator and a tensor over the validation iterator (such as
    [self.valid_accuracy]), or the other way round, with a count [n >= 1]
    and a session that sets up, it raises the framework's
    failed-precondition error at the first run, without a result and
    without touching the store. *)
Theorem get_accuracy_iterator_mismatch :
  forall (n : Z) (w : world),
    1 <= n ->
    (store w = ∅ \/ exists p, read_checkpoint save_path (store w) = Some p) ->
    (forall r w' t, get_accuracy Train valid_accuracy n w = (r, w', t) ->
       r = Err (TfError FailedPrecondition) /\ accuracies t = [] /\ store w' = store w) /\
    (forall r w' t, get_accuracy Valid tf_train_loss n w = (r, w', t) ->
       r = Err (TfError FailedPrecondition) /\ accuracies t = [] /\ store w' = store w).
Proof.
  intros n w Hn Hs. split; intros r w' t Heq.
  - refine (post_run _ _ _ _ _ _
              (get_accuracy_first_error Train valid_accuracy n w FailedPrecondition Hn Hs _)
              Heq).
    intros p. reflexivity.
  - refine (post_run _ _ _ _ _ _
              (get_accuracy_first_error Valid tf_train_loss n w FailedPrecondition Hn Hs _)
              Heq).
    intros p. reflexivity.
Qed.

(** X7. A validation set that fails at once.  With a count [n >= 1] and
    a session that sets up, [get_valid_accuracy] raises the framework's
    out-of-range error when the validation set has no batch at all, and its
    invalid-argument error when the first batch is not full (its images or
    its labels do not reshape to the fixed batch size); in both cases no
    accuracy is computed. *)
Theorem get_valid_accuracy_bad_first_batch :
  forall (n : Z) (w : world) r w' t,
    1 <= n ->
    (store w = ∅ \/ exists p, read_checkpoint save_path (store w) = Some p) ->
    get_valid_accuracy (Some n) w = (r, w', t) ->
    (valid_records 0%nat = None ->
       r = Err (TfError OutOfRange) /\ accuracies t = []) /\
    (forall b, valid_records 0%nat = Some b ->
       (length (concat (images b)) <> (batch_size cfg * flat_size)%nat \/
        length (labels b) <> batch_size cfg) ->
       r = Err (TfError InvalidArgument) /\ accuracies t = []).
Proof.
  intros n w r w' t Hn Hs Heq. unfold get_valid_accuracy in Heq. split.
  - intros Hnone.
    assert (Hfail : forall p,
              (valid_accuracy (set_variables (set_pos Valid 0 fresh_session) p)).1.1
              = Err OutOfRange).
    { intros p. unfold valid_accuracy, next_batch, bind, get_next. simpl.
      rewrite Hnone. reflexivity. }
    destruct (post_run _ _ _ _ _ _
                (get_accuracy_first_error Valid valid_accuracy n w OutOfRange Hn Hs Hfail)
                Heq) as (H1 & H2 & _).
    split; assumption.
  - intros b Hb Hbad.
    assert (Hfail : forall p,
              (valid_accuracy (set_variables (set_pos Valid 0 fresh_session) p)).1.1
              = Err InvalidArgument).
    { intros p. unfold valid_accuracy, next_batch, bind, get_next, reshape_images,
        reshape_labels. simpl. rewrite Hb. simpl.
      destruct (length (concat (images b)) =? batch_size cfg * flat_size)%nat eqn:E1;
        simpl; [|reflexivity].
      destruct (length (labels b) =? batch_size cfg)%nat eqn:E2; simpl; [|reflexivity].
      apply Nat.eqb_eq in E1, E2. destruct Hbad; contradiction. }
    destruct (post_run _ _ _ _ _ _
                (get_accuracy_first_error Valid valid_accuracy n w InvalidArgument Hn Hs Hfail)
                Heq) as (H1 & H2 & _).
    split; assumption.
Qed.

(** ** The validation batches a call consumes *)

Lemma valid_batches_app (t1 t2 : list event) :
  valid_batches (t1 ++ t2) = valid_batches t1 ++ valid_batches t2.
Proof. unfold valid_batches. apply flat_map_app. Qed.

Lemma losses_app (t1 t2 : list event) : losses (t1 ++ t2) = losses t1 ++ losses t2.
Proof. unfold losses. apply flat_map_app. Qed.

Lemma takes_valid_bind {A B} sel (m : M A) (f : A -> M B) :
  (forall t1 t2, sel (t1 ++ t2) = sel t1 ++ sel t2) ->
  takes_valid sel m -> (forall a, takes_valid sel (f a)) -> takes_valid sel (bind m f).
Proof.
  intros Hsel Hm Hf w j Hj. apply post_bind.
  eapply post_conseq; [apply (Hm w j Hj)|].
  intros [a|e] w1 t1 H1; simpl; [|exact I]. destruct H1 as (Hp1 & Hb1 & Hf1).
  eapply post_conseq; [apply (Hf a w1 _ Hp1)|].
  intros [b|e] w2 t2 H2; simpl; [|exact I]. destruct H2 as (Hp2 & Hb2 & Hf2).
  rewrite Hsel, length_app. split; [rewrite Hp2; f_equal; lia|]. split.
  - rewrite valid_batches_app, Hb1, Hb2. symmetry. apply seq_app.
  - intros i Hi. destruct (Nat.lt_ge_cases i (j + length (sel t1))) as [Hlt|Hge].
    + apply Hf1. lia.
    + apply Hf2. lia.
Qed.

Lemma takes_valid_still {A} sel (r : result error A) (t : list event) (f : world -> world) :
  (forall w, valid_pos (sess (f w)) = valid_pos (sess w)) ->
  valid_batches t = [] -> sel t = [] ->
  takes_valid sel (fun w => (r, f w, t)).
Proof.
  intros Hf Hb Hs w j Hj. unfold post. simpl. destruct r as [a|e]; [|exact I].
  rewrite Hf, Hj, Hb, Hs. simpl. rewrite Nat.add_0_r.
  split; [reflexivity|]. split; [reflexivity|]. intros i Hi. lia.
Qed.

Lemma takes_valid_for_acc {J A} sel (l : list J) (body : J -> A -> M A) (a : A) :
  (forall t1 t2, sel (t1 ++ t2) = sel t1 ++ sel t2) -> sel [] = [] ->
  (forall i a, takes_valid sel (body i a)) -> takes_valid sel (for_acc l body a).
Proof.
  intros Hsel Hnil Hbody. revert a. induction l as [|i l IH]; intros a; simpl.
  - apply (takes_valid_still sel (Ok a) [] (fun w => w)); auto.
  - apply takes_valid_bind; [exact Hsel | apply Hbody | exact IH].
Qed.

(** A run over the validation iterator takes its next batch, a full one. *)
Lemma takes_valid_accuracy :
  takes_valid accuracies (sess_run FAccuracy valid_accuracy).
Proof.
  intros w j Hj. apply post_sess_run.
  unfold post, valid_accuracy, next_batch, bind, get_next, reshape_images,
    reshape_labels, read_variables, ret, raise. simpl. rewrite Hj.
  destruct (valid_records j) as [rec|] eqn:Hrec; simpl; [|exact I].
  destruct (length (concat (images rec)) =? batch_size cfg * flat_size)%nat eqn:E1;
    simpl; [|exact I].
  destruct (length (labels rec) =? batch_size cfg)%nat eqn:E2; simpl; [|exact I].
  destruct (variables (sess w)) as [p|]; simpl; [|exact I].
  destruct (map_opt tf_argmax _) as [idx|]; simpl; [|exact I].
  split; [f_equal; lia|]. split; [reflexivity|].
  intros i Hi. assert (i = j) by lia. subst i. exists rec. split; [exact Hrec|].
  split; apply Nat.eqb_eq; assumption.
Qed.

Lemma takes_valid_loss : takes_valid losses (sess_run FValidLoss tf_valid_loss).
Proof.
  intros w j Hj. apply post_sess_run.
  unfold post, tf_valid_loss, next_batch, bind, get_next, reshape_images,
    reshape_labels, read_variables, ret, raise. simpl. rewrite Hj.
  destruct (valid_records j) as [rec|] eqn:Hrec; simpl; [|exact I].
  destruct (length (concat (images rec)) =? batch_size cfg * flat_size)%nat eqn:E1;
    simpl; [|exact I].
  destruct (length (labels rec) =? batch_size cfg)%nat eqn:E2; simpl; [|exact I].
  destruct (variables (sess w)) as [p|]; simpl; [|exact I].
  split; [f_equal; lia|]. split; [reflexivity|].
  intros i Hi. assert (i = j) by lia. subst i. exists rec. split; [exact Hrec|].
  split; apply Nat.eqb_eq; assumption.
Qed.

(** A run over the train iterator leaves the validation iterator alone. *)
Lemma takes_valid_train (f : fetch) (tm : TM scalar) :
  f <> FValidLoss ->
  (tm = tf_train_loss \/ tm = update_weights_train_loss) ->
  takes_valid losses (sess_run f tm).
Proof.
  intros Hf Htm w j Hj. apply post_sess_run.
  destruct f; try congruence;
    destruct Htm as [-> | ->];
    unfold post, tf_train_loss, update_weights_train_loss, next_batch, bind, get_next,
      reshape_images, reshape_labels, read_variables, assign_variables, ret, raise; simpl;
    (destruct (train_pos (sess w)) as [i|]; simpl; [|exact I]);
    (destruct (train_records i) as [rec|]; simpl; [|exact I]);
    (destruct (length (concat (images rec)) =? batch_size cfg * flat_size)%nat;
       simpl; [|exact I]);
    (destruct (length (labels rec) =? batch_size cfg)%nat; simpl; [|exact I]);
    (destruct (variables (sess w)) as [p|]; simpl; [|exact I]);
    rewrite Hj, Nat.add_0_r;
    (split; [reflexivity|]); (split; [reflexivity|]); intros; lia.
Qed.

Lemma takes_valid_saver_save sel path :
  sel [EvSave path] = [] -> sel [] = [] -> takes_valid sel (saver_save path).
Proof.
  intros Hs Hn w j Hj. unfold post, saver_save.
  destruct (variables (sess w)); simpl; [|exact I].
  rewrite Hs, Hj. simpl. rewrite Nat.add_0_r.
  split; [reflexivity|]. split; [reflexivity|]. intros; lia.
Qed.

Lemma takes_valid_fit_step verbose epoch step locals :
  takes_valid losses (fit_step verbose epoch step locals).
Proof.
  unfold fit_step.
  apply takes_valid_bind; [apply losses_app | apply takes_valid_train; [discriminate | auto] |].
  intros l. apply takes_valid_bind; [apply losses_app | |].
  { unfold py_mod. destruct (show_step =? 0);
      apply (takes_valid_still losses _ [] (fun w => w)); reflexivity. }
  intros r. destruct (r =? 0).
  2:{ apply (takes_valid_still losses _ [] (fun w => w)); reflexivity. }
  apply takes_valid_bind; [apply losses_app | |].
  { destruct verbose.
    - apply (takes_valid_still losses (Ok tt) [_] (fun w => w)); reflexivity.
    - apply (takes_valid_still losses (Ok tt) [] (fun w => w)); reflexivity. }
  intros _. apply takes_valid_bind; [apply losses_app | apply takes_valid_loss |].
  intros v. destruct (slt v (snd locals)).
  2:{ apply (takes_valid_still losses _ [] (fun w => w)); reflexivity. }
  apply takes_valid_bind; [apply losses_app | apply takes_valid_saver_save; reflexivity |].
  intros _. apply takes_valid_bind; [apply losses_app | |].
  - apply (takes_valid_still losses (Ok tt) [_] (fun w => w)); reflexivity.
  - intros _. apply (takes_valid_still losses _ [] (fun w => w)); reflexivity.
Qed.

Lemma fit_valid_batches verbose (w : world) :
  post (fit verbose) w (fun r _ t =>
    match r with
    | Ok _ => valid_batches t = seq 0 (length (losses t)) /\
              forall i, (i < length (losses t))%nat ->
                exists b, valid_records i = Some b /\ full_batch b
    | Err _ => True
    end).
Proof.
  unfold fit. apply post_bind. apply post_emit. apply post_with_session.
  apply post_bind. unfold post at 1. simpl.
  apply post_bind. unfold post at 1. simpl.
  eapply post_conseq.
  { apply (takes_valid_bind losses global_variables_initializer
             (fun _ => show_loss <- sess_run FTrainLoss tf_train_loss ;;
                       fit_loops verbose (show_loss, inf) ;; ret tt)).
    - apply losses_app.
    - apply (takes_valid_still losses (Ok tt) [EvGlobalInit]
               (fun w => {| store := store w; rng := S (rng w);
                            sess := set_variables (sess w) (fresh_params (rng w)) |}));
        reflexivity.
    - intros _. apply takes_valid_bind;
        [apply losses_app | apply takes_valid_train; [discriminate | auto] |].
      intros l. apply takes_valid_bind; [apply losses_app | |].
      + unfold fit_loops. apply takes_valid_for_acc; [apply losses_app | reflexivity |].
        intros epoch a. apply takes_valid_for_acc; [apply losses_app | reflexivity |].
        intros step a'. apply takes_valid_fit_step.
      + intros _. apply (takes_valid_still losses _ [] (fun w => w)); reflexivity.
    - reflexivity. }
  intros [[]|e] w' t H; simpl; [|exact I].
  destruct H as (_ & Hb & Hfull).
  rewrite !losses_app, !valid_batches_app. simpl. rewrite !app_nil_r.
  split; [exact Hb|]. intros i Hi. apply Hfull. lia.
Qed.

Lemma takes_valid_restore_or_initialize : takes_valid accuracies restore_or_initialize.
Proof.
  intros w j Hj. eapply post_conseq; [apply restore_or_initialize_spec|].
  intros r w1 t1 [(_ & -> & -> & ->)|(_ & -> & [(p & _ & -> & ->)|(_ & _ & ->)])];
    simpl; try exact I.
  - rewrite Hj, Nat.add_0_r. split; [reflexivity|]. split; [reflexivity|]. intros; lia.
  - rewrite Hj, Nat.add_0_r. split; [reflexivity|]. split; [reflexivity|]. intros; lia.
Qed.

(** A returning [get_accuracy] has run its tensor [max n 0] times. *)
Lemma get_accuracy_runs it (tensor : TM scalar) (n : Z) (w : world) :
  post (get_accuracy it tensor n) w (fun r _ t =>
    match r with
    | Ok _ => length (accuracies t) = Z.to_nat n
    | Err _ => True
    end).
Proof.
  unfold get_accuracy. apply post_bind. apply post_with_session.
  apply post_bind. unfold post at 1. simpl.
  apply post_bind. eapply post_conseq; [apply restore_or_initialize_spec|].
  simpl. intros r w1 t1 Hsetup.
  assert (Ht1 : accuracies t1 = []).
  { destruct Hsetup as [(_ & _ & -> & _)|(_ & -> & _)]; reflexivity. }
  destruct r as [[]|e]; [|exact I].
  eapply post_conseq; [apply accuracy_loop|].
  intros [acc|e] w2 t2 H; simpl; [|exact I].
  destruct H as [_ Hlen]. rewrite length_range in Hlen.
  unfold post, py_truediv.
  destruct acc as [z|x]; [destruct (n =? 0)|]; simpl; try exact I;
    rewrite ?app_nil_r, !accuracies_app, Ht1; simpl; rewrite app_nil_r; exact Hlen.
Qed.

Lemma get_valid_accuracy_batches (n : Z) (w : world) :
  post (get_accuracy Valid valid_accuracy n) w (fun r _ t =>
    match r with
    | Ok _ => valid_batches t = seq 0 (length (accuracies t)) /\
              forall i, (i < length (accuracies t))%nat ->
                exists b, valid_records i = Some b /\ full_batch b
    | Err _ => True
    end).
Proof.
  unfold get_accuracy. apply post_bind. apply post_with_session.
  apply post_bind. unfold post at 1. simpl.
  eapply post_conseq.
  { apply (takes_valid_bind accuracies restore_or_initialize
             (fun _ => for_acc (range n)
                (fun _ acc => v <- sess_run FAccuracy valid_accuracy ;; ret (py_iadd acc v))
                (PyInt 0))).
    - apply accuracies_app.
    - apply takes_valid_restore_or_initialize.
    - intros _. apply takes_valid_for_acc; [apply accuracies_app | reflexivity |].
      intros _ acc. apply takes_valid_bind;
        [apply accuracies_app | apply takes_valid_accuracy |].
      intros v. apply (takes_valid_still accuracies _ [] (fun w => w)); reflexivity.
    - reflexivity. }
  intros [acc|e] w' t H; simpl; [|exact I].
  destruct H as (_ & Hb & Hfull).
  unfold post, py_truediv.
  destruct acc as [z|x]; [destruct (n =? 0)|]; simpl; try exact I;
    rewrite ?app_nil_r, !accuracies_app, !valid_batches_app; simpl;
    rewrite !app_nil_r; (split; [exact Hb|]); intros i Hi; apply Hfull; lia.
Qed.

(** X9. [get_valid_accuracy] always evaluates the head of the validation
    set.  Every call resets the validation iterator, so a call with count
    [n] that returns has computed its accuracies on the batches 0, ...,
    n - 1 of the validation set, whatever was consumed before; these [n]
    batches exist and are full.  (A validation set with fewer than [n]
    full batches therefore makes the call raise.) *)
Theorem get_valid_accuracy_first_batches :
  forall (n : Z) (w : world) x w' t,
    get_valid_accuracy (Some n) w = (Ok x, w', t) ->
    valid_batches t = seq 0 (Z.to_nat n) /\
    forall i, (i < Z.to_nat n)%nat ->
      exists b, valid_records i = Some b /\ full_batch b.
Proof.
  intros n w x w' t Heq. unfold get_valid_accuracy in Heq.
  pose proof (post_run _ _ _ _ _ _ (get_accuracy_runs Valid valid_accuracy n w) Heq) as Hlen.
  pose proof (post_run _ _ _ _ _ _ (get_valid_accuracy_batches n w) Heq) as [Hb Hfull].
  simpl in Hlen. rewrite Hlen in Hb, Hfull. split; assumption.
Qed.

(** ** What [fit] writes, and its degenerate configurations *)









Lemma updates_next (ev : list (iterator_id * nat)) : updates (map next_event ev) = [].
Proof. induction ev as [|x ev IH]; simpl; [reflexivity | exact IH]. Qed.

Lemma losses_next (ev : list (iterator_id * nat)) : losses (map next_event ev) = [].
Proof. induction ev as [|x ev IH]; simpl; [reflexivity | exact IH]. Qed.

Lemma fit_step_zero_interval verbose epoch step locals (w : world) :
  show_step = 0 ->
  post (fit_step verbose epoch step locals) w (zero_interval_outcome w).
Proof.
  intros Hk. unfold fit_step. apply post_bind. apply post_sess_run. unfold post at 1.
  destruct (update_weights_train_loss (sess w)) as [[[l|e] s] ev]; simpl.
  - apply post_bind. unfold py_mod. rewrite Hk. simpl. apply post_raise.
    split; [reflexivity|]. rewrite app_nil_r, losses_app, updates_app, losses_next, updates_next.
    split; [reflexivity|]. left. split; reflexivity.
  - split; [reflexivity|]. rewrite losses_next, updates_next.
    split; [reflexivity|]. right. eauto.
Qed.

Lemma fit_loops_zero_interval verbose locals (w : world) :
  show_step = 0 -> 1 <= epochs cfg -> 1 <= iterations ->
  post (fit_loops verbose locals) w (zero_interval_outcome w).
Proof.
  intros Hk He Hs. unfold fit_loops.
  destruct (range_pos _ He) as [es ->]. destruct (range_pos _ Hs) as [ss ->].
  simpl for_acc. apply post_bind. apply post_bind.
  eapply post_conseq; [apply (fit_step_zero_interval verbose 0 0 locals w Hk)|].
  intros r w1 t1 (Hst & Hl & [(-> & Hu)|(e & -> & Hu)]).
  - split; [exact Hst|]. split; [exact Hl|]. left. split; [reflexivity | exact Hu].
  - split; [exact Hst|]. split; [exact Hl|]. right. eauto.
Qed.

(** X11. A report interval of zero.  With [save_step = 0] and loops that
    run at all, [fit] never returns: after the first optimiser update the
    test [step % show_step] divides by zero.  The call ends with
    [ZeroDivisionError] after exactly one update, or with a framework error
    before any update; no validation loss is computed and the store is left
    as it was. *)
Theorem fit_zero_report_interval :
  forall (verbose : bool) (w : world) r w' t,
    show_step = 0 -> 1 <= epochs cfg -> 1 <= iterations ->
    fit verbose w = (r, w', t) ->
    store w' = store w /\ losses t = [] /\
    ((r = Err ZeroDivisionError /\ length (updates t) = 1%nat) \/
     (exists e, r = Err (TfError e) /\ updates t = [])).
Proof.
  intros verbose w r w' t Hk He Hs Heq.
  assert (Hpost : post (fit verbose) w (zero_interval_outcome w)).
  { unfold fit. apply post_bind. apply post_emit. apply post_with_session.
    apply post_bind. unfold post at 1. simpl.
    apply post_bind. unfold post at 1. simpl.
    apply post_bind. unfold post at 1. simpl.
    apply post_bind. apply post_sess_run. unfold post at 1.
    match goal with |- context [tf_train_loss ?s] =>
      destruct (tf_train_loss s) as [[[l|e] s1] ev] end; simpl.
    - apply post_bind.
      eapply post_conseq; [apply (fit_loops_zero_interval verbose _ _ Hk He Hs)|].
      intros r1 w1 t1 (Hst & Hl & Hr). simpl in Hst.
      assert (Hcl : forall tl, losses (EvBest inf :: EvSession :: EvInitIter Train
                      :: EvInitIter Valid :: EvGlobalInit :: tl) = losses tl)
        by reflexivity.
      assert (Hcu : forall tl, updates (EvBest inf :: EvSession :: EvInitIter Train
                      :: EvInitIter Valid :: EvGlobalInit :: tl) = updates tl)
        by reflexivity.
      destruct Hr as [(-> & Hu)|(e & -> & Hu)]; simpl;
        (split; [exact Hst|]);
        rewrite Hcl, Hcu, !losses_app, !updates_app, losses_next, updates_next, Hl; simpl;
        rewrite ?app_nil_r; (split; [reflexivity|]).
      + left. split; [reflexivity | exact Hu].
      + right. exists e. split; [reflexivity | exact Hu].
    - split; [reflexivity|].
      change (losses (map next_event ev ++ [EvClose]) = [] /\
              ((Err (TfError e) = Err ZeroDivisionError :> result error unit) /\
               length (updates (map next_event ev ++ [EvClose])) = 1%nat \/
               exists e0, (Err (TfError e) = Err (TfError e0) :> result error unit) /\
                          updates (map next_event ev ++ [EvClose]) = [])).
      rewrite !losses_app, !updates_app, losses_next, updates_next.
      split; [reflexivity|]. right. eauto. }
  exact (post_run _ _ _ _ _ _ Hpost Heq).
Qed.

Lemma for_acc_skip {E W S J A} (l : list J) (body : J -> A -> ST E W S A) (a : A) (s : S) :
  (forall i a s, body i a s = (Ok a, s, [])) -> for_acc l body a s = (Ok a, s, []).
Proof.
  intros Hbody. induction l as [|i l IH]; simpl; [reflexivity|].
  unfold bind. rewrite Hbody, IH. reflexivity.
Qed.

Lemma fit_loops_skip verbose locals (w : world) :
  epochs cfg <= 0 \/ iterations <= 0 ->
  fit_loops verbose locals w = (Ok locals, w, []).
Proof.
  intros [He|Hs]; unfold fit_loops.
  - rewrite (range_nonpos _ He). reflexivity.
  - apply for_acc_skip. intros epoch a s. rewrite (range_nonpos _ Hs). reflexivity.
Qed.

(** X12. No epochs or no steps.  When the epoch count or the step count
    is zero or negative, [fit] still opens a session, resets both
    iterators, initialises the parameters and runs the training loss once,
    consuming the first training batch; it performs no update, computes no
    validation loss, never assigns the tracker again and leaves the store
    as it was.  If that one run succeeds, the call returns. *)
Theorem fit_without_steps :
  forall (verbose : bool) (w : world) r w' t,
    epochs cfg <= 0 \/ iterations <= 0 ->
    fit verbose w = (r, w', t) ->
    store w' = store w /\ updates t = [] /\ losses t = [] /\ assigned t = [inf] /\
    ((exists l, r = Ok tt /\
                t = [EvBest inf; EvSession; EvInitIter Train; EvInitIter Valid;
                     EvGlobalInit; EvNext Train 0; EvRun FTrainLoss l; EvClose]) \/
     (exists e, r = Err (TfError e) /\ train_batches t = [] )\/
     (exists e, r = Err (TfError e) /\ train_batches t = [0%nat])).
Proof.
  intros verbose w r w' t Hno Heq. revert Heq.
  unfold fit, bind at 1, emit, with_session.
  unfold bind at 1, sess_run_initializer. unfold bind at 1. unfold bind at 1.
  unfold global_variables_initializer. unfold bind at 1.
  match goal with |- context [sess_run FTrainLoss tf_train_loss ?w3] =>
    pose proof (run_train_loss_spec w3 0%nat eq_refl) as Hspec;
    destruct (sess_run FTrainLoss tf_train_loss w3) as [[[l|e] w4] t4] eqn:Hrun
  end.
  - apply (post_run _ _ _ _ _ _ Hspec) in Hrun as Hrun'. clear Hspec.
    destruct Hrun' as (rec & p & _ & _ & _ & -> & _ & _).
    unfold sess_run, bind, lift, emit, ret in Hrun.
    match type of Hrun with context [tf_train_loss ?s] =>
      destruct (tf_train_loss s) as [[[l'|e'] s'] ev'] end; simpl in Hrun; [|discriminate].
    injection Hrun as <- <- _.
    unfold bind. rewrite (fit_loops_skip verbose _ _ Hno). simpl.
    intros H. injection H as <- <- <-. simpl.
    repeat split. left. exists l'. split; reflexivity.
  - clear Hspec. unfold sess_run, bind, lift in Hrun.
    match type of Hrun with context [tf_train_loss ?s] =>
      destruct (tf_train_loss s) as [[[l'|e'] s'] ev'] eqn:Htl end; simpl in Hrun;
      [discriminate|].
    injection Hrun as <- <- <-. simpl.
    intros H. injection H as <- <- <-. simpl.
    rewrite !updates_app, !losses_app, updates_next, losses_next. simpl.
    assert (Hass : forall ev : list (iterator_id * nat),
              assigned (map next_event ev ++ [EvClose]) = []).
    { intros ev. induction ev as [|x ev IH]; simpl; [reflexivity | exact IH]. }
    rewrite Hass. repeat split.
    unfold tf_train_loss, next_batch, bind, get_next, reshape_images, reshape_labels,
      read_variables, ret, raise in Htl. simpl in Htl.
    destruct (train_records 0%nat) as [rec|]; simpl in Htl.
    2:{ injection Htl as <- _ <-. right. left. eauto. }
    destruct (length (concat (images rec)) =? batch_size cfg * flat_size)%nat; simpl in Htl.
    2:{ injection Htl as <- _ <-. right. right. eauto. }
    destruct (length (labels rec) =? batch_size cfg)%nat; simpl in Htl.
    2:{ injection Htl as <- _ <-. right. right. eauto. }
    discriminate.
Qed.

(** ** [verbose] *)

Lemma erase_prints_app (t1 t2 : list event) :
  erase_prints (t1 ++ t2) = erase_prints t1 ++ erase_prints t2.
Proof. unfold erase_prints. apply flat_map_app. Qed.

Lemma erase_prints_next (ev : list (iterator_id * nat)) :
  erase_prints (map next_event ev) = map next_event ev.
Proof. induction ev as [|x ev IH]; simpl; [reflexivity | f_equal; exact IH]. Qed.

Lemma print_sim_bind {A B} (m1 m2 : M A) (k1 k2 : A -> M B) :
  print_sim m1 m2 -> (forall a, print_sim (k1 a) (k2 a)) ->
  print_sim (bind m1 k1) (bind m2 k2).
Proof.
  intros Hm Hk w. destruct (Hm w) as [H1 H2]. unfold bind.
  destruct (m1 w) as [[r1 s1] t1], (m2 w) as [[r2 s2] t2]. simpl in H1, H2.
  injection H1 as -> ->. subst t2. destruct r2 as [a|e]; simpl.
  - destruct (Hk a s2) as [H3 H4].
    destruct (k1 a s2) as [[r3 s3] t3], (k2 a s2) as [[r4 s4] t4]. simpl in H3, H4.
    injection H3 as -> ->. subst t4. simpl. rewrite erase_prints_app. auto.
  - auto.
Qed.

Lemma print_sim_silent {A} (m : M A) :
  (forall w, erase_prints (m w).2 = (m w).2) -> print_sim m m.
Proof. intros H w. split; [reflexivity | apply H]. Qed.

Lemma print_sim_for_acc {J A} (l : list J) (b1 b2 : J -> A -> M A) (a : A) :
  (forall i a, print_sim (b1 i a) (b2 i a)) ->
  print_sim (for_acc l b1 a) (for_acc l b2 a).
Proof.
  intros Hbody. revert a. induction l as [|i l IH]; intros a; simpl.
  - apply print_sim_silent. reflexivity.
  - apply print_sim_bind; [apply Hbody | exact IH].
Qed.

Lemma print_sim_sess_run (f : fetch) (tm : TM scalar) :
  print_sim (sess_run f tm) (sess_run f tm).
Proof.
  apply print_sim_silent. intros w. unfold sess_run, bind, lift, emit, ret.
  destruct (tm (sess w)) as [[[v|e] s] ev]; simpl.
  - rewrite erase_prints_app, erase_prints_next. reflexivity.
  - apply erase_prints_next.
Qed.

Lemma print_sim_saver_save path : print_sim (saver_save path) (saver_save path).
Proof.
  apply print_sim_silent. intros w. unfold saver_save.
  destruct (variables (sess w)); reflexivity.
Qed.

Lemma print_sim_fit_step epoch step locals :
  print_sim (fit_step true epoch step locals) (fit_step false epoch step locals).
Proof.
  unfold fit_step. apply print_sim_bind; [apply print_sim_sess_run|].
  intros l. apply print_sim_bind.
  { apply print_sim_silent. intros w. unfold py_mod.
    destruct (show_step =? 0); reflexivity. }
  intros r. destruct (r =? 0).
  2:{ apply print_sim_silent. reflexivity. }
  apply print_sim_bind.
  { intros w. split; reflexivity. }
  intros _. apply print_sim_bind; [apply print_sim_sess_run|].
  intros v. destruct (slt v (snd locals)).
  2:{ apply print_sim_silent. reflexivity. }
  apply print_sim_bind; [apply print_sim_saver_save|].
  intros _. apply print_sim_silent. reflexivity.
Qed.

Lemma print_sim_fit : print_sim (fit true) (fit false).
Proof.
  unfold fit. apply print_sim_bind; [apply print_sim_silent; reflexivity|].
  intros _ w.
  assert (Hbody : print_sim
            (sess_run_initializer Train ;; sess_run_initializer Valid ;;
             global_variables_initializer ;;
             show_loss <- sess_run FTrainLoss tf_train_loss ;;
             fit_loops true (show_loss, inf) ;; ret tt)
            (sess_run_initializer Train ;; sess_run_initializer Valid ;;
             global_variables_initializer ;;
             show_loss <- sess_run FTrainLoss tf_train_loss ;;
             fit_loops false (show_loss, inf) ;; ret tt)).
  { apply print_sim_bind; [apply print_sim_silent; reflexivity|].
    intros _. apply print_sim_bind; [apply print_sim_silent; reflexivity|].
    intros _. apply print_sim_bind; [apply print_sim_silent; reflexivity|].
    intros _. apply print_sim_bind; [apply print_sim_sess_run|].
    intros l. apply print_sim_bind; [|intros _; apply print_sim_silent; reflexivity].
    unfold fit_loops. apply print_sim_for_acc. intros epoch a.
    apply print_sim_for_acc. intros step a'. apply print_sim_fit_step. }
  destruct (Hbody (set_sess w fresh_session)) as [H1 H2]. unfold with_session.
  match type of H1 with (?b1 _).1 = (?b2 _).1 =>
    destruct (b1 (set_sess w fresh_session)) as [[r1 s1] t1],
             (b2 (set_sess w fresh_session)) as [[r2 s2] t2] end.
  simpl in H1, H2. injection H1 as -> ->. subst t2. simpl.
  rewrite erase_prints_app. auto.
Qed.

(** X13. [verbose] changes what is printed and nothing else.  From the
    same state, a verbose and a silent call of [fit] end with the same
    outcome and the same state (store, parameters, iterators), and make the
    same calls with the same results: the silent trace is the verbose one
    without its progress lines. *)
Theorem fit_verbose_only_prints :
  forall (w : world) r w' t,
    fit true w = (r, w', t) ->
    fit false w = (r, w', erase_prints t).
Proof.
  intros w r w' t Heq. destruct (print_sim_fit w) as [H1 H2].
  rewrite Heq in H1, H2. simpl in H1, H2.
  destruct (fit false w) as [[r2 w2] t2]. simpl in H1, H2.
  injection H1 as -> ->. subst t2. reflexivity.
Qed.

(** ** The progress lines *)

Lemma locals_after_app (show best : scalar) (t1 t2 : list event) :
  locals_after show best (t1 ++ t2)
  = locals_after (fst (locals_after show best t1)) (snd (locals_after show best t1)) t2.
Proof.
  revert show best. induction t1 as [|e t1 IH]; intros show best; simpl; [reflexivity|].
  destruct e; try apply IH. destruct f; apply IH.
Qed.

Lemma prints_show_app (show best : scalar) (t1 t2 : list event) :
  prints_show show best (t1 ++ t2) <->
  prints_show show best t1 /\
  prints_show (fst (locals_after show best t1)) (snd (locals_after show best t1)) t2.
Proof.
  revert show best. induction t1 as [|e t1 IH]; intros show best; simpl; [tauto|].
  destruct e; try apply IH.
  - destruct f; apply IH.
  - rewrite IH. tauto.
Qed.

Lemma locals_after_next (show best : scalar) (ev : list (iterator_id * nat)) :
  locals_after show best (map next_event ev) = (show, best).
Proof. induction ev as [|x ev IH]; simpl; [reflexivity | exact IH]. Qed.

Lemma prints_show_next (show best : scalar) (ev : list (iterator_id * nat)) :
  prints_show show best (map next_event ev).
Proof. induction ev as [|x ev IH]; simpl; [exact I | exact IH]. Qed.

Lemma shows_bind_trace (locals : scalar * scalar) (t1 t2 : list event)
    (r : result error (scalar * scalar)) :
  prints_show (fst locals) (snd locals) t1 ->
  shows (locals_after (fst locals) (snd locals) t1) r t2 ->
  shows locals r (t1 ++ t2).
Proof.
  intros H1 [H2 Hr]. split.
  - apply prints_show_app. split; assumption.
  - destruct r as [l'|e]; [|exact I]. rewrite locals_after_app. exact Hr.
Qed.

Lemma shows_loop {J} (body : J -> scalar * scalar -> M (scalar * scalar)) (l : list J) :
  (forall i a w, post (body i a) w (fun r _ t => shows a r t)) ->
  forall a w, post (for_acc l body a) w (fun r _ t => shows a r t).
Proof.
  intros Hbody. induction l as [|i l IH]; intros a w; simpl.
  - apply post_ret. split; [exact I | destruct a; reflexivity].
  - apply post_bind. eapply post_conseq; [apply Hbody|].
    intros [a1|e] w1 t1 [H1 Hr1]; simpl.
    + subst a1. eapply post_conseq; [apply IH|].
      simpl. intros r w2 t2 H2. apply shows_bind_trace; assumption.
    + split; [exact H1 | exact I].
Qed.

Lemma fit_step_shows verbose epoch step (locals : scalar * scalar) (w : world) :
  post (fit_step verbose epoch step locals) w (fun r _ t => shows locals r t).
Proof.
  destruct locals as [sl b]. unfold fit_step. simpl snd.
  apply post_bind. apply post_sess_run. unfold post at 1.
  destruct (update_weights_train_loss (sess w)) as [[[l|e] s1] ev1]; simpl.
  2:{ split; [apply prints_show_next | exact I]. }
  assert (Hpre : forall t (r : result error (scalar * scalar)),
            shows (l, b) r t ->
            shows (sl, b) r ((map next_event ev1 ++ [EvRun FUpdateTrainLoss l]) ++ t)).
  { intros t r H. rewrite <- app_assoc. apply shows_bind_trace.
    - apply prints_show_next.
    - simpl fst. simpl snd. rewrite locals_after_next. simpl. exact H. }
  eapply post_conseq; [|intros r w' t H; apply Hpre; exact H].
  apply post_bind. unfold py_mod. destruct (show_step =? 0).
  { apply post_raise. split; exact I. }
  apply post_ret. destruct (step mod show_step =? 0).
  2:{ apply post_ret. split; [exact I | reflexivity]. }
  assert (Hgoal : forall w1 : world,
            post (valid_loss <- sess_run FValidLoss tf_valid_loss ;;
                  (if slt valid_loss b
                   then saver_save save_path ;; emit (EvBest valid_loss) ;; ret (l, valid_loss)
                   else ret (l, b)))
              w1 (fun r _ t => shows (l, b) r t)).
  { intros w1. apply post_bind. apply post_sess_run. unfold post at 1.
    destruct (tf_valid_loss (sess w1)) as [[[v|e] s2] ev2]; simpl.
    2:{ split; [apply prints_show_next | exact I]. }
    assert (Hpre2 : forall t (r : result error (scalar * scalar)),
              shows (l, b) r t ->
              shows (l, b) r ((map next_event ev2 ++ [EvRun FValidLoss v]) ++ t)).
    { intros t r H. rewrite <- app_assoc. apply shows_bind_trace.
      - apply prints_show_next.
      - simpl fst. simpl snd. rewrite locals_after_next. simpl. exact H. }
    eapply post_conseq; [|intros r w' t H; apply Hpre2; exact H].
    destruct (slt v b).
    - unfold post, bind, saver_save, emit, ret.
      destruct (variables (sess (set_sess w1 s2))); simpl.
      + split; [exact I | reflexivity].
      + split; exact I.
    - apply post_ret. split; [exact I | reflexivity]. }
  apply post_bind. destruct verbose.
  - apply post_emit. eapply post_conseq; [apply Hgoal|].
    simpl. intros r w' t [H1 H2]. split; [|exact H2]. simpl. auto.
  - apply post_ret. eapply post_conseq; [apply Hgoal|].
    simpl. intros r w' t H. exact H.
Qed.

Lemma fit_prints_show verbose (w : world) (x y : scalar) :
  post (fit verbose) w (fun _ _ t => prints_show x y t).
Proof.
  unfold fit. apply post_bind. apply post_emit. apply post_with_session.
  apply post_bind. unfold post at 1. simpl.
  apply post_bind. unfold post at 1. simpl.
  apply post_bind. unfold post at 1. simpl.
  apply post_bind. apply post_sess_run. unfold post at 1.
  match goal with |- context [tf_train_loss ?s] =>
    destruct (tf_train_loss s) as [[[l|e] s1] ev] end; simpl.
  - apply post_bind.
    eapply post_conseq.
    { apply (shows_loop
               (fun epoch locals => for_acc (range iterations) (fit_step verbose epoch) locals)).
      intros epoch a w0. apply shows_loop. intros step a0 w1. apply fit_step_shows. }
    intros r w1 t1 [Hshow _]. simpl in Hshow.
    assert (Hall : forall t2 : list event, t2 = [] ->
              prints_show x inf
                (((map next_event ev ++ [EvRun FTrainLoss l]) ++ t1 ++ t2) ++ [EvClose])).
    { intros t2 ->. rewrite app_nil_r, <- !app_assoc.
      apply prints_show_app. split; [apply prints_show_next|].
      rewrite locals_after_next. simpl.
      apply prints_show_app. split; [exact Hshow | exact I]. }
    destruct r as [locals'|e]; simpl.
    + apply post_ret. apply Hall. reflexivity.
    + rewrite <- (app_nil_r t1). apply Hall. reflexivity.
  - apply prints_show_app. split; [apply prints_show_next | exact I].
Qed.

Lemma default_last_cons {A} (d x : A) (l : list A) :
  default d (last (x :: l)) = default x (last l).
Proof.
  revert d x. induction l as [|y l IH]; intros d x; [reflexivity|].
  change (last (x :: y :: l)) with (last (y :: l)). rewrite (IH d y), (IH x y).
  reflexivity.
Qed.

Lemma locals_after_last (show best : scalar) (t : list event) :
  locals_after show best t
  = (default show (last (train_losses t)), default best (last (assigned t))).
Proof.
  revert show best. induction t as [|e t IH]; intros show best; [reflexivity|].
  destruct e; try exact (IH show best).
  - destruct f; try exact (IH show best).
    + simpl locals_after. rewrite IH.
      change (train_losses (EvRun FTrainLoss v :: t)) with (v :: train_losses t).
      rewrite default_last_cons. reflexivity.
    + simpl locals_after. rewrite IH.
      change (train_losses (EvRun FUpdateTrainLoss v :: t)) with (v :: train_losses t).
      rewrite default_last_cons. reflexivity.
  - simpl locals_after. rewrite IH.
    change (assigned (EvBest b :: t)) with (b :: assigned t).
    rewrite default_last_cons. reflexivity.
Qed.

(** X14. What a progress line shows.  In a call of [fit], every line
    printed shows as train loss the loss of the update just run, and as
    "valid_loss" the tracker as it is at that moment, that is the best
    validation loss of the report steps before this one (+infinity until a
    save has happened), not the validation loss of the report step being
    printed, which is computed after the line. *)
Theorem fit_progress_line_shows_locals :
  forall (verbose : bool) (w : world) r w' t,
    fit verbose w = (r, w', t) ->
    forall pre epoch step l b post,
      t = pre ++ EvPrint epoch step l b :: post ->
      last (train_losses pre) = Some l /\ last (assigned pre) = Some b.
Proof.
  intros verbose w r w' t Heq pre epoch step l b post ->.
  pose proof (post_run _ _ _ _ _ _ (fit_prints_show verbose w SNaN SNaN) Heq) as H1.
  pose proof (post_run _ _ _ _ _ _ (fit_prints_show verbose w inf inf) Heq) as H2.
  simpl in H1, H2.
  apply prints_show_app in H1, H2. destruct H1 as [_ H1], H2 as [_ H2].
  rewrite locals_after_last in H1, H2. simpl in H1, H2.
  destruct H1 as (Hl1 & Hb1 & _), H2 as (Hl2 & Hb2 & _).
  split.
  - destruct (last (train_losses pre)) as [x|]; simpl in *; [congruence|].
    subst l. discriminate.
  - destruct (last (assigned pre)) as [x|]; simpl in *; [congruence|].
    subst b. discriminate.
Qed.

(** ** The number of report steps *)

Lemma computes_losses_bind {A B} n1 n2 (m : M A) (f : A -> M B) :
  computes_losses n1 m -> (forall a, computes_losses n2 (f a)) ->
  computes_losses (n1 + n2) (bind m f).
Proof.
  intros Hm Hf w. apply post_bind.
  eapply post_conseq; [apply Hm|]. intros [a|e] w1 t1 H1; simpl; [|exact I].
  eapply post_conseq; [apply Hf|]. intros [b|e] w2 t2 H2; simpl; [|exact I].
  rewrite losses_app, length_app. lia.
Qed.

Lemma computes_losses_pure {A} (r : result error A) (t : list event) (f : world -> world) :
  losses t = [] -> computes_losses 0 (fun w => (r, f w, t)).
Proof. intros Ht w. unfold post. simpl. destruct r; [rewrite Ht; reflexivity | exact I]. Qed.

Lemma computes_losses_for_acc {J A} (c : J -> nat) (l : list J)
    (body : J -> A -> M A) (a : A) :
  (forall i a, computes_losses (c i) (body i a)) ->
  computes_losses (sum_list (map c l)) (for_acc l body a).
Proof.
  intros Hbody. revert a. induction l as [|i l IH]; intros a; simpl.
  - apply (computes_losses_pure (Ok a) [] (fun w => w)). reflexivity.
  - apply computes_losses_bind; [apply Hbody | exact IH].
Qed.

Lemma computes_losses_sess_run (f : fetch) (tm : TM scalar) :
  computes_losses (match f with FValidLoss => 1 | _ => 0 end) (sess_run f tm).
Proof.
  intros w. apply post_sess_run. unfold post.
  destruct (tm (sess w)) as [[[v|e] s] ev]; simpl; [|exact I].
  rewrite losses_app, losses_next. destruct f; reflexivity.
Qed.

Lemma computes_losses_fit_step verbose epoch step locals :
  computes_losses (is_report_step step) (fit_step verbose epoch step locals).
Proof.
  unfold fit_step.
  apply (computes_losses_bind 0 (is_report_step step));
    [apply (computes_losses_sess_run FUpdateTrainLoss)|].
  intros l w. apply post_bind. unfold py_mod, is_report_step.
  destruct (show_step =? 0); [exact I|]. apply post_ret.
  destruct (step mod show_step =? 0).
  2:{ apply post_ret. reflexivity. }
  eapply post_conseq.
  { apply (computes_losses_bind 0 1).
    - destruct verbose.
      + apply (computes_losses_pure (Ok tt) [_] (fun w => w)). reflexivity.
      + apply (computes_losses_pure (Ok tt) [] (fun w => w)). reflexivity.
    - intros _. apply (computes_losses_bind 1 0);
        [apply (computes_losses_sess_run FValidLoss)|].
      intros v. destruct (slt v (snd locals)).
      + apply (computes_losses_bind 0 0).
        * intros w0. unfold post, saver_save.
          destruct (variables (sess w0)); simpl; [reflexivity | exact I].
        * intros _. apply (computes_losses_bind 0 0).
          -- apply (computes_losses_pure (Ok tt) [_] (fun w => w)). reflexivity.
          -- intros _. apply (computes_losses_pure _ [] (fun w => w)). reflexivity.
      + apply (computes_losses_pure _ [] (fun w => w)). reflexivity. }
  intros r w' t H. exact H.
Qed.

Lemma sum_list_constant {J} (k : nat) (l : list J) :
  sum_list (map (fun _ => k) l) = (length l * k)%nat.
Proof. induction l as [|i l IH]; simpl; [reflexivity | rewrite IH; reflexivity]. Qed.

Lemma computes_losses_fit_loops verbose locals :
  computes_losses (Z.to_nat (epochs cfg) * report_steps) (fit_loops verbose locals).
Proof.
  unfold fit_loops. rewrite <- (length_range (epochs cfg)), <- sum_list_constant.
  apply (computes_losses_for_acc (fun _ => report_steps)). intros epoch a.
  unfold report_steps. apply computes_losses_for_acc. intros step a'.
  apply computes_losses_fit_step.
Qed.

Lemma computes_losses_fit verbose :
  computes_losses (Z.to_nat (epochs cfg) * report_steps) (fit verbose).
Proof.
  intros w. unfold fit. apply post_bind. apply post_emit. apply post_with_session.
  apply post_bind. unfold post at 1. simpl.
  apply post_bind. unfold post at 1. simpl.
  apply post_bind. unfold post at 1. simpl.
  eapply post_conseq.
  { apply (computes_losses_bind 0 (Z.to_nat (epochs cfg) * report_steps)
             (sess_run FTrainLoss tf_train_loss)
             (fun show_loss => fit_loops verbose (show_loss, inf) ;; ret tt)).
    - apply (computes_losses_sess_run FTrainLoss).
    - intros l. rewrite <- (Nat.add_0_r (Z.to_nat (epochs cfg) * report_steps)).
      apply computes_losses_bind; [apply computes_losses_fit_loops|].
      intros _. apply (computes_losses_pure _ [] (fun w => w)). reflexivity. }
  intros [[]|e] w' t H; simpl; [|exact I].
  change (length (losses (t ++ [EvClose])) = (Z.to_nat (epochs cfg) * report_steps)%nat).
  rewrite losses_app, length_app. simpl in *. lia.
Qed.

(** Rounding up a quotient, one numerator at a time. *)
Lemma ceil_div_step (n k : Z) :
  0 < k -> 0 <= n ->
  (n + 1 + k - 1) / k = (n + k - 1) / k + (if n mod k =? 0 then 1 else 0).
Proof.
  intros Hk Hn.
  pose proof (Z.div_mod n k ltac:(lia)) as Hdiv.
  pose proof (Z.mod_pos_bound n k Hk) as Hmod.
  destruct (n mod k =? 0) eqn:E.
  - apply Z.eqb_eq in E.
    rewrite <- (Z.div_unique (n + 1 + k - 1) k (n / k + 1) 0) by lia.
    rewrite <- (Z.div_unique (n + k - 1) k (n / k) (k - 1)) by lia.
    lia.
  - apply Z.eqb_neq in E.
    rewrite <- (Z.div_unique (n + 1 + k - 1) k (n / k + 1) (n mod k)) by lia.
    rewrite <- (Z.div_unique (n + k - 1) k (n / k + 1) (n mod k - 1)) by lia.
    lia.
Qed.

Lemma report_steps_upto (n : nat) :
  0 < show_step ->
  Z.of_nat (sum_list (map is_report_step (map Z.of_nat (seq 0 n))))
  = (Z.of_nat n + show_step - 1) / show_step.
Proof.
  intros Hk. induction n as [|n IH].
  - simpl. symmetry. apply Z.div_small. lia.
  - rewrite seq_S, !map_app, sum_list_with_app. simpl.
    rewrite Nat2Z.inj_add, IH, Nat.add_0_r.
    replace (Z.of_nat (S n) + show_step - 1) with (Z.of_nat n + 1 + show_step - 1) by lia.
    rewrite ceil_div_step by lia. unfold is_report_step.
    destruct (Z.of_nat n mod show_step =? 0); reflexivity.
Qed.

(** X15. How many validation losses a call computes.  A call of [fit]
    that returns has computed one validation loss per report step, that is
    per step whose number is a multiple of the report interval, in every
    epoch.  With a positive interval [k] and [E] epochs of [S] steps that
    makes E * ceil(S / k) losses: the first step of every epoch is always a
    report step. *)
Theorem fit_validation_loss_count :
  forall (verbose : bool) (w : world) w' t,
    fit verbose w = (Ok tt, w', t) ->
    length (losses t) = (Z.to_nat (epochs cfg) * report_steps)%nat /\
    (0 < show_step -> 0 <= epochs cfg -> 0 <= iterations ->
     Z.of_nat (length (losses t))
     = epochs cfg * ((iterations + show_step - 1) / show_step)).
Proof.
  intros verbose w w' t Heq.
  pose proof (post_run _ _ _ _ _ _ (computes_losses_fit verbose w) Heq) as Hlen.
  simpl in Hlen. split; [exact Hlen|].
  intros Hk He Hs. rewrite Hlen, Nat2Z.inj_mul. unfold report_steps, range.
  rewrite report_steps_upto by exact Hk. rewrite !Z2Nat.id by lia. reflexivity.
Qed.

(** ** The snapshot in the store is the best one *)

Lemma post_and {E W S A} (m : ST E W S A) s (Q1 Q2 : result E A -> S -> list W -> Prop) :
  post m s Q1 -> post m s Q2 -> post m s (fun r s' t => Q1 r s' t /\ Q2 r s' t).
Proof. unfold post. auto. Qed.

Lemma written_store d0 (b : scalar) (w w' : world) :
  store w' = store w -> written d0 b w -> written d0 b w'.
Proof. unfold written. intros ->. auto. Qed.

(** A run of the validation loss: the loss of the current parameters on
    the next validation batch; parameters and store stay as they are. *)
Lemma run_valid_loss_value (w : world) :
  post (sess_run FValidLoss tf_valid_loss) w (fun r w' t =>
    store w' = store w /\
    match r with
    | Ok v => exists rec p j,
        valid_records j = Some rec /\ variables (sess w') = Some p /\
        v = loss p (batch_images rec) (labels rec) /\
        t = [EvNext Valid j; EvRun FValidLoss v]
    | Err _ => exists ev : list (iterator_id * nat), t = map next_event ev
    end).
Proof.
  apply post_sess_run.
  unfold post, tf_valid_loss, next_batch, bind, get_next, reshape_images,
    reshape_labels, read_variables, ret, raise. simpl.
  destruct (valid_pos (sess w)) as [j|]; simpl; [|split; [reflexivity | exists []; reflexivity]].
  destruct (valid_records j) as [rec|] eqn:Hrec; simpl;
    [|split; [reflexivity | exists []; reflexivity]].
  destruct (length (concat (images rec)) =? batch_size cfg * flat_size)%nat; simpl;
    [|split; [reflexivity | exists [(Valid, j)]; reflexivity]].
  destruct (length (labels rec) =? batch_size cfg)%nat; simpl;
    [|split; [reflexivity | exists [(Valid, j)]; reflexivity]].
  destruct (variables (sess w)) as [p|] eqn:Hp; simpl;
    [|split; [reflexivity | exists [(Valid, j)]; reflexivity]].
  split; [reflexivity|]. exists rec, p, j. repeat split; auto.
Qed.

Lemma fit_step_written d0 verbose epoch step (locals : scalar * scalar) (w : world) :
  written d0 (snd locals) w ->
  post (fit_step verbose epoch step locals) w (fun _ w' t =>
    written d0 (snd (locals_after (fst locals) (snd locals) t)) w').
Proof.
  destruct locals as [sl b]. simpl fst. simpl snd. intros Hbest. unfold fit_step.
  apply post_bind. apply post_sess_run. unfold post at 1.
  destruct (update_weights_train_loss (sess w)) as [[[l|e] s1] ev1]; simpl.
  2:{ rewrite locals_after_next. exact Hbest. }
  assert (Hpre : forall t w', written d0 (snd (locals_after l b t)) w' ->
            written d0
              (snd (locals_after sl b ((map next_event ev1 ++ [EvRun FUpdateTrainLoss l]) ++ t)))
              w').
  { intros t w' H. rewrite <- app_assoc, locals_after_app, locals_after_next. exact H. }
  eapply post_conseq; [|intros r w' t H; apply Hpre; exact H].
  apply post_bind. unfold py_mod. destruct (show_step =? 0).
  { apply post_raise. exact Hbest. }
  apply post_ret. destruct (step mod show_step =? 0).
  2:{ apply post_ret. exact Hbest. }
  assert (Hgoal : post (valid_loss <- sess_run FValidLoss tf_valid_loss ;;
                        (if slt valid_loss b
                         then saver_save save_path ;; emit (EvBest valid_loss) ;;
                              ret (l, valid_loss)
                         else ret (l, b)))
                    (set_sess w s1)
                    (fun _ w' t => written d0 (snd (locals_after l b t)) w')).
  { apply post_bind. eapply post_conseq; [apply run_valid_loss_value|].
    intros [v|e] w2 t2 [Hst H]; simpl.
    2:{ destruct H as [ev ->]. rewrite locals_after_next.
        eapply written_store; [exact Hst | exact Hbest]. }
    destruct H as (rec & p & j & Hrec & Hp & Hv & ->).
    destruct (slt v b) eqn:Hlt.
    - unfold post, bind, saver_save, emit, ret. rewrite Hp. simpl.
      right. split; [exact (slt_below_inf _ _ Hlt)|].
      exists p, rec, j. split; [|split; assumption].
      simpl in Hst. simpl. rewrite Hst.
      destruct Hbest as [[_ ->]|(_ & p0 & _ & _ & -> & _)];
        [reflexivity | apply write_checkpoint_twice].
    - apply post_ret. simpl. eapply written_store; [exact Hst | exact Hbest]. }
  apply post_bind. destruct verbose.
  - apply post_emit. eapply post_conseq; [apply Hgoal|]. simpl. auto.
  - apply post_ret. eapply post_conseq; [apply Hgoal|]. simpl. auto.
Qed.

Lemma written_loop {J} d0 (body : J -> scalar * scalar -> M (scalar * scalar)) (l : list J) :
  (forall i a w, post (body i a) w (fun r _ t => shows a r t)) ->
  (forall i a w, written d0 (snd a) w ->
     post (body i a) w (fun _ w' t =>
       written d0 (snd (locals_after (fst a) (snd a) t)) w')) ->
  forall a w, written d0 (snd a) w ->
    post (for_acc l body a) w (fun _ w' t =>
      written d0 (snd (locals_after (fst a) (snd a) t)) w').
Proof.
  intros Hshows Hbody. induction l as [|i l IH]; intros a w Hbest; simpl.
  - apply post_ret. exact Hbest.
  - apply post_bind.
    eapply post_conseq; [apply (post_and _ _ _ _ (Hshows i a w) (Hbody i a w Hbest))|].
    intros [a1|e] w1 t1 [[_ Hr] H1]; simpl; [|exact H1].
    subst a1. eapply post_conseq; [apply IH; exact H1|].
    simpl. intros _ w2 t2 H2. rewrite locals_after_app. exact H2.
Qed.

Lemma fit_loops_written d0 verbose (locals : scalar * scalar) (w : world) :
  written d0 (snd locals) w ->
  post (fit_loops verbose locals) w (fun _ w' t =>
    written d0 (snd (locals_after (fst locals) (snd locals) t)) w').
Proof.
  unfold fit_loops. apply written_loop.
  - intros epoch a w0. apply shows_loop. intros step a0 w1. apply fit_step_shows.
  - intros epoch a w0 Hbest. apply written_loop; [| |exact Hbest].
    + intros step a0 w1. apply fit_step_shows.
    + intros step a0 w1. apply fit_step_written.
Qed.

Lemma fit_written verbose (w : world) :
  post (fit verbose) w (fun _ w' t =>
    written (store w) (default inf (last (assigned t))) w').
Proof.
  unfold fit. apply post_bind. apply post_emit. apply post_with_session.
  apply post_bind. unfold post at 1. simpl.
  apply post_bind. unfold post at 1. simpl.
  apply post_bind. unfold post at 1. simpl.
  apply post_bind. apply post_sess_run. unfold post at 1.
  match goal with |- context [tf_train_loss ?s] =>
    destruct (tf_train_loss s) as [[[l|e] s1] ev] end; simpl.
  - apply post_bind.
    eapply post_conseq; [apply (fit_loops_written (store w) verbose (l, inf)); left; split; reflexivity|].
    intros r w1 t1 Hb. cbv beta in Hb. rewrite locals_after_last in Hb. simpl in Hb.
    assert (Hass : forall t1 t2, assigned (t1 ++ t2) = assigned t1 ++ assigned t2).
    { intros. unfold assigned. apply flat_map_app. }
    assert (Hnext : assigned (map next_event ev) = []).
    { clear. induction ev as [|x ev IH]; simpl; [reflexivity | exact IH]. }
    destruct r as [locals'|e]; simpl.
    + apply post_ret. rewrite default_last_cons, !Hass, Hnext. simpl.
      rewrite !app_nil_r. exact Hb.
    + rewrite default_last_cons, !Hass, Hnext. simpl.
      rewrite !app_nil_r. exact Hb.
  - left. split; [|reflexivity]. rewrite default_last_cons.
    assert (Hass : forall t1 t2, assigned (t1 ++ t2) = assigned t1 ++ assigned t2).
    { intros. unfold assigned. apply flat_map_app. }
    assert (Hnext : assigned (map next_event ev) = []).
    { clear. induction ev as [|x ev IH]; simpl; [reflexivity | exact IH]. }
    rewrite Hass, Hnext. reflexivity.
Qed.

Lemma written_best d0 (b : scalar) (w : world) : written d0 b w -> best_saved b w.
Proof.
  intros [[-> _]|(_ & p & rec & j & Hs & Hrec & Hb)]; [left; reflexivity|].
  right. exists p, rec, j. rewrite Hs. split; [apply read_write_checkpoint|].
  split; assumption.
Qed.

Lemma fit_best verbose (w : world) :
  post (fit verbose) w (fun _ w' t => best_saved (default inf (last (assigned t))) w').
Proof.
  eapply post_conseq; [apply fit_written|]. simpl. intros _ w' t. apply written_best.
Qed.

(** ** Each validation loss is computed on its batch *)

Lemma pairs_valid_bind {A B} (m : M A) (f : A -> M B) :
  pairs_valid m -> (forall a, pairs_valid (f a)) -> pairs_valid (bind m f).
Proof.
  intros Hm Hf w. apply post_bind.
  eapply post_conseq; [apply Hm|].
  intros [a|e] w1 t1 [Hi1 H1]; simpl; [|split; [exact Hi1 | exact I]].
  eapply post_conseq; [apply Hf|].
  intros r2 w2 t2 [Hi2 H2]. simpl. split; [apply Forall_app; split; assumption|].
  destruct r2 as [b|e]; [|exact I].
  rewrite valid_batches_app, losses_app. apply Forall2_app; assumption.
Qed.

Lemma pairs_valid_frame {A} (m : M A) :
  (forall w, post m w (fun _ _ t =>
     Forall (fun e => is_valid_init e = false) t /\
     valid_batches t = [] /\ losses t = [])) ->
  pairs_valid m.
Proof.
  intros H w. eapply post_conseq; [apply H|].
  intros r w' t (Hi & Hb & Hl). simpl. split; [exact Hi|].
  destruct r; [|exact I]. rewrite Hb, Hl. constructor.
Qed.

Lemma pairs_valid_for_acc {J A} (l : list J) (body : J -> A -> M A) (a : A) :
  (forall i a, pairs_valid (body i a)) -> pairs_valid (for_acc l body a).
Proof.
  intros Hbody. revert a. induction l as [|i l IH]; intros a; simpl.
  - apply pairs_valid_frame. intros w. apply post_ret. repeat split; constructor.
  - apply pairs_valid_bind; [apply Hbody | exact IH].
Qed.

Lemma pairs_valid_loss : pairs_valid (sess_run FValidLoss tf_valid_loss).
Proof.
  intros w. eapply post_conseq; [apply run_valid_loss_value|].
  intros [v|e] w' t [_ H]; simpl.
  - destruct H as (rec & p & j & Hrec & _ & Hv & ->).
    split; [repeat constructor|]. simpl. constructor; [|constructor].
    exists rec, p. split; assumption.
  - destruct H as [ev ->]. split; [|exact I].
    apply Forall_forall. intros x Hx. apply list_elem_of_fmap in Hx.
    destruct Hx as (y & -> & _). reflexivity.
Qed.

(** A run over the train iterator shows no validation batch. *)
Lemma pairs_valid_train (f : fetch) (tm : TM scalar) :
  f <> FValidLoss ->
  (tm = tf_train_loss \/ tm = update_weights_train_loss) ->
  pairs_valid (sess_run f tm).
Proof.
  intros Hf Htm. apply pairs_valid_frame. intros w. apply post_sess_run.
  destruct f; try congruence;
    destruct Htm as [-> | ->];
    unfold post, tf_train_loss, update_weights_train_loss, next_batch, bind, get_next,
      reshape_images, reshape_labels, read_variables, assign_variables, ret, raise; simpl;
    (destruct (train_pos (sess w)) as [i|]; simpl; [|repeat split; repeat constructor]);
    (destruct (train_records i) as [rec|]; simpl; [|repeat split; repeat constructor]);
    (destruct (length (concat (images rec)) =? batch_size cfg * flat_size)%nat;
       simpl; [|repeat split; repeat constructor]);
    (destruct (length (labels rec) =? batch_size cfg)%nat; simpl;
       [|repeat split; repeat constructor]);
    (destruct (variables (sess w)) as [p|]; simpl; repeat split; repeat constructor).
Qed.

Lemma pairs_valid_one {A} (r : result error A) (t : list event) (f : world -> world) :
  Forall (fun e => is_valid_init e = false) t -> valid_batches t = [] -> losses t = [] ->
  pairs_valid (fun w => (r, f w, t)).
Proof.
  intros Hi Hb Hl. apply pairs_valid_frame. intros w. unfold post. simpl. auto.
Qed.

Lemma pairs_valid_fit_step verbose epoch step locals :
  pairs_valid (fit_step verbose epoch step locals).
Proof.
  unfold fit_step.
  apply pairs_valid_bind; [apply pairs_valid_train; [discriminate | auto]|].
  intros l. apply pairs_valid_bind.
  { unfold py_mod. destruct (show_step =? 0);
      apply (pairs_valid_one _ [] (fun w => w)); constructor. }
  intros r. destruct (r =? 0).
  2:{ apply (pairs_valid_one _ [] (fun w => w)); constructor. }
  apply pairs_valid_bind.
  { destruct verbose.
    - apply (pairs_valid_one (Ok tt) [_] (fun w => w)); repeat constructor.
    - apply (pairs_valid_one (Ok tt) [] (fun w => w)); constructor. }
  intros _. apply pairs_valid_bind; [apply pairs_valid_loss|].
  intros v. destruct (slt v (snd locals)).
  2:{ apply (pairs_valid_one _ [] (fun w => w)); constructor. }
  apply pairs_valid_bind.
  { apply pairs_valid_frame. intros w. unfold post, saver_save.
    destruct (variables (sess w)); simpl; repeat split; repeat constructor. }
  intros _. apply pairs_valid_bind.
  - apply (pairs_valid_one (Ok tt) [_] (fun w => w)); repeat constructor.
  - intros _. apply (pairs_valid_one _ [] (fun w => w)); constructor.
Qed.

Lemma pairs_valid_fit_rest verbose :
  pairs_valid (show_loss <- sess_run FTrainLoss tf_train_loss ;;
               fit_loops verbose (show_loss, inf) ;;
               ret tt).
Proof.
  apply pairs_valid_bind; [apply pairs_valid_train; [discriminate | auto]|].
  intros l. apply pairs_valid_bind.
  - unfold fit_loops. apply pairs_valid_for_acc. intros epoch a.
    apply pairs_valid_for_acc. intros step a'. apply pairs_valid_fit_step.
  - intros _. apply (pairs_valid_one _ [] (fun w => w)); constructor.
Qed.

(** X8. The validation iterator of [fit] is reset once and never again:
    the reset is the fourth step of the call, before any run, and no later
    step resets it.  In a call that returns, the validation batches taken
    are the batches 0, 1, 2, ... of the validation set, one new batch per
    report step, across epochs; the k-th validation loss is the loss, of
    the parameters of that moment, on the k-th batch; and each of these
    batches exists and is full. *)
Theorem fit_validation_batches_in_sequence :
  forall (verbose : bool) (w : world) w' t,
    fit verbose w = (Ok tt, w', t) ->
    (exists t', t = EvBest inf :: EvSession :: EvInitIter Train :: EvInitIter Valid :: t' /\
                Forall (fun e => is_valid_init e = false) t') /\
    valid_batches t = seq 0 (length (losses t)) /\
    Forall2 loss_on_batch (valid_batches t) (losses t) /\
    forall i, (i < length (losses t))%nat ->
      exists b, valid_records i = Some b /\ full_batch b.
Proof.
  intros verbose w w' t Heq.
  destruct (post_run _ _ _ _ _ _ (fit_valid_batches verbose w) Heq) as [Hseq Hfull].
  destruct (fit_from_fresh verbose w _ _ _ Heq) as (t1 & Hrun & ->).
  destruct (post_run _ _ _ _ _ _ (pairs_valid_fit_rest verbose _) Hrun) as [Hi Hp].
  split; [|split; [exact Hseq|split; [|exact Hfull]]].
  - eexists. split; [reflexivity|]. constructor; [reflexivity|].
    apply Forall_app. split; [exact Hi | repeat constructor].
  - change (valid_batches (EvBest inf :: EvSession :: EvInitIter Train :: EvInitIter Valid
                             :: EvGlobalInit :: t1 ++ [EvClose]))
      with (valid_batches (t1 ++ [EvClose])).
    change (losses (EvBest inf :: EvSession :: EvInitIter Train :: EvInitIter Valid
                      :: EvGlobalInit :: t1 ++ [EvClose]))
      with (losses (t1 ++ [EvClose])).
    rewrite valid_batches_app, losses_app. simpl. rewrite !app_nil_r. exact Hp.
Qed.

(** X16. The store holds the best snapshot.  When a call of [fit] ends,
    returning or raising, the last value assigned to the tracker is either
    still +infinity (no save happened in this call) or the validation loss,
    on one of the validation batches, of the very parameters the store
    holds under the checkpoint path: the snapshot on disk is the one that
    achieved the best validation loss of the call. *)
Theorem fit_store_holds_best_snapshot :
  forall (verbose : bool) (w : world) r w' t,
    fit verbose w = (r, w', t) ->
    exists b, last (assigned t) = Some b /\ best_saved b w'.
Proof.
  intros verbose w r w' t Heq.
  pose proof (post_run _ _ _ _ _ _ (fit_best verbose w) Heq) as Hb. simpl in Hb.
  pose proof (post_run _ _ _ _ _ _ (fit_tracked verbose w) Heq) as (t' & b' & -> & _).
  change (assigned (EvBest inf :: t')) with (inf :: assigned t') in *.
  destruct (last (inf :: assigned t')) as [b|] eqn:Hl.
  - exists b. split; [reflexivity | exact Hb].
  - rewrite last_cons in Hl. destruct (last (assigned t')); discriminate Hl.
Qed.

Lemma tracked_last path b t b' :
  tracked path b t b' -> default b (last (assigned t)) = b'.
Proof.
  induction 1 as [b|b e t b' He _ IH|b v t b' Hv _ IH|b v t b' Hv _ IH].
  - reflexivity.
  - destruct e; try discriminate He; exact IH.
  - exact IH.
  - change (assigned (EvRun FValidLoss v :: EvSave path :: EvBest v :: t))
      with (v :: assigned t).
    rewrite default_last_cons. exact IH.
Qed.

Lemma tracked_saves_iff path b t b' :
  tracked path b t b' -> (saves t <-> slt b' b = true).
Proof.
  intros Htr. split; [|apply (tracked_saves _ _ _ _ Htr)].
  induction Htr as [b|b e t b' He _ IH|b v t b' Hv _ IH|b v t b' Hv Htr _]; intros Hs.
  - inversion Hs.
  - inversion Hs as [? ? Hsave|? ? Hs']; subst; [|exact (IH Hs')].
    destruct e; discriminate.
  - inversion Hs as [? ? Hsave|? ? Hs']; subst; [discriminate | exact (IH Hs')].
  - destruct (tracked_lower_bound _ _ _ _ Htr) as [[->|Hlt] _]; [exact Hv|].
    exact (slt_trans _ _ _ Hlt Hv).
Qed.

(** C1. Within one call of [fit], whether it returns or raises: the
    tracker [best_valid_loss] is set to +infinity before anything else;
    from then on, at every report checkpoint, a validation loss strictly
    below the tracker is followed at once by a save under the checkpoint
    path and the assignment of that loss to the tracker, while a loss
    that is not strictly below is followed by neither, and no save and no
    assignment happens anywhere else ([tracked]).  Hence the values the
    tracker takes are strictly decreasing, so that the tracker never
    increases; at the end no validation loss of the call is strictly
    below it, and it is +infinity or one of those losses.  The saves are
    writes to the directory: a call without a strict decrease leaves the
    directory as it was, and after a call with one the directory is the
    one before the call with the checkpoint files of the saver written
    over it, holding the parameters whose validation loss is the final
    value of the tracker, there to be restored. *)
Theorem fit_best_valid_loss_tracker :
  forall (verbose : bool) (w : world) r w' t,
    fit verbose w = (r, w', t) ->
    exists t' b',
      t = EvBest inf :: t' /\
      tracked save_path inf t' b' /\
      StronglySorted (fun x y => slt y x = true) (assigned t) /\
      (forall v, In v (losses t) -> slt v b' = false) /\
      (b' = inf \/ In b' (losses t)) /\
      (saves t <-> slt b' inf = true) /\
      (~ saves t -> store w' = store w) /\
      (saves t ->
       exists p rec j,
         store w' = write_checkpoint save_path p (store w) /\
         read_checkpoint save_path (store w') = Some p /\
         valid_records j = Some rec /\
         b' = loss p (batch_images rec) (labels rec)).
Proof.
  intros verbose w r w' t Heq.
  pose proof (post_run _ _ _ _ _ _ (fit_written verbose w) Heq) as Hw. simpl in Hw.
  destruct (post_run _ _ _ _ _ _ (fit_tracked verbose w) Heq) as (t' & b' & -> & Htr).
  change (assigned (EvBest inf :: t')) with (inf :: assigned t') in Hw.
  rewrite default_last_cons, (tracked_last _ _ _ _ Htr) in Hw.
  assert (Hiff : saves (EvBest inf :: t') <-> slt b' inf = true).
  { rewrite <- (tracked_saves_iff _ _ _ _ Htr). split; intros H.
    - inversion H as [? ? Hsave|? ? Hs']; [discriminate | exact Hs'].
    - apply Exists_cons_tl. exact H. }
  exists t', b'. split; [reflexivity|]. split; [exact Htr|].
  split; [exact (tracked_sorted _ _ _ _ Htr)|].
  split; [exact (proj2 (tracked_lower_bound _ _ _ _ Htr))|].
  split; [exact (tracked_attained _ _ _ _ Htr)|].
  split; [exact Hiff|]. split.
  - intros Hno. destruct Hw as [[_ Hs]|[Hlt _]]; [exact Hs|].
    exfalso. apply Hno. apply Hiff. exact Hlt.
  - intros Hs. apply Hiff in Hs.
    destruct Hw as [[Hb _]|[_ (p & rec & j & Hst & Hrec & Hb)]].
    + rewrite Hb in Hs. discriminate.
    + exists p, rec, j. split; [exact Hst|]. split; [|split; assumption].
      rewrite Hst. apply read_write_checkpoint.
Qed.

(** X17. Training, then predicting.  After a call of [fit] in which some
    validation loss was below +infinity, [predict_prob] on a well-typed,
    well-shaped array does not initialise anything: it restores the
    snapshot and answers with the softmax of the logits under the stored
    parameters, which are those that achieved the best validation loss of
    the call: their loss on a validation batch is the final tracker, and no
    validation loss of the call is strictly below it. *)
Theorem fit_then_predict_prob_uses_best :
  forall (verbose : bool) (w : world) r w1 t (img : ndarray),
    fit verbose w = (r, w1, t) ->
    (exists v, In v (losses t) /\ slt v inf = true) ->
    arr_dtype img = Float32 -> feed_fits (arr_rows img) = true ->
    exists p b rec j,
      last (assigned t) = Some b /\
      (forall v, In v (losses t) -> slt v b = false) /\
      valid_records j = Some rec /\
      b = loss p (batch_images rec) (labels rec) /\
      read_checkpoint save_path (store w1) = Some p /\
      predict_prob img w1
      = (Ok {| arr_dtype := Float32;
               arr_rows := map softmax (get_logits p (arr_rows img)) |},
         set_sess w1 (set_variables fresh_session p),
         [EvSession; EvListdir; EvRestore save_path; EvPredict; EvClose]).
Proof.
  intros verbose w r w1 t img Heq (v & Hin & Hv) Hd Hf.
  pose proof (post_run _ _ _ _ _ _ (fit_best verbose w) Heq) as Hb. simpl in Hb.
  pose proof (post_run _ _ _ _ _ _ (fit_tracked verbose w) Heq) as (t' & b' & -> & Htr).
  change (assigned (EvBest inf :: t')) with (inf :: assigned t') in *.
  rewrite default_last_cons, (tracked_last _ _ _ _ Htr) in Hb.
  destruct (tracked_lower_bound _ _ _ _ Htr) as [_ Hlow].
  assert (Hlast : last (inf :: assigned t') = Some b').
  { rewrite last_cons. pose proof (tracked_last _ _ _ _ Htr) as H.
    destruct (last (assigned t')); simpl in H; congruence. }
  destruct Hb as [->|(p & rec & j & Hp & Hrec & Hloss)].
  { specialize (Hlow v Hin). congruence. }
  exists p, b', rec, j. repeat split; try assumption.
  apply predict_prob_restored; assumption.
Qed.

End Trainer.

(** * The small instance, run

    The theorems above, applied to the instance of the beginning: the
    directory starts empty, and the model is the one-weight model. *)

Local Abbreviation toy_world :=
  {| store := ∅; rng := 0%nat; sess := fresh_session scalar |}.

Local Abbreviation toy_snapshot_world :=
  {| store := write_checkpoint scalar save_path (SNum 2) ∅;
     rng := 0%nat; sess := fresh_session scalar |}.

Local Abbreviation toy_fit :=
  (fit scalar toy_fresh toy_logits toy_cross_entropy toy_minimize
     toy_records toy_records toy_cfg).

Local Abbreviation toy_get_accuracy :=
  (get_accuracy scalar toy_fresh).

Local Abbreviation toy_valid_accuracy :=
  (valid_accuracy scalar toy_logits toy_softmax toy_records toy_records toy_cfg).

Local Abbreviation toy_get_valid_accuracy :=
  (get_valid_accuracy scalar toy_fresh toy_logits toy_softmax
     toy_records toy_records toy_cfg).

Local Abbreviation toy_predict_prob :=
  (predict_prob scalar toy_fresh toy_logits toy_softmax toy_cfg).

Local Abbreviation toy_predict :=
  (predict scalar toy_fresh toy_logits toy_softmax toy_cfg).

Local Abbreviation toy_img :=
  {| arr_dtype := Float32; arr_rows := [[SNum 1]; [SNum (-7)]] |}.

Lemma run_eta {A B C} (x : A * B * C) : x = (x.1.1, x.1.2, x.2).
Proof. destruct x as [[a b] c]. reflexivity. Qed.

Lemma fit_best_valid_loss_tracker_witness :
  exists t' b',
    (toy_fit true toy_world).2 = EvBest inf :: t' /\
    tracked save_path inf t' b' /\
    StronglySorted (fun x y => slt y x = true) (assigned (toy_fit true toy_world).2) /\
    (forall v, In v (losses (toy_fit true toy_world).2) -> slt v b' = false) /\
    (b' = inf \/ In b' (losses (toy_fit true toy_world).2)) /\
    (saves (toy_fit true toy_world).2 <-> slt b' inf = true) /\
    (~ saves (toy_fit true toy_world).2 ->
     store scalar (toy_fit true toy_world).1.2 = store scalar toy_world) /\
    (saves (toy_fit true toy_world).2 ->
     exists p rec j,
       store scalar (toy_fit true toy_world).1.2
       = write_checkpoint scalar save_path p (store scalar toy_world) /\
       read_checkpoint scalar save_path (store scalar (toy_fit true toy_world).1.2)
       = Some p /\
       toy_records j = Some rec /\
       b' = loss scalar toy_logits toy_cross_entropy p
              (batch_images toy_cfg rec) (labels rec)).
Proof.
  apply (fit_best_valid_loss_tracker scalar toy_fresh toy_logits toy_cross_entropy
           toy_minimize toy_records toy_records toy_cfg true toy_world
           (toy_fit true toy_world).1.1 (toy_fit true toy_world).1.2).
  vm_compute. reflexivity.
Defined.

Lemma fit_starts_from_scratch_witness :
  (exists t', (toy_fit false toy_snapshot_world).2
              = EvBest inf :: EvSession :: EvInitIter Train :: EvInitIter Valid
                  :: EvGlobalInit :: t' /\ no_setup t') /\
  (exists t1,
     (show_loss <- sess_run scalar FTrainLoss
                     (tf_train_loss scalar toy_logits toy_cross_entropy toy_records
                        toy_records toy_cfg) ;;
      fit_loops scalar toy_logits toy_cross_entropy toy_minimize toy_records
        toy_records toy_cfg false (show_loss, inf) ;;
      ret tt)
       {| store := store scalar toy_snapshot_world; rng := 1%nat;
          sess := {| variables := Some (toy_fresh 0);
                     train_pos := Some 0%nat; valid_pos := Some 0%nat |} |}
     = ((toy_fit false toy_snapshot_world).1.1, (toy_fit false toy_snapshot_world).1.2, t1) /\
     (toy_fit false toy_snapshot_world).2
     = EvBest inf :: EvSession :: EvInitIter Train :: EvInitIter Valid
         :: EvGlobalInit :: t1 ++ [EvClose]) /\
  (forall (d : gmap string (file scalar)) (s : session scalar),
      exists w2', toy_fit false {| store := d; rng := 0%nat; sess := s |}
                  = ((toy_fit false toy_snapshot_world).1.1, w2',
                     (toy_fit false toy_snapshot_world).2) /\
                  same_run scalar (toy_fit false toy_snapshot_world).1.2 w2').
Proof.
  apply (fit_starts_from_scratch scalar toy_fresh toy_logits toy_cross_entropy
           toy_minimize toy_records toy_records toy_cfg false toy_snapshot_world).
  apply run_eta.
Defined.

Lemma predict_argmax_of_predict_prob_witness :
  exists preds,
    toy_predict toy_img toy_world
    = (Ok preds, (toy_predict_prob toy_img toy_world).1.2,
       (toy_predict_prob toy_img toy_world).2) /\
    length preds = 2%nat.
Proof.
  destruct (predict_argmax_of_predict_prob scalar toy_fresh toy_logits toy_softmax
              toy_cfg toy_img toy_world) as [_ H].
  destruct (H {| arr_dtype := Float32;
                 arr_rows := [[SNum (5 + (0 + 1)); SNum 0]; [SNum (5 + (0 + -7)); SNum 0]] |}
              (toy_predict_prob toy_img toy_world).1.2
              (toy_predict_prob toy_img toy_world).2) as [Hok _].
  { vm_compute. reflexivity. }
  destruct Hok as (preds & Hp & Hlen & _).
  { repeat constructor; discriminate. }
  exists preds. split; [exact Hp | exact Hlen].
Defined.

Lemma predict_prob_dtype_assertion_witness :
  toy_predict_prob {| arr_dtype := UInt8; arr_rows := [[SNum 1]] |} toy_world
  = (Err AssertionError, toy_world, []) /\
  exists r w' t', toy_predict_prob toy_img toy_world = (r, w', EvSession :: t') /\
                  r <> Err AssertionError.
Proof.
  destruct (predict_prob_dtype_assertion scalar toy_fresh toy_logits toy_softmax toy_cfg
              {| arr_dtype := UInt8; arr_rows := [[SNum 1]] |} toy_world) as [H1 _].
  destruct (predict_prob_dtype_assertion scalar toy_fresh toy_logits toy_softmax toy_cfg
              toy_img toy_world) as [_ H2].
  split; [apply H1; simpl; discriminate | apply H2; reflexivity].
Defined.

Lemma get_accuracy_zero_division_witness :
  (toy_get_accuracy Valid toy_valid_accuracy 0 toy_world).1.1 = Err ZeroDivisionError /\
  (toy_get_accuracy Valid toy_valid_accuracy 3 toy_world).1.1 <> Err ZeroDivisionError.
Proof.
  destruct (get_accuracy_zero_division scalar toy_fresh toy_logits toy_softmax
              toy_records toy_records toy_cfg) as (H0 & H1 & _).
  split.
  - apply (H0 Valid toy_valid_accuracy toy_world _ _ _ (run_eta _)).
    left. reflexivity.
  - apply (H1 Valid toy_valid_accuracy 3 toy_world _ _ _ ltac:(lia) (run_eta _)).
Defined.

Local Abbreviation toy_mixed_records :=
  (fun i : nat =>
     Some {| images := [[SNum (inject_Z (Z.of_nat i))]];
             labels := [if (i =? 0)%nat then 0 else 1] |}).

Local Abbreviation toy_mixed_accuracy :=
  (get_valid_accuracy scalar toy_fresh toy_logits toy_softmax
     toy_records toy_mixed_records toy_cfg).


Local Abbreviation toy_stray_world :=
  {| store := {[ "events.log" := OtherFile scalar ]};
     rng := 0%nat; sess := fresh_session scalar |}.

Lemma restore_iff_directory_nonempty_witness :
  first_run scalar toy_valid_accuracy
    (set_variables scalar (set_pos scalar Valid 0 (fresh_session scalar)) (SNum 2))
    (toy_get_accuracy Valid toy_valid_accuracy 3 toy_snapshot_world).1.1
    (toy_get_accuracy Valid toy_valid_accuracy 3 toy_snapshot_world).2 /\
  (toy_predict_prob toy_img toy_snapshot_world).1.1
  = Ok {| arr_dtype := Float32;
          arr_rows := map toy_softmax (toy_logits (SNum 2) (arr_rows toy_img)) |} /\
  (toy_predict_prob toy_img toy_world).1.1
  = Ok {| arr_dtype := Float32;
          arr_rows := map toy_softmax (toy_logits (toy_fresh 0) (arr_rows toy_img)) |} /\
  (toy_get_accuracy Valid toy_valid_accuracy 3 toy_stray_world).1.1 = Err ValueError /\
  (toy_predict_prob toy_img toy_stray_world).1.1 = Err ValueError.
Proof.
  destruct (restore_iff_directory_nonempty scalar toy_fresh toy_logits toy_softmax toy_cfg)
    as (Hacc & Hpred).
  assert (Hsnap : setup_params scalar toy_fresh toy_snapshot_world (SNum 2)).
  { right. split; [apply write_checkpoint_nonempty | apply read_write_checkpoint]. }
  assert (Hfresh : setup_params scalar toy_fresh toy_world (toy_fresh 0)).
  { left. split; reflexivity. }
  assert (Hne : store scalar toy_stray_world <> ∅).
  { apply insert_non_empty. }
  assert (Hnone : read_checkpoint scalar save_path (store scalar toy_stray_world) = None).
  { vm_compute. reflexivity. }
  assert (H3 : 1 <= 3) by lia.
  split; [|split; [|split; [|split]]].
  - exact (proj2 (Hacc Valid toy_valid_accuracy 3 toy_snapshot_world _ _ _ (run_eta _))
             (SNum 2) H3 Hsnap).
  - exact (proj2 (Hpred toy_img toy_snapshot_world _ _ _ eq_refl (run_eta _))
             (SNum 2) eq_refl Hsnap).
  - exact (proj2 (Hpred toy_img toy_world _ _ _ eq_refl (run_eta _))
             (toy_fresh 0) eq_refl Hfresh).
  - destruct (proj1 (Hacc Valid toy_valid_accuracy 3 toy_stray_world _ _ _ (run_eta _)))
      as (X & t' & _ & _ & _ & _ & H).
    exact (H Hne Hnone).
  - destruct (proj1 (Hpred toy_img toy_stray_world _ _ _ eq_refl (run_eta _)))
      as (X & t' & _ & _ & _ & _ & H).
    exact (H Hne Hnone).
Defined.

Lemma get_accuracy_no_store_write_witness :
  store scalar (toy_get_accuracy Valid toy_valid_accuracy 3 toy_world).1.2 = ∅ /\
  store scalar (toy_get_valid_accuracy None toy_world).1.2 = ∅.
Proof.
  destruct (get_accuracy_no_store_write scalar toy_fresh toy_logits toy_softmax
              toy_records toy_records toy_cfg) as (Hacc & Hvalid).
  split.
  - exact (Hacc Valid toy_valid_accuracy 3 toy_world _ _ _ (run_eta _)).
  - exact (Hvalid None toy_world _ _ _ (run_eta _)).
Defined.

Lemma fit_checkpoint_after_finite_loss_witness :
  has_snapshot scalar (toy_fit true toy_world).1.2 /\
  store scalar (toy_fit true toy_world).1.2 <> ∅.
Proof.
  apply (fit_checkpoint_after_finite_loss scalar toy_fresh toy_logits toy_cross_entropy
           toy_minimize toy_records toy_records toy_cfg true toy_world
           (toy_fit true toy_world).1.1 (toy_fit true toy_world).1.2
           (toy_fit true toy_world).2).
  - vm_compute. reflexivity.
  - exists (hd SNaN (losses (toy_fit true toy_world).2)).
    split; vm_compute; auto.
Defined.

(** C9 as worded fails: when the optimiser diverges, every validation loss
    is NaN, no loss is below the tracker, and a call that starts with an
    empty directory returns, after four report steps, with the directory
    still empty. *)
Lemma fit_diverged_leaves_no_checkpoint :
  ~ checkpoint_after_report_step scalar toy_fresh toy_logits toy_cross_entropy
      toy_diverge toy_records toy_records toy_cfg.
Proof.
  intros H.
  apply (H true toy_world
           (fit scalar toy_fresh toy_logits toy_cross_entropy toy_diverge
              toy_records toy_records toy_cfg true toy_world).1.2
           (fit scalar toy_fresh toy_logits toy_cross_entropy toy_diverge
              toy_records toy_records toy_cfg true toy_world).2).
  - vm_compute. reflexivity.
  - vm_compute. discriminate.
  - vm_compute. reflexivity.
Qed.

Lemma fit_consumes_one_extra_batch_witness :
  train_batches (toy_fit true toy_world).2 = [0; 1; 2; 3; 4; 5; 6]%nat /\
  length (updates (toy_fit true toy_world).2) = 6%nat.
Proof.
  destruct (fit_consumes_one_extra_batch scalar toy_fresh toy_logits toy_cross_entropy
              toy_minimize toy_records toy_records toy_cfg true toy_world
              (toy_fit true toy_world).1.2 (toy_fit true toy_world).2)
    as (_ & Hb & Hu & _).
  { vm_compute. reflexivity. }
  split; [exact Hb | exact Hu].
Defined.

(** ** Further runs of the small instance *)

Lemma predict_prob_answers_witness :
  toy_predict_prob toy_img toy_world
  = (Ok {| arr_dtype := Float32;
           arr_rows := map toy_softmax (toy_logits (toy_fresh 0) (arr_rows toy_img)) |},
     {| store := ∅; rng := 1%nat;
        sess := set_variables scalar (fresh_session scalar) (toy_fresh 0) |},
     [EvSession; EvListdir; EvGlobalInit; EvPredict; EvClose]) /\
  toy_predict_prob toy_img toy_snapshot_world
  = (Ok {| arr_dtype := Float32;
           arr_rows := map toy_softmax (toy_logits (SNum 2) (arr_rows toy_img)) |},
     set_sess scalar toy_snapshot_world (set_variables scalar (fresh_session scalar) (SNum 2)),
     [EvSession; EvListdir; EvRestore save_path; EvPredict; EvClose]).
Proof.
  split.
  - apply (predict_prob_answers scalar toy_fresh toy_logits toy_softmax toy_cfg
             toy_img toy_world); reflexivity.
  - apply (predict_prob_answers scalar toy_fresh toy_logits toy_softmax toy_cfg
             toy_img toy_snapshot_world); [reflexivity | reflexivity |].
    vm_compute. reflexivity.
Defined.

Lemma predict_prob_bad_feed_witness :
  (toy_predict_prob {| arr_dtype := Float32; arr_rows := [[SNum 1; SNum 2]] |}
     toy_world).1.1 = Err ValueError.
Proof.
  apply (predict_prob_bad_feed scalar toy_fresh toy_logits toy_softmax toy_cfg
           {| arr_dtype := Float32; arr_rows := [[SNum 1; SNum 2]] |} toy_world _ _ _
           eq_refl eq_refl (or_introl eq_refl) (run_eta _)).
Defined.

Lemma predict_no_store_write_witness :
  store scalar (toy_predict_prob toy_img toy_snapshot_world).1.2
  = store scalar toy_snapshot_world /\
  store scalar (toy_predict toy_img toy_snapshot_world).1.2
  = store scalar toy_snapshot_world.
Proof.
  destruct (predict_no_store_write scalar toy_fresh toy_logits toy_softmax toy_cfg)
    as (H1 & H2).
  split.
  - exact (H1 toy_img toy_snapshot_world _ _ _ (run_eta _)).
  - exact (H2 toy_img toy_snapshot_world _ _ _ (run_eta _)).
Defined.

Lemma predict_class_ids_in_range_witness :
  exists preds, (toy_predict toy_img toy_world).1.1 = Ok preds /\
                length preds = length (arr_rows toy_img).
Proof.
  destruct (predict_class_ids_in_range scalar toy_fresh toy_logits toy_softmax toy_cfg
              toy_img toy_world [0; 1] (toy_predict toy_img toy_world).1.2
              (toy_predict toy_img toy_world).2) as (probs & _ & _ & _ & Hlen).
  { vm_compute. reflexivity. }
  exists [0; 1]. split; [vm_compute; reflexivity|].
  apply Hlen. intros p x. unfold toy_logits. apply length_map.
Defined.

Lemma get_accuracy_negative_count_witness :
  accuracies (toy_get_accuracy Valid toy_valid_accuracy (-3) toy_world).2 = [] /\
  exists q, (toy_get_accuracy Valid toy_valid_accuracy (-3) toy_world).1.1 = Ok (SNum q) /\
            (q == 0)%Q.
Proof.
  destruct (get_accuracy_negative_count scalar toy_fresh Valid toy_valid_accuracy (-3)
              toy_world _ _ _ ltac:(lia) (run_eta _)) as [H1 H2].
  split; [exact H1|]. apply H2. left. reflexivity.
Defined.

Lemma get_accuracy_iterator_mismatch_witness :
  (toy_get_accuracy Train toy_valid_accuracy 2 toy_world).1.1
  = Err (TfError FailedPrecondition).
Proof.
  destruct (get_accuracy_iterator_mismatch scalar toy_fresh toy_logits toy_softmax
              toy_cross_entropy toy_records toy_records toy_cfg 2 toy_world
              ltac:(lia) (or_introl eq_refl)) as [H _].
  exact (proj1 (H _ _ _ (run_eta _))).
Defined.

Lemma get_valid_accuracy_bad_first_batch_witness :
  (get_valid_accuracy scalar toy_fresh toy_logits toy_softmax toy_records
     (fun _ => None) toy_cfg (Some 2) toy_world).1.1 = Err (TfError OutOfRange) /\
  (get_valid_accuracy scalar toy_fresh toy_logits toy_softmax toy_records
     (fun _ => Some {| images := [[SNum 1]]; labels := [0; 1] |}) toy_cfg (Some 2)
     toy_world).1.1 = Err (TfError InvalidArgument).
Proof.
  split.
  - destruct (get_valid_accuracy_bad_first_batch scalar toy_fresh toy_logits toy_softmax
                toy_records (fun _ => None) toy_cfg 2 toy_world _ _ _
                ltac:(lia) (or_introl eq_refl) (run_eta _)) as [H _].
    exact (proj1 (H eq_refl)).
  - destruct (get_valid_accuracy_bad_first_batch scalar toy_fresh toy_logits toy_softmax
                toy_records (fun _ => Some {| images := [[SNum 1]]; labels := [0; 1] |})
                toy_cfg 2 toy_world _ _ _
                ltac:(lia) (or_introl eq_refl) (run_eta _)) as [_ H].
    refine (proj1 (H _ eq_refl _)). right. simpl. lia.
Defined.

Lemma fit_validation_batches_in_sequence_witness :
  valid_batches (toy_fit true toy_world).2 = [0; 1; 2; 3]%nat /\
  Forall2 (loss_on_batch scalar toy_logits toy_cross_entropy toy_records toy_cfg)
    (valid_batches (toy_fit true toy_world).2) (losses (toy_fit true toy_world).2).
Proof.
  destruct (fit_validation_batches_in_sequence scalar toy_fresh toy_logits
              toy_cross_entropy toy_minimize toy_records toy_records toy_cfg true toy_world
              (toy_fit true toy_world).1.2 (toy_fit true toy_world).2)
    as (_ & H & Hp & _).
  { vm_compute. reflexivity. }
  split; [|exact Hp]. rewrite H. vm_compute. reflexivity.
Defined.

Lemma get_valid_accuracy_first_batches_witness :
  valid_batches (toy_get_valid_accuracy (Some 3) toy_world).2 = [0; 1; 2]%nat.
Proof.
  destruct (get_valid_accuracy_first_batches scalar toy_fresh toy_logits toy_softmax
              toy_records toy_records toy_cfg 3 toy_world (SNum 1)
              (toy_get_valid_accuracy (Some 3) toy_world).1.2
              (toy_get_valid_accuracy (Some 3) toy_world).2) as [H _].
  { vm_compute. reflexivity. }
  exact H.
Defined.


Local Abbreviation toy_cfg_zero_interval :=
  {| batch_size := 1; epochs := 2; num_steps := 3; save_step := 0;
     height := 1; width := 1; channels := 1 |}.

Local Abbreviation toy_cfg_no_epoch :=
  {| batch_size := 1; epochs := 0; num_steps := 3; save_step := 2;
     height := 1; width := 1; channels := 1 |}.

Lemma fit_zero_report_interval_witness :
  (fit scalar toy_fresh toy_logits toy_cross_entropy toy_minimize toy_records toy_records
     toy_cfg_zero_interval true toy_world).1.1 = Err ZeroDivisionError.
Proof.
  destruct (fit_zero_report_interval scalar toy_fresh toy_logits toy_cross_entropy
              toy_minimize toy_records toy_records toy_cfg_zero_interval true toy_world
              _ _ _ eq_refl ltac:(simpl; lia) ltac:(unfold iterations; simpl; lia)
              (run_eta _)) as (_ & _ & [[H _]|(e & H & Hu)]).
  - exact H.
  - exfalso. revert Hu. vm_compute. discriminate.
Defined.

Lemma fit_without_steps_witness :
  updates (fit scalar toy_fresh toy_logits toy_cross_entropy toy_minimize toy_records
             toy_records toy_cfg_no_epoch true toy_world).2 = [] /\
  store scalar (fit scalar toy_fresh toy_logits toy_cross_entropy toy_minimize toy_records
                  toy_records toy_cfg_no_epoch true toy_world).1.2 = ∅.
Proof.
  assert (Hno : epochs toy_cfg_no_epoch <= 0) by (simpl; lia).
  destruct (fit_without_steps scalar toy_fresh toy_logits toy_cross_entropy
              toy_minimize toy_records toy_records toy_cfg_no_epoch true toy_world
              _ _ _ (or_introl Hno) (run_eta _)) as (Hs & Hu & _).
  split; [exact Hu | exact Hs].
Defined.

Lemma fit_verbose_only_prints_witness :
  toy_fit false toy_world
  = ((toy_fit true toy_world).1.1, (toy_fit true toy_world).1.2,
     erase_prints (toy_fit true toy_world).2).
Proof.
  apply (fit_verbose_only_prints scalar toy_fresh toy_logits toy_cross_entropy
           toy_minimize toy_records toy_records toy_cfg toy_world).
  vm_compute. reflexivity.
Defined.

Lemma fit_progress_line_shows_locals_witness :
  exists l b,
    last (train_losses (take 9 (toy_fit true toy_world).2)) = Some l /\
    last (assigned (take 9 (toy_fit true toy_world).2)) = Some b.
Proof.
  eexists _, _.
  eapply (fit_progress_line_shows_locals scalar toy_fresh toy_logits toy_cross_entropy
            toy_minimize toy_records toy_records toy_cfg true toy_world
            _ _ _ (run_eta _) (take 9 (toy_fit true toy_world).2) _ _ _ _
            (drop 10 (toy_fit true toy_world).2)).
  vm_compute. reflexivity.
Defined.

Lemma fit_validation_loss_count_witness :
  Z.of_nat (length (losses (toy_fit true toy_world).2)) = 4.
Proof.
  destruct (fit_validation_loss_count scalar toy_fresh toy_logits toy_cross_entropy
              toy_minimize toy_records toy_records toy_cfg true toy_world
              (toy_fit true toy_world).1.2 (toy_fit true toy_world).2) as [_ H].
  { vm_compute. reflexivity. }
  rewrite H.
  - vm_compute. reflexivity.
  - vm_compute. reflexivity.
  - simpl. lia.
  - unfold iterations. simpl. lia.
Defined.

Lemma fit_store_holds_best_snapshot_witness :
  exists b, last (assigned (toy_fit true toy_world).2) = Some b /\
            best_saved scalar toy_logits toy_cross_entropy toy_records toy_cfg b
              (toy_fit true toy_world).1.2.
Proof.
  exact (fit_store_holds_best_snapshot scalar toy_fresh toy_logits toy_cross_entropy
           toy_minimize toy_records toy_records toy_cfg true toy_world _ _ _ (run_eta _)).
Defined.

Lemma fit_then_predict_prob_uses_best_witness :
  exists p,
    read_checkpoint scalar save_path (store scalar (toy_fit true toy_world).1.2) = Some p /\
    (predict_prob scalar toy_fresh toy_logits toy_softmax toy_cfg toy_img
       (toy_fit true toy_world).1.2).1.1
    = Ok {| arr_dtype := Float32;
            arr_rows := map toy_softmax (toy_logits p (arr_rows toy_img)) |}.
Proof.
  destruct (fit_then_predict_prob_uses_best scalar toy_fresh toy_logits toy_softmax
              toy_cross_entropy toy_minimize toy_records toy_records toy_cfg
              true toy_world _ _ _ toy_img (run_eta _))
    as (p & b & rec & j & _ & _ & _ & _ & Hp & Hpred).
  - exists (hd SNaN (losses (toy_fit true toy_world).2)). split; vm_compute; auto.
  - reflexivity.
  - reflexivity.
  - exists p. split; [exact Hp|]. rewrite Hpred. reflexivity.
Defined.
